(** * Verification of the video transformation core

    Shallow embedding of [modules/video_processor.py] and
    [modules/llm_analyzer.py]: geometry planning, overlay validation and
    timing, caption wrapping, filter-graph assembly and outro stitching. *)

From Stdlib Require Import ZArith QArith Qround Qpower Qabs Qminmax Lia Lqa List Bool.
From Stdlib Require Import Strings.String Strings.Ascii DecimalString.
From Stdlib Require Import Sorting.Sorted Sorting.Permutation.
From Stdlib Require PrimFloat FloatOps SpecFloat Uint63.
Import ListNotations.

Local Open Scope Z_scope.

(** ** Python exceptions that the modelled code can raise *)

Inductive exn : Type :=
| ZeroDivisionError
| OverflowError
| ValueError
| TypeError
| AttributeError
| IndexError
| CalledProcessError
| OSError.

(** A computation that either raises or returns. *)
Definition result (A : Type) : Type := (exn + A)%type.

Definition ret {A} (a : A) : result A := inr a.
Definition raise {A} (e : exn) : result A := inl e.
Definition bind {A B} (m : result A) (k : A -> result B) : result B :=
  match m with
  | inl e => inl e
  | inr a => k a
  end.

Declare Scope result_scope.
Delimit Scope result_scope with result.
Notation "x <- m ;; k" := (bind m (fun x => k))
  (at level 61, m at next level, right associativity) : result_scope.

(** ** Python floats: IEEE-754 binary64, round to nearest, ties to even

    A finite float is represented by the rational number it denotes (the two
    signed zeros are identified).  Every arithmetic operation computes the
    exact rational result and rounds it with [round]. *)

Module Binary64.

Local Open Scope Q_scope.

Definition prec : Z := 53.
Definition emin : Z := -1074.
Definition emax : Z := 1024.

(** [ilog2 q] is the integer [k] with [2^k <= q < 2^(k+1)], for [0 < q]. *)
Definition ilog2 (q : Q) : Z :=
  let k := (Z.log2 (Qnum q) - Z.log2 (Zpos (Qden q)))%Z in
  if Qle_bool (2 ^ k) q then k else (k - 1)%Z.

(** Nearest integer, ties to the even one. *)
Definition rne (q : Q) : Z :=
  let f := Qfloor q in
  match Qcompare (q - inject_Z f) (1 # 2) with
  | Lt => f
  | Gt => (f + 1)%Z
  | Eq => if Z.even f then f else (f + 1)%Z
  end.

(** Exponent of the unit in the last place of the binade of [q]
    (subnormal numbers share the smallest exponent). *)
Definition ulp_exp (q : Q) : Z := Z.max (ilog2 q - (prec - 1)) emin.

Definition round_pos (q : Q) : Q :=
  let e := ulp_exp q in
  inject_Z (rne (q / 2 ^ e)) * 2 ^ e.

(** Rounding of an exact result, before the overflow test. *)
Definition round (q : Q) : Q :=
  match Qcompare q 0 with
  | Eq => 0
  | Gt => round_pos q
  | Lt => - round_pos (- q)
  end.

Inductive float : Type :=
| Fin (q : Q)
| PInf
| NInf
| NaN.

(** Rounding to a float: results of magnitude [2^1024] or more overflow. *)
Definition of_Q (q : Q) : float :=
  let r := round q in
  if Qle_bool (2 ^ emax) r then PInf
  else if Qle_bool r (- 2 ^ emax) then NInf
  else Fin r.

(** Equality of floats as values. *)
Definition feq (a b : float) : Prop :=
  match a, b with
  | Fin x, Fin y => x == y
  | PInf, PInf => True
  | NInf, NInf => True
  | _, _ => False
  end.

(** A rational that a binary64 float denotes exactly. *)
Definition representable (q : Q) : Prop :=
  round q == q /\ Qabs q < 2 ^ emax.

Definition fadd (a b : float) : float :=
  match a, b with
  | Fin x, Fin y => of_Q (x + y)
  | NaN, _ | _, NaN => NaN
  | PInf, NInf | NInf, PInf => NaN
  | PInf, _ | _, PInf => PInf
  | NInf, _ | _, NInf => NInf
  end.

Definition fopp (a : float) : float :=
  match a with
  | Fin x => Fin (- x)
  | PInf => NInf
  | NInf => PInf
  | NaN => NaN
  end.

Definition fsub (a b : float) : float := fadd a (fopp b).

Definition sign_inf (positive : bool) : float :=
  if positive then PInf else NInf.

Definition fmul (a b : float) : float :=
  match a, b with
  | Fin x, Fin y => of_Q (x * y)
  | NaN, _ | _, NaN => NaN
  | Fin x, PInf | PInf, Fin x =>
      if Qeq_bool x 0 then NaN else sign_inf (Qle_bool 0 x)
  | Fin x, NInf | NInf, Fin x =>
      if Qeq_bool x 0 then NaN else sign_inf (negb (Qle_bool 0 x))
  | PInf, PInf | NInf, NInf => PInf
  | PInf, NInf | NInf, PInf => NInf
  end.

(** Python's float [/]: a zero divisor raises. *)
Definition fdiv (a b : float) : result float :=
  match a, b with
  | NaN, Fin y | PInf, Fin y | NInf, Fin y | Fin _, Fin y =>
      if Qeq_bool y 0 then raise ZeroDivisionError
      else match a with
           | Fin x => ret (of_Q (x / y))
           | PInf => ret (sign_inf (Qle_bool 0 y))
           | NInf => ret (sign_inf (negb (Qle_bool 0 y)))
           | NaN => ret NaN
           end
  | Fin _, PInf | Fin _, NInf => ret (Fin 0)
  | _, _ => ret NaN
  end.

(** Comparisons; every comparison with NaN is false. *)
Definition flt (a b : float) : bool :=
  match a, b with
  | NaN, _ | _, NaN => false
  | Fin x, Fin y => negb (Qle_bool y x)
  | PInf, _ | _, NInf => false
  | NInf, _ | _, PInf => true
  end.

Definition fle (a b : float) : bool :=
  match a, b with
  | NaN, _ | _, NaN => false
  | Fin x, Fin y => Qle_bool x y
  | NInf, _ | _, PInf => true
  | PInf, _ | _, NInf => false
  end.

Definition fgt (a b : float) : bool := flt b a.
Definition fge (a b : float) : bool := fle b a.

(** [float(n)] for an [int]: raises when [n] is too large. *)
Definition of_int (n : Z) : result float :=
  match of_Q (inject_Z n) with
  | Fin r => ret (Fin r)
  | _ => raise OverflowError
  end.

(** [a / b] for two [int]s: the correctly rounded quotient. *)
Definition int_truediv (a b : Z) : result float :=
  if (b =? 0)%Z then raise ZeroDivisionError
  else match of_Q (inject_Z a / inject_Z b) with
       | Fin r => ret (Fin r)
       | _ => raise OverflowError
       end.

(** [int(x)]: truncation toward zero. *)
Definition Qtrunc (q : Q) : Z :=
  if Qle_bool 0 q then Qfloor q else Qceiling q.

Definition to_int (a : float) : result Z :=
  match a with
  | Fin x => ret (Qtrunc x)
  | PInf | NInf => raise OverflowError
  | NaN => raise ValueError
  end.

(** The same values in Rocq's primitive binary64 floats, to compare the
    model with the hardware arithmetic on concrete inputs. *)
Definition hw (n : Z) : PrimFloat.float := PrimFloat.of_uint63 (Uint63.of_Z n).

Definition Q_of_hw (f : PrimFloat.float) : option Q :=
  match FloatOps.Prim2SF f with
  | SpecFloat.S754_zero _ => Some 0
  | SpecFloat.S754_finite s m e =>
      Some ((if s then - inject_Z (Zpos m) else inject_Z (Zpos m)) * 2 ^ e)
  | _ => None
  end.

Definition same_value (a : option Q) (b : float) : bool :=
  match a, b with
  | Some x, Fin y => Qeq_bool x y
  | _, _ => false
  end.

End Binary64.

Import Binary64.

(** ** GeometryPlanner: [VideoProcessor._calculate_crop_params] *)

Definition target_ratio : float := Fin (9 # 16).

(** Frame dimensions come from ffprobe, which reports them as C [int]s; on
    this range the float arithmetic of the planner involves no rounding of
    the operands. *)
Definition frame_dimension (n : Z) : Prop := 0 < n < 2 ^ 49.

Definition _calculate_crop_params (width height : Z)
  : result (Z * Z * Z * Z) :=
  (current_ratio <- int_truediv width height ;;
   if fgt current_ratio target_ratio then
     let crop_height := height in
     h <- of_int height ;;
     crop_width <- to_int (fmul h target_ratio) ;;
     let x_offset := (width - crop_width) / 2 in
     let y_offset := 0 in
     ret (crop_width, crop_height, x_offset, y_offset)
   else
     let crop_width := width in
     w <- of_int width ;;
     q <- fdiv w target_ratio ;;
     crop_height <- to_int q ;;
     let x_offset := 0 in
     let y_offset := (height - crop_height) / 2 in
     ret (crop_width, crop_height, x_offset, y_offset))%result.


(** The side crop as the specification words it, with [round] read as the
    nearest integer (Python's [round]). *)
Definition spec_crop_sides (width height : Z) : Z * Z * Z * Z :=
  let crop_width := rne (inject_Z height * (9 # 16)) in
  (crop_width, height, (width - crop_width) / 2, 0).

(** ** Python strings

    A [str] is a sequence of Unicode code points.  Literals of the source
    that are plain ASCII are written with [lit]; other characters are given
    by their code points. *)

Definition pystr : Type := list N.

Definition lit (s : string) : pystr :=
  map N_of_ascii (list_ascii_of_string s).

Definition pystr_eqb (a b : pystr) : bool :=
  if list_eq_dec N.eq_dec a b then true else false.

(** [len(s)] *)
Definition len (s : pystr) : Z := Z.of_nat (List.length s).

(** Truth value of a string: non-empty. *)
Definition nonempty (s : pystr) : bool :=
  match s with
  | [] => false
  | _ :: _ => true
  end.

Definition in_range (lo hi c : N) : bool := ((lo <=? c) && (c <=? hi))%N.

(** [str.isspace] on one character: the code points that [str.split] and
    [str.strip] treat as whitespace. *)
Definition isspace (c : N) : bool :=
  in_range 0x09 0x0D c || in_range 0x1C 0x20 c || (c =? 0x85)%N ||
  (c =? 0xA0)%N || (c =? 0x1680)%N || in_range 0x2000 0x200A c ||
  (c =? 0x2028)%N || (c =? 0x2029)%N || (c =? 0x202F)%N ||
  (c =? 0x205F)%N || (c =? 0x3000)%N.

(** [s.split()]: the maximal runs of non-whitespace characters. *)
Fixpoint split_ws_aux (cur : pystr) (s : pystr) : list pystr :=
  match s with
  | [] => if nonempty cur then [rev cur] else []
  | c :: rest =>
      if isspace c then
        (if nonempty cur then [rev cur] else []) ++ split_ws_aux [] rest
      else split_ws_aux (c :: cur) rest
  end.

Definition split_ws (s : pystr) : list pystr := split_ws_aux [] s.

Fixpoint lstrip (s : pystr) : pystr :=
  match s with
  | [] => []
  | c :: rest => if isspace c then lstrip rest else s
  end.

(** [s.strip()] *)
Definition strip (s : pystr) : pystr := rev (lstrip (rev (lstrip s))).

(** [sep.join(parts)] *)
Fixpoint join (sep : pystr) (parts : list pystr) : pystr :=
  match parts with
  | [] => []
  | [p] => p
  | p :: rest => p ++ sep ++ join sep rest
  end.

Definition money_bag_glyph : N := 0x1F4B0.

Definition space : pystr := [0x20%N].
Definition newline : pystr := [0x0A%N].
Definition ellipsis : pystr := lit "...".

(** ** Caption wrapping: [VideoProcessor._wrap_text_for_vertical_video] *)

(** The character class of [emoji_pattern]. *)
Definition emoji_pattern (c : N) : bool :=
  in_range 0x1F600 0x1F64F c || in_range 0x1F300 0x1F5FF c ||
  in_range 0x1F680 0x1F6FF c || in_range 0x1F1E0 0x1F1FF c ||
  in_range 0x2702 0x27B0 c || in_range 0x24C2 0x1F251 c.

(** [re.sub(emoji_pattern, '', s)] *)
Definition strip_emoji (s : pystr) : pystr :=
  filter (fun c => negb (emoji_pattern c)) s.

(** One iteration of the loop over [words]; the state is
    [(lines, current_line)]. *)
Definition wrap_step (max_chars_per_line : Z)
    (st : list pystr * pystr) (word : pystr) : list pystr * pystr :=
  let '(lines, current_line) := st in
  let word_text_only := strip_emoji word in
  let current_line_text_only := strip_emoji current_line in
  let potential_length :=
    if nonempty current_line
    then len current_line_text_only + 1 + len word_text_only
    else len word_text_only in
  if potential_length <=? max_chars_per_line then
    (lines, current_line ++ (if nonempty current_line then space else []) ++ word)
  else
    ((if nonempty current_line then lines ++ [current_line] else lines), word).

(** The list [lines] after the loop and after the last line is added. *)
Definition wrap_lines (text : pystr) (max_chars_per_line : Z) : list pystr :=
  let words := split_ws text in
  let '(lines, current_line) :=
    fold_left (wrap_step max_chars_per_line) words ([], []) in
  if nonempty current_line then lines ++ [current_line] else lines.

(** The [while] loop that pops words off the last line.  The words are
    held in reverse order, so that [pop()] removes the head; popping from
    the empty list raises. *)
Fixpoint pop_words (max_chars_per_line : Z) (rev_words : list pystr)
  : result (list pystr) :=
  if len (strip_emoji (join space (rev rev_words))) >? max_chars_per_line - 3
  then match rev_words with
       | [] => raise IndexError
       | _ :: rest => pop_words max_chars_per_line rest
       end
  else ret (rev rev_words).

(** The rewriting of [lines[-1]] once [lines] has been cut to two. *)
Definition trim_last_line (max_chars_per_line : Z) (last : pystr)
  : result pystr :=
  if len (strip_emoji last) >? max_chars_per_line - 3 then
    (words_in_last_line <- pop_words max_chars_per_line (rev (split_ws last)) ;;
     ret (join space words_in_last_line ++ ellipsis))%result
  else ret (last ++ ellipsis).

(** The final value of [lines]. *)
Definition final_lines (text : pystr) (max_chars_per_line : Z)
  : result (list pystr) :=
  let lines := wrap_lines text max_chars_per_line in
  if (2 <? Z.of_nat (List.length lines)) then
    match firstn 2 lines with
    | [first; last] =>
        (last' <- trim_last_line max_chars_per_line last ;;
         ret [first; last'])%result
    | short => ret short
    end
  else ret lines.

Definition _wrap_text_for_vertical_video (text : pystr)
    (max_chars_per_line : Z) : result pystr :=
  (lines <- final_lines text max_chars_per_line ;;
   ret (join newline lines))%result.

Definition default_max_chars : Z := 20.

(** Length of a string once the symbols of [emoji_pattern] are removed. *)
Definition text_len (s : pystr) : Z := len (strip_emoji s).

Definition no_space (w : pystr) : bool :=
  forallb (fun c => negb (isspace c)) w.

(** A word: non-empty and free of whitespace, as [split] returns them. *)
Definition is_word (w : pystr) : bool := nonempty w && no_space w.

(** The wrapping loop seen on lists of words: each line is kept as the
    list of the words joined in it. *)
Definition group_step (max_chars_per_line : Z)
    (st : list (list pystr) * list pystr) (word : pystr)
  : list (list pystr) * list pystr :=
  let '(groups, current) := st in
  let potential_length :=
    match current with
    | [] => text_len word
    | _ => text_len (join space current) + 1 + text_len word
    end in
  if potential_length <=? max_chars_per_line then (groups, current ++ [word])
  else (match current with
        | [] => groups
        | _ => groups ++ [current]
        end, [word]).

Definition close_groups (st : list (list pystr) * list pystr)
  : list (list pystr) :=
  match snd st with
  | [] => fst st
  | _ => fst st ++ [snd st]
  end.

Definition wrap_groups (words : list pystr) (max_chars_per_line : Z)
  : list (list pystr) :=
  close_groups (fold_left (group_step max_chars_per_line) words ([], [])).

(** What Scenario D wraps to. *)
Definition scenario_d_wrapped : pystr :=
  [0x1F525%N; money_bag_glyph] ++ lit " Save money every"
  ++ newline ++ lit "month with this...".

(** A caption whose glyph falls on the third wrapped line. *)
Definition trailing_glyph_text : pystr :=
  lit "Save money every month with this simple trick " ++ [money_bag_glyph].

(** Twenty plain characters around an ideographic space, which is both
    whitespace and in the range of [emoji_pattern]. *)
Definition ideographic_space_text : pystr :=
  lit "aaaaaaaaaa" ++ [0x3000%N] ++ lit "bbbbbbbbbb".

(** Two leading glyphs and one unbroken word of 45 plain characters. *)
Definition unbroken_text : pystr :=
  [0x1F525%N; money_bag_glyph]
  ++ lit "aaaaaaaaaaaaaaaaaaaaaaaaaaaaaaaaaaaaaaaaaaaaa".

(** A line either fits the budget or holds a single word. *)
Definition fits (max_chars_per_line : Z) (g : list pystr) : Prop :=
  text_len (join space g) <= max_chars_per_line \/ exists w, g = [w].

(** What the loop maintains, [seen] being the words consumed so far. *)
Definition group_inv (max_chars_per_line : Z) (seen : list pystr)
    (st : list (list pystr) * list pystr) : Prop :=
  List.concat (fst st) ++ snd st = seen /\
  Forall (fun g => g <> []) (fst st) /\
  Forall (fits max_chars_per_line) (fst st) /\
  (snd st = [] \/ fits max_chars_per_line (snd st)) /\
  (forall w, In w seen -> max_chars_per_line < text_len w ->
             In [w] (fst st) \/ snd st = [w]).

(** The caption of Scenario D: two leading glyphs and 45 plain
    characters. *)
Definition scenario_d_text : pystr :=
  [0x1F525%N; money_bag_glyph]
  ++ lit " Save money every month with this simple trick".

(** Number of lines of a wrapped caption, as the renderer sees it. *)
Definition line_count (s : pystr) : Z :=
  1 + Z.of_nat (count_occ N.eq_dec s 0x0A%N).

(** ** Parsed JSON values

    The values [json.loads] returns.  A float is any binary64 value:
    [json.loads] reads [NaN], [Infinity] and [-Infinity], and a decimal
    beyond the range (such as [1e400]) as an infinity.  An object is the
    list of its members, looked up by key. *)

#[warnings="-register-all"]
Inductive json : Type :=
| JNull
| JBool (b : bool)
| JInt (n : Z)
| JFloat (x : float)
| JStr (s : pystr)
| JList (items : list json)
| JDict (fields : list (pystr * json)).

Fixpoint dict_find (key : pystr) (fields : list (pystr * json)) : option json :=
  match fields with
  | [] => None
  | (k, v) :: rest => if pystr_eqb k key then Some v else dict_find key rest
  end.

(** [d.get(key, default)] *)
Definition dict_get (fields : list (pystr * json)) (key : pystr) (default : json)
  : json :=
  match dict_find key fields with
  | Some v => v
  | None => default
  end.

Fixpoint is_prefix (p s : pystr) : bool :=
  match p, s with
  | [], _ => true
  | _ :: _, [] => false
  | a :: p', b :: s' => (a =? b)%N && is_prefix p' s'
  end.

(** [needle in hay] for two strings *)
Fixpoint is_substring (needle hay : pystr) : bool :=
  is_prefix needle hay ||
  match hay with
  | [] => false
  | _ :: rest => is_substring needle rest
  end.

(** [isinstance(v, (int, float))]; [bool] is a subclass of [int]. *)
Definition is_number (v : json) : bool :=
  match v with
  | JInt _ | JFloat _ | JBool _ => true
  | _ => false
  end.

(** [v < 0] and [v <= 0] for a number: exact on an [int], false on NaN. *)
Definition number_lt_zero (v : json) : bool :=
  match v with
  | JInt n => n <? 0
  | JFloat x => flt x (Fin 0)
  | _ => false
  end.

Definition number_le_zero (v : json) : bool :=
  match v with
  | JInt n => n <=? 0
  | JFloat x => fle x (Fin 0)
  | JBool b => negb b
  | _ => false
  end.

(** [float(v)] for a number *)
Definition to_float (v : json) : result float :=
  match v with
  | JInt n => of_int n
  | JFloat x => ret x
  | JBool b => ret (Fin (if b then 1 else 0))
  | _ => raise TypeError
  end.

(** ** Overlay validation: [LLMAnalyzer._validate_overlay_data] *)

Record overlay : Type := mk_overlay {
  timestamp : float;
  text : pystr;
  duration : float
}.

(** The body of the loop; [None] stands for [continue]. *)
Definition validate_item (item : json) : result (option overlay) :=
  match item with
  | JDict fields =>
      let timestamp := dict_get fields (lit "timestamp") (JInt 0) in
      let text := dict_get fields (lit "text") (JStr []) in
      let duration := dict_get fields (lit "duration") (JFloat (Fin 3)) in
      if negb (is_number timestamp) || number_lt_zero timestamp
      then ret None
      else
        match text with
        | JStr text =>
            if len (strip text) =? 0 then ret None
            else
              let text :=
                if len text >? 100 then firstn 97 text ++ ellipsis else text in
              let duration :=
                if negb (is_number duration) || number_le_zero duration
                then JFloat (Fin 3) else duration in
              (t <- to_float timestamp ;;
               d <- to_float duration ;;
               ret (Some (mk_overlay t (strip text) d)))%result
        | _ => ret None
        end
  | _ => ret None
  end.

Fixpoint validate_items (items : list json) : result (list overlay) :=
  match items with
  | [] => ret []
  | item :: rest =>
      (r <- validate_item item ;;
       validated <- validate_items rest ;;
       ret (match r with
            | Some o => o :: validated
            | None => validated
            end))%result
  end.

(** Iterating over a value in a [for] loop. *)
Definition iterate (v : json) : result (list json) :=
  match v with
  | JList items => ret items
  | JDict fields => ret (map (fun kv => JStr (fst kv)) fields)
  | JStr s => ret (map (fun c => JStr [c]) s)
  | _ => raise TypeError
  end.

Definition is_str (s : pystr) (v : json) : bool :=
  match v with
  | JStr s' => pystr_eqb s' s
  | _ => false
  end.

(** The list the loop runs over: the test ['overlays' not in overlay_data]
    followed by [overlay_data.get('overlays', [])]. *)
Definition overlays_of (overlay_data : json) : result (list json) :=
  match overlay_data with
  | JDict fields =>
      match dict_find (lit "overlays") fields with
      | Some v => iterate v
      | None => ret []
      end
  | JList items =>
      if existsb (is_str (lit "overlays")) items then raise AttributeError
      else ret []
  | JStr s =>
      if is_substring (lit "overlays") s then raise AttributeError
      else ret []
  | _ => raise TypeError
  end.

(** [list.sort(key=lambda x: x['timestamp'])].

    The keys are compared with [<] only.  This is how CPython (3.11) sorts
    a list of fewer than 64 items: the run the list starts with is found (and
    reversed when it is strictly descending), then every item after the
    run is put in place by a binary search in the sorted part.  (From 64
    items on, runs of 32 to 64 items are sorted this way and then merged,
    which gives the same list whenever [<] orders the keys; with a NaN
    among the keys the merge is not modelled.) *)
Definition ts_lt (a b : overlay) : bool := flt (timestamp a) (timestamp b).

(** Items that continue a strictly descending run after [prev]. *)
Fixpoint run_descending (prev : overlay) (rest : list overlay) : nat :=
  match rest with
  | x :: rest' => if ts_lt x prev then S (run_descending x rest') else 0
  | [] => 0
  end.

(** Items that continue a non-descending run after [prev]. *)
Fixpoint run_ascending (prev : overlay) (rest : list overlay) : nat :=
  match rest with
  | x :: rest' => if ts_lt x prev then 0 else S (run_ascending x rest')
  | [] => 0
  end.

(** Length of the leading run, and whether it is descending. *)
Definition count_run (l : list overlay) : nat * bool :=
  match l with
  | a :: b :: rest =>
      if ts_lt b a then (2 + run_descending b rest, true)%nat
      else (2 + run_ascending b rest, false)%nat
  | _ => (List.length l, false)
  end.

(** The binary search of the insertion: the place of [pivot] between the
    indices [l] and [r] of [sorted]. *)
Fixpoint bisect (fuel : nat) (pivot : overlay) (sorted : list overlay)
    (l r : nat) : nat :=
  match fuel with
  | O => l
  | S fuel' =>
      if (l <? r)%nat then
        let p := (l + (r - l) / 2)%nat in
        if ts_lt pivot (nth p sorted pivot)
        then bisect fuel' pivot sorted l p
        else bisect fuel' pivot sorted (p + 1)%nat r
      else l
  end.

Definition binary_insert (sorted : list overlay) (pivot : overlay)
  : list overlay :=
  let n := List.length sorted in
  let i := bisect n pivot sorted 0 n in
  firstn i sorted ++ pivot :: skipn i sorted.

Definition sort_by_timestamp (l : list overlay) : list overlay :=
  let '(n, descending) := count_run l in
  let run := firstn n l in
  fold_left binary_insert (skipn n l) (if descending then rev run else run).

(** A strictly descending run: every item is less than the ones before
    it. *)
Definition descends (l : list overlay) : Prop :=
  StronglySorted (fun a b => ts_lt b a = true) l.

(** No item is less than the one before it. *)
Fixpoint no_descent (l : list overlay) : Prop :=
  match l with
  | a :: (b :: _) as rest => ts_lt b a = false /\ no_descent rest
  | _ => True
  end.

Definition _validate_overlay_data (overlay_data : json) : result (list overlay) :=
  (items <- overlays_of overlay_data ;;
   validated_overlays <- validate_items items ;;
   ret (sort_by_timestamp validated_overlays))%result.

(** Order of two overlays by timestamp. *)
Definition ts_le (a b : overlay) : Prop :=
  fle (timestamp a) (timestamp b) = true.

(** A timestamp that [<] can order. *)
Definition ordered_ts (o : overlay) : Prop := timestamp o <> NaN.

(** What the validation is meant to leave: a non-negative timestamp, a
    positive duration and a stripped, non-empty text of at most 100
    characters. *)
Definition valid_overlay (o : overlay) : Prop :=
  fle (Fin 0) (timestamp o) = true /\
  flt (Fin 0) (duration o) = true /\
  text o <> [] /\ strip (text o) = text o /\ len (text o) <= 100.

(** What the validation leaves in fact: the number tests let a NaN
    through. *)
Definition kept_overlay (o : overlay) : Prop :=
  (fle (Fin 0) (timestamp o) = true \/ timestamp o = NaN) /\
  (flt (Fin 0) (duration o) = true \/ duration o = NaN) /\
  text o <> [] /\ strip (text o) = text o /\ len (text o) <= 100.

(** A number that is not NaN. *)
Definition not_nan (v : json) : bool :=
  match v with
  | JFloat NaN => false
  | _ => true
  end.

(** An instruction whose timestamp is not NaN. *)
Definition ts_not_nan (item : json) : bool :=
  match item with
  | JDict fields => not_nan (dict_get fields (lit "timestamp") (JInt 0))
  | _ => true
  end.

(** An instruction whose timestamp and duration are not NaN. *)
Definition item_not_nan (item : json) : bool :=
  match item with
  | JDict fields =>
      not_nan (dict_get fields (lit "timestamp") (JInt 0))
      && not_nan (dict_get fields (lit "duration") (JFloat (Fin 3)))
  | _ => true
  end.

(** An [int] that [float()] converts without overflow. *)
Definition in_float_range (v : json) : bool :=
  match v with
  | JInt n => Z.abs n <=? 2 ^ 1023
  | _ => true
  end.

(** An instruction whose numeric fields convert without overflow. *)
Definition item_in_range (item : json) : bool :=
  match item with
  | JDict fields =>
      in_float_range (dict_get fields (lit "timestamp") (JInt 0))
      && in_float_range (dict_get fields (lit "duration") (JFloat (Fin 3)))
  | _ => true
  end.

(** An instruction whose timestamp and text pass the checks. *)
Definition item_usable (fields : list (pystr * json)) : bool :=
  let timestamp := dict_get fields (lit "timestamp") (JInt 0) in
  is_number timestamp && negb (number_lt_zero timestamp)
  && in_float_range timestamp
  && match dict_get fields (lit "text") (JStr []) with
     | JStr text => negb (len (strip text) =? 0)
     | _ => false
     end.

(** An instruction whose duration is missing, not a number or not
    positive. *)
Definition duration_unusable (fields : list (pystr * json)) : bool :=
  match dict_find (lit "duration") fields with
  | None => true
  | Some v => negb (is_number v) || number_le_zero v
  end.

(** A response whose instructions are out of order; the first one has a
    zero duration and the last entry is not an object. *)
Definition sample_item : list (pystr * json) :=
  [(lit "timestamp", JInt 7); (lit "text", JStr (lit " Pay yourself first "));
   (lit "duration", JInt 0)].

Definition sample_items : list json :=
  [JDict sample_item;
   JDict [(lit "timestamp", JFloat (Fin (1 # 2))); (lit "text", JStr (lit "Budget"));
          (lit "duration", JInt 2)];
   JDict [(lit "text", JStr (lit "Start"))];
   JInt 3].

Definition sample_data : list (pystr * json) :=
  [(lit "overlays", JList sample_items)].

(** A response whose only instruction has a negative timestamp. *)
Definition rejected_data : json :=
  JDict [(lit "overlays",
          JList [JDict [(lit "timestamp", JInt (-1));
                        (lit "text", JStr (lit "Too early"))]])].

(** A response whose second instruction has a NaN timestamp:
    [{"overlays": [{"timestamp": 2.0, "text": "Second"},
                   {"timestamp": NaN, "text": "Lost"},
                   {"timestamp": 1.0, "text": "First"}]}]. *)
Definition nan_timestamp_data : json :=
  JDict [(lit "overlays",
          JList [JDict [(lit "timestamp", JFloat (Fin 2));
                        (lit "text", JStr (lit "Second"))];
                 JDict [(lit "timestamp", JFloat NaN);
                        (lit "text", JStr (lit "Lost"))];
                 JDict [(lit "timestamp", JFloat (Fin 1));
                        (lit "text", JStr (lit "First"))]])].

(** A response whose only instruction has a NaN timestamp and a NaN
    duration:
    [{"overlays": [{"timestamp": NaN, "text": "Lost", "duration": NaN}]}]. *)
Definition nan_item_data : json :=
  JDict [(lit "overlays",
          JList [JDict [(lit "timestamp", JFloat NaN);
                        (lit "text", JStr (lit "Lost"));
                        (lit "duration", JFloat NaN)]])].

(** ** Response parsing and analysis: [_extract_json_from_response] and
    [analyze_transcript] *)

Definition money_bag : N := money_bag_glyph.

Definition overlay_object (t : Q) (s : pystr) (d : Q) : json :=
  JDict [(lit "timestamp", JFloat (Fin t)); (lit "text", JStr s);
         (lit "duration", JFloat (Fin d))].

(** The response substituted when no JSON can be extracted. *)
Definition default_response : json :=
  JDict [(lit "overlays",
          JList [overlay_object 5 (money_bag :: lit " Financial tip!") 3])].

(** The default response once validated. *)
Definition default_overlays : list overlay :=
  [mk_overlay (Fin 5) (money_bag :: lit " Financial tip!") (Fin 3)].

(** The overlay returned when the analysis raises. *)
Definition fallback_overlays : list overlay :=
  [mk_overlay (Fin 3) (money_bag :: lit " Watch for tips!") (Fin 3)].

Section Analyzer.

(** [json.loads]; [None] stands for [JSONDecodeError]. *)
Variable json_loads : pystr -> option json.

(** [re.findall(json_patterns[i], response, re.DOTALL)] *)
Variable re_findall : nat -> pystr -> list pystr.

Fixpoint first_loads (candidates : list pystr) : option json :=
  match candidates with
  | [] => None
  | c :: rest =>
      match json_loads c with
      | Some v => Some v
      | None => first_loads rest
      end
  end.

Definition _extract_json_from_response (response : pystr) : json :=
  match json_loads response with
  | Some v => v
  | None =>
      match first_loads (flat_map (fun i => re_findall i response)
                                  [0; 1; 2]%nat) with
      | Some v => v
      | None => default_response
      end
  end.

(** [llm] is the outcome of building the prompt and calling the model. *)
Definition analyze_transcript (llm : result pystr) : list overlay :=
  match (response <- llm ;;
         _validate_overlay_data (_extract_json_from_response response))%result
  with
  | inr validated_data => validated_data
  | inl _ => fallback_overlays
  end.

End Analyzer.

(** ** Formatting *)

(** [str(n)] and [f"{n}"] for an [int] *)
Definition str_of_Z (n : Z) : pystr := lit (NilZero.string_of_int (Z.to_int n)).

(** [f"{x:.1f}"]: one decimal, the exact value rounded half to even. *)
Definition format_1f (x : float) : pystr :=
  match x with
  | Fin q =>
      let tenths := rne (Qabs q * 10) in
      (if Qle_bool 0 q then [] else lit "-")
        ++ str_of_Z (tenths / 10) ++ lit "." ++ str_of_Z (tenths mod 10)
  | PInf => lit "inf"
  | NInf => lit "-inf"
  | NaN => lit "nan"
  end.

(** [s.replace(old, new)] for a one-character [old] *)
Definition replace_char (old : N) (new : pystr) (s : pystr) : pystr :=
  flat_map (fun c => if (c =? old)%N then new else [c]) s.

Definition backslash : N := 0x5C.
Definition colon : N := 0x3A.
Definition quote : N := 0x27.
Definition dquote : N := 0x22.

(** ** Overlay timeline: [VideoProcessor._create_overlay_filter] *)

Record OverlayConfig : Type := {
  font_size : Z;
  font_color : pystr;
  outline_color : pystr;
  outline_width : Z;
  fade_duration : float
}.

(** The activation window of one instruction: [None] when the loop skips
    it, otherwise [(start_time, end_time)]. *)
Definition overlay_window (timestamp duration video_duration : float)
  : option (float * float) :=
  if fge timestamp video_duration then None
  else
    let duration :=
      if fgt (fadd timestamp duration) video_duration
      then fsub video_duration timestamp
      else duration in
    let start_time := if fgt timestamp (Fin 0) then timestamp else Fin 0 in
    let end_time := fadd start_time duration in
    Some (start_time, end_time).


(** The [drawtext] stage of one instruction that is not skipped. *)
Definition drawtext (cfg : OverlayConfig) (text : pystr)
    (start_time end_time : float) : result pystr :=
  (wrapped_text <- _wrap_text_for_vertical_video text default_max_chars ;;
   let is_multiline := existsb (N.eqb 0x0A) wrapped_text in
   actual_font_size <-
     (if is_multiline
      then (f <- of_int (font_size cfg) ;; to_int (fmul f (of_Q (85 # 100))))
      else ret (font_size cfg)) ;;
   let escaped_text :=
     replace_char 0x0A [backslash; 0x6E%N]
       (replace_char dquote [backslash; dquote]
          (replace_char quote [backslash; quote]
             (replace_char colon [backslash; colon] wrapped_text))) in
   let filter_str :=
     lit "drawtext=text='" ++ escaped_text ++ lit "'"
     ++ lit ":fontsize=" ++ str_of_Z actual_font_size
     ++ lit ":fontcolor=" ++ font_color cfg
     ++ lit ":borderw=" ++ str_of_Z (outline_width cfg)
     ++ lit ":bordercolor=" ++ outline_color cfg
     ++ lit ":x=(w-text_w)/2"
     ++ (if is_multiline then lit ":y=(h-text_h)*0.65"
         else lit ":y=(h-text_h)*0.7")
     ++ lit ":box=1:boxcolor=black@0.4:boxborderw=8"
     ++ lit ":enable='between(t," ++ format_1f start_time ++ lit ","
     ++ format_1f end_time ++ lit ")'" in
   ret (if fgt (fade_duration cfg) (Fin 0) then
          let fade_in_end := fadd start_time (fade_duration cfg) in
          let fade_out_start := fsub end_time (fade_duration cfg) in
          filter_str
          ++ lit ":alpha='if(lt(t," ++ format_1f fade_in_end ++ lit "),(t-"
          ++ format_1f start_time ++ lit ")/" ++ format_1f (fade_duration cfg)
          ++ lit ",1)*if(gt(t," ++ format_1f fade_out_start ++ lit "),("
          ++ format_1f end_time ++ lit "-t)/" ++ format_1f (fade_duration cfg)
          ++ lit ",1)'"
        else filter_str))%result.

(** The list [filters] built by the loop. *)
Fixpoint overlay_filters (cfg : OverlayConfig) (overlays : list overlay)
    (video_duration : float) : result (list pystr) :=
  match overlays with
  | [] => ret []
  | o :: rest =>
      match overlay_window (timestamp o) (duration o) video_duration with
      | None => overlay_filters cfg rest video_duration
      | Some (start_time, end_time) =>
          (f <- drawtext cfg (text o) start_time end_time ;;
           fs <- overlay_filters cfg rest video_duration ;;
           ret (f :: fs))%result
      end
  end.

Definition _create_overlay_filter (cfg : OverlayConfig)
    (overlays : list overlay) (video_duration : float) : result pystr :=
  match overlays with
  | [] => ret []
  | _ =>
      (filters <- overlay_filters cfg overlays video_duration ;;
       ret (join (lit ",") filters))%result
  end.

(** The compiled timeline: the activation windows of the instructions that
    the loop keeps. *)
Definition compiled_windows (overlays : list overlay) (video_duration : float)
  : list (float * float) :=
  flat_map (fun o =>
              match overlay_window (timestamp o) (duration o) video_duration with
              | Some w => [w]
              | None => []
              end) overlays.

(** ** Logo stage: [VideoProcessor._create_logo_filter] *)

Record LogoConfig : Type := {
  logo_enabled : bool;
  logo_path : pystr;
  logo_position : pystr;
  logo_size : pystr;
  logo_margin : Z
}.

Record VideoConfig : Type := {
  output_resolution : pystr;
  video_codec : pystr;
  audio_codec : pystr;
  bitrate : pystr;
  crf : Z;
  output_fps : Z
}.

Record OutroConfig : Type := {
  outro_enabled : bool;
  outro_path : pystr
}.

(** The settings that the processor reads, with their defaults applied. *)
Record Config : Type := {
  overlays_cfg : OverlayConfig;
  logo_cfg : LogoConfig;
  video_cfg : VideoConfig;
  outro_cfg : OutroConfig;
  temp_dir : pystr;
  output_dir : pystr;
  should_delete_temp_files : bool
}.

(** [s.rstrip(c)] for a one-character argument *)
Definition rstrip_char (c : N) (s : pystr) : pystr :=
  let fix drop (r : pystr) : pystr :=
    match r with
    | [] => []
    | x :: rest => if (x =? c)%N then drop rest else r
    end in
  rev (drop (rev s)).

(** [s.split(sep)] for a one-character separator *)
Fixpoint split_on_aux (sep : N) (cur : pystr) (s : pystr) : list pystr :=
  match s with
  | [] => [rev cur]
  | c :: rest =>
      if (c =? sep)%N then rev cur :: split_on_aux sep [] rest
      else split_on_aux sep (c :: cur) rest
  end.

Definition split_on (sep : N) (s : pystr) : list pystr := split_on_aux sep [] s.

(** [l[i]] *)
Definition index {A} (l : list A) (i : nat) : result A :=
  match nth_error l i with
  | Some x => ret x
  | None => raise IndexError
  end.

(** [s.replace(old, new)] *)
Fixpoint replace_fuel (fuel : nat) (old new s : pystr) : pystr :=
  match fuel with
  | O => s
  | S fuel' =>
      match s with
      | [] => []
      | c :: rest =>
          if nonempty old && is_prefix old s
          then new ++ replace_fuel fuel' old new (skipn (List.length old) s)
          else c :: replace_fuel fuel' old new rest
      end
  end.

Definition replace (old new s : pystr) : pystr :=
  replace_fuel (List.length s) old new s.

(** ** The environment of the processor *)

(** Lines written by [print]; a message is recorded by its text, without
    the pictograph that starts it. *)
Inductive log_line : Type :=
| Print (message : pystr)
| PrintDetail (message : pystr) (detail : pystr)
| PrintError (message : pystr) (e : exn).

Record video_info : Type := {
  vi_width : Z;
  vi_height : Z;
  vi_duration : float;
  vi_fps : float
}.

Section Effects.

(** State of the outside world: the file system and the clock. *)
Variable world : Type.

Definition state : Type := (world * list log_line)%type.

(** An effectful computation: it may raise, and it leaves a state behind
    either way. *)
Definition io (A : Type) : Type := state -> result A * state.

Definition io_ret {A} (a : A) : io A := fun s => (inr a, s).
Definition io_raise {A} (e : exn) : io A := fun s => (inl e, s).
Definition io_bind {A B} (m : io A) (k : A -> io B) : io B :=
  fun s =>
    match m s with
    | (inl e, s') => (inl e, s')
    | (inr a, s') => k a s'
    end.
Definition io_lift {A} (r : result A) : io A := fun s => (r, s).

(** [try: body / except handled: handler]; other exceptions escape. *)
Definition try_except {A} (body : io A) (handled : exn -> bool)
    (handler : exn -> io A) : io A :=
  fun s =>
    match body s with
    | (inl e, s') => if handled e then handler e s' else (inl e, s')
    | ok => ok
    end.

Definition print (l : log_line) : io unit :=
  fun s => (inr tt, (fst s, snd s ++ [l])).

(** What the processor calls outside itself, and its settings. *)
Record Environment : Type := {
  (** [os.path.exists]: a read of the file system, which never raises *)
  file_exists : pystr -> world -> bool;
  (** [os.remove] *)
  os_remove : pystr -> io unit;
  (** [subprocess.run(cmd, capture_output=True, text=True, check=True)] *)
  subprocess_run : list pystr -> io unit;
  (** [_get_video_info]: runs ffprobe *)
  _get_video_info : pystr -> io video_info;
  (** [datetime.now().strftime("%Y%m%d_%H%M%S")] *)
  now_stamp : io pystr;
  (** [_resolve_asset_path], [Path(p).stem], [Path(p).parent / name] and
      [os.path.join] *)
  _resolve_asset_path : pystr -> pystr;
  stem : pystr -> pystr;
  sibling : pystr -> pystr -> pystr;
  path_join : pystr -> pystr -> pystr;
  (** [float(s)] and [int(s)] for a string, [str(x)] for a float *)
  float_of_str : pystr -> result float;
  int_of_str : pystr -> result Z;
  str_of_float : float -> pystr;
  config : Config
}.

End Effects.

Arguments io_ret {world A} a.
Arguments io_raise {world A} e.
Arguments io_bind {world A B} m k.
Arguments io_lift {world A} r.
Arguments try_except {world A} body handled handler.
Arguments print {world} l.
Arguments file_exists {world} e.
Arguments os_remove {world} e.
Arguments subprocess_run {world} e.
Arguments _get_video_info {world} e.
Arguments now_stamp {world} e.
Arguments _resolve_asset_path {world} e.
Arguments stem {world} e.
Arguments sibling {world} e.
Arguments path_join {world} e.
Arguments float_of_str {world} e.
Arguments int_of_str {world} e.
Arguments str_of_float {world} e.
Arguments config {world} e.

Declare Scope io_scope.
Delimit Scope io_scope with io.
Notation "x <- m ;; k" := (io_bind m (fun x => k))
  (at level 61, m at next level, right associativity) : io_scope.
Notation "m ;; k" := (io_bind m (fun _ => k))
  (at level 61, right associativity) : io_scope.

Section Processor.

Context {world : Type} (env : Environment world).

Definition path_exists (p : pystr) : io world bool :=
  fun s => (inr (file_exists env p (fst s)), s).

Definition _create_logo_filter (video_width video_height : Z) : io world pystr :=
  (if negb (logo_enabled (logo_cfg (config env))) then io_ret []
   else
     let logo_path := _resolve_asset_path env (logo_path (logo_cfg (config env))) in
     found <- path_exists logo_path ;;
     if negb found then
       print (PrintDetail (lit "Logo file not found at: ") logo_path) ;;
       print (Print (lit "   Please check the logo path in config.json")) ;;
       io_ret []
     else
       let position := logo_position (logo_cfg (config env)) in
       let margin := logo_margin (logo_cfg (config env)) in
       io_lift
         (size_percent <-
            float_of_str env (rstrip_char 0x25 (logo_size (logo_cfg (config env)))) ;;
          m <- of_int (Z.min video_width video_height) ;;
          q <- fdiv (fmul m size_percent) (Fin 100) ;;
          logo_size <- to_int q ;;
          let pair (x y : Z) := str_of_Z x ++ lit ":" ++ str_of_Z y in
          let top_right := pair (video_width - logo_size - margin) margin in
          let pos :=
            if pystr_eqb position (lit "top-left") then pair margin margin
            else if pystr_eqb position (lit "top-right") then top_right
            else if pystr_eqb position (lit "bottom-left")
              then pair margin (video_height - logo_size - margin)
            else if pystr_eqb position (lit "bottom-right")
              then pair (video_width - logo_size - margin)
                        (video_height - logo_size - margin)
            else if pystr_eqb position (lit "center")
              then pair ((video_width - logo_size) / 2)
                        ((video_height - logo_size) / 2)
            else top_right in
          ret (lit "[0:v][1:v]overlay=" ++ pos))%result)%io.

(** *** Filter-graph assembly and render: [VideoProcessor.process_video] *)

(** The list [filters] and the label [video_output], from the crop stage
    to the text overlays. *)
Definition filter_plan (crop : Z * Z * Z * Z) (logo_filter : pystr)
    (overlay_filter : result pystr) : result (list pystr * pystr) :=
  let '(crop_w, crop_h, crop_x, crop_y) := crop in
  let crop_filter :=
    lit "[0:v]crop=" ++ str_of_Z crop_w ++ lit ":" ++ str_of_Z crop_h
    ++ lit ":" ++ str_of_Z crop_x ++ lit ":" ++ str_of_Z crop_y in
  let resolution := split_on 0x78 (output_resolution (video_cfg (config env))) in
  (target_width <- index resolution 0 ;;
   target_height <- index resolution 1 ;;
   tw <- int_of_str env target_width ;;
   differs <-
     (if negb (crop_w =? tw) then ret true
      else (th <- int_of_str env target_height ;; ret (negb (crop_h =? th)))) ;;
   let scale_filter :=
     if differs : bool
     then lit ",scale=" ++ target_width ++ lit ":" ++ target_height
     else [] in
   let base_filter := crop_filter ++ scale_filter in
   let '(filters, video_output) :=
     if nonempty logo_filter then
       ([base_filter ++ lit "[cropped]";
         replace (lit "[0:v]") (lit "[cropped]") logo_filter
         ++ lit "[with_logo]"],
        lit "[with_logo]")
     else ([base_filter ++ lit "[processed]"], lit "[processed]") in
   overlay_filter <- overlay_filter ;;
   ret (if nonempty overlay_filter then
          (filters ++ [video_output ++ overlay_filter ++ lit "[final]"],
           lit "[final]")
        else (filters, video_output)))%result.

(** The arguments appended for the filter graph, or for a plain copy when
    [filters] is empty. *)
Definition filter_arguments (filters : list pystr) (video_output : pystr)
  : list pystr :=
  match filters with
  | _ :: _ =>
      [lit "-filter_complex"; join (lit ";") filters;
       lit "-map"; video_output; lit "-map"; lit "0:a"]
  | [] => [lit "-c:v"; lit "copy"; lit "-c:a"; lit "copy"]
  end.

Definition output_parameters (output_path : pystr) : list pystr :=
  [lit "-c:v"; video_codec (video_cfg (config env));
   lit "-c:a"; audio_codec (video_cfg (config env));
   lit "-b:v"; bitrate (video_cfg (config env));
   lit "-crf"; str_of_Z (crf (video_cfg (config env)));
   lit "-r"; str_of_Z (output_fps (video_cfg (config env)));
   lit "-movflags"; lit "+faststart";
   output_path].

(** The ffmpeg invocation [cmd], together with [filters] and
    [logo_filter]. *)
Definition render_plan (video_path : pystr) (info : video_info)
    (crop : Z * Z * Z * Z) (output_path : pystr) (overlays : list overlay)
  : io world (list pystr * list pystr * pystr) :=
  (let '(crop_w, crop_h, _, _) := crop in
   let cmd := [lit "ffmpeg"; lit "-y"] ++ [lit "-i"; video_path] in
   cl <-
     (if logo_enabled (logo_cfg (config env)) then
        let logo_path := _resolve_asset_path env (logo_path (logo_cfg (config env))) in
        found <- path_exists logo_path ;;
        if found : bool then
          logo_filter <- _create_logo_filter crop_w crop_h ;;
          io_ret (cmd ++ [lit "-i"; logo_path], logo_filter)
        else io_ret (cmd, [])
      else io_ret (cmd, [])) ;;
   let '(cmd, logo_filter) := cl in
   plan <-
     io_lift
       (filter_plan crop logo_filter
          (_create_overlay_filter (overlays_cfg (config env)) overlays
             (vi_duration info))) ;;
   let '(filters, video_output) := plan in
   io_ret (cmd ++ filter_arguments filters video_output
               ++ output_parameters output_path,
           filters, logo_filter))%io.

(** The ffmpeg invocation [cmd], together with [filters]. *)
Definition render_command (video_path : pystr) (info : video_info)
    (crop : Z * Z * Z * Z) (output_path : pystr) (overlays : list overlay)
  : io world (list pystr * list pystr) :=
  (plan <- render_plan video_path info crop output_path overlays ;;
   io_ret (fst plan))%io.

(** *** Outro stitching: [VideoProcessor._add_outro] *)

Definition outro_command (outro_path : pystr) (main_video_info outro_info
    : video_info) (temp_outro : pystr) : list pystr :=
  [lit "ffmpeg"; lit "-y";
   lit "-i"; outro_path;
   lit "-f"; lit "lavfi";
   lit "-i"; lit "anullsrc=channel_layout=stereo:sample_rate=48000";
   lit "-vf"; join (lit ",") [lit "format=yuv420p"; lit "setsar=1:1"];
   lit "-r"; str_of_float env (vi_fps main_video_info);
   lit "-c:v"; lit "libx264";
   lit "-c:a"; lit "aac";
   lit "-ar"; lit "48000";
   lit "-ac"; lit "2";
   lit "-b:a"; lit "128k";
   lit "-pix_fmt"; lit "yuv420p";
   lit "-profile:v"; lit "high";
   lit "-level"; lit "4.0";
   lit "-map"; lit "0:v:0";
   lit "-map"; lit "1:a:0";
   lit "-shortest";
   lit "-t"; str_of_float env (vi_duration outro_info);
   temp_outro].

Definition concat_command (video_path temp_outro final_path : pystr)
  : list pystr :=
  [lit "ffmpeg"; lit "-y";
   lit "-i"; video_path;
   lit "-i"; temp_outro;
   lit "-filter_complex";
   lit "[0:v][0:a][1:v][1:a]concat=n=2:v=1:a=1[outv][outa]";
   lit "-map"; lit "[outv]";
   lit "-map"; lit "[outa]";
   lit "-c:v"; lit "libx264";
   lit "-c:a"; lit "aac";
   lit "-b:v"; bitrate (video_cfg (config env));
   lit "-crf"; str_of_Z (crf (video_cfg (config env)));
   lit "-movflags"; lit "+faststart";
   final_path].

(** The body of the [try] block. *)
Definition add_outro_body (video_path outro_path : pystr) : io world pystr :=
  (print (Print (lit "Adding outro...")) ;;
   let base_name := stem env video_path in
   let final_path := sibling env video_path (base_name ++ lit "_with_outro.mp4") in
   main_video_info <- _get_video_info env video_path ;;
   let temp_outro :=
     path_join env (temp_dir (config env))
       (lit "temp_outro_" ++ base_name ++ lit ".mp4") in
   outro_info <- _get_video_info env outro_path ;;
   print (Print (lit "Converting outro video format...")) ;;
   subprocess_run env
     (outro_command outro_path main_video_info outro_info temp_outro) ;;
   print (Print (lit "Concatenating videos...")) ;;
   subprocess_run env (concat_command video_path temp_outro final_path) ;;
   temp_left <- path_exists temp_outro ;;
   (if temp_left : bool then os_remove env temp_outro else io_ret tt) ;;
   (if should_delete_temp_files (config env) then os_remove env video_path
    else io_ret tt) ;;
   print (Print (lit "Outro added successfully")) ;;
   io_ret final_path)%io.

Definition outro_missing_warning (outro_path : pystr) : log_line :=
  PrintDetail (lit "Outro video not found at: ") outro_path.

Definition outro_error (e : exn) : log_line :=
  match e with
  | CalledProcessError => PrintError (lit "FFmpeg error adding outro: ") e
  | _ => PrintError (lit "Error adding outro: ") e
  end.

Definition _add_outro (video_path : pystr) : io world pystr :=
  (let outro_path := _resolve_asset_path env (outro_path (outro_cfg (config env))) in
   found <- path_exists outro_path ;;
   if negb found then
     print (outro_missing_warning outro_path) ;;
     print (Print (lit "   Please check the outro path in config.json")) ;;
     io_ret video_path
   else
     try_except (add_outro_body video_path outro_path)
       (fun _ => true)
       (fun e => print (outro_error e) ;; io_ret video_path))%io.

Definition process_error (e : exn) : log_line :=
  match e with
  | CalledProcessError => PrintError (lit "FFmpeg error: ") e
  | _ => PrintError (lit "Video processing error: ") e
  end.

Definition process_video (video_path : pystr) (overlays : list overlay)
  : io world pystr :=
  try_except
    (print (PrintDetail (lit "Starting video processing for: ") video_path) ;;
     info <- _get_video_info env video_path ;;
     print (PrintDetail (lit "Video: ")
              (str_of_Z (vi_width info) ++ lit "x"
               ++ str_of_Z (vi_height info) ++ lit ", "
               ++ format_1f (vi_duration info) ++ lit "s")) ;;
     crop <- io_lift
               (_calculate_crop_params (vi_width info) (vi_height info)) ;;
     let video_name := stem env video_path in
     stamp <- now_stamp env ;;
     let output_filename :=
       video_name ++ lit "_processed_" ++ stamp ++ lit ".mp4" in
     let output_path := path_join env (output_dir (config env)) output_filename in
     plan <- render_plan video_path info crop output_path overlays ;;
     let '(cmd, _, logo_filter) := plan in
     print (Print (lit "Processing video with ffmpeg...")) ;;
     print (PrintDetail (lit "   Cropping to ")
              (str_of_Z (fst (fst (fst crop))) ++ lit "x"
               ++ str_of_Z (snd (fst (fst crop))))) ;;
     print (PrintDetail (lit "   Adding text overlays: ")
              (str_of_Z (Z.of_nat (List.length overlays)))) ;;
     (if nonempty logo_filter then print (Print (lit "   Adding logo overlay"))
      else io_ret tt) ;;
     subprocess_run env cmd ;;
     print (Print (lit "Video processing completed")) ;;
     print (PrintDetail (lit "Output saved to: ") output_filename) ;;
     if outro_enabled (outro_cfg (config env)) then _add_outro output_path
     else io_ret output_path)%io
    (fun _ => true)
    (fun e => print (process_error e) ;; io_raise e)%io.

End Processor.

(** ** A sample environment

    The default settings, with the logo disabled, over a world without
    state.  [asset_present] says whether asset files exist and [ffmpeg_ok]
    whether the external tools succeed. *)

Definition sample_config : Config := {|
  overlays_cfg := {| font_size := 48; font_color := lit "white";
                     outline_color := lit "black"; outline_width := 2;
                     fade_duration := Fin (1 # 2) |};
  logo_cfg := {| logo_enabled := false; logo_path := lit "assets/logo.png";
                 logo_position := lit "top-right"; logo_size := lit "15";
                 logo_margin := 20 |};
  video_cfg := {| output_resolution := lit "1080x1920";
                  video_codec := lit "libx264"; audio_codec := lit "aac";
                  bitrate := lit "2M"; crf := 23; output_fps := 30 |};
  outro_cfg := {| outro_enabled := true; outro_path := lit "assets/outro.mp4" |};
  temp_dir := lit "temp";
  output_dir := lit "output_clips";
  should_delete_temp_files := true
|}.

(** [int(s)] for a string of decimal digits *)
Definition parse_decimal (s : pystr) : result Z :=
  match s with
  | [] => raise ValueError
  | _ =>
      fold_left
        (fun acc c =>
           (n <- acc ;;
            if in_range 0x30 0x39 c then ret (10 * n + (Z.of_N c - 48))
            else raise ValueError)%result)
        s (ret 0)
  end.

Definition sample_info : video_info :=
  {| vi_width := 1920; vi_height := 1080; vi_duration := Fin 60;
     vi_fps := Fin 30 |}.

Definition sample_env (asset_present ffmpeg_ok : bool) : Environment unit := {|
  file_exists := fun _ _ => asset_present;
  os_remove := fun _ => io_ret tt;
  subprocess_run :=
    fun _ => if ffmpeg_ok then io_ret tt else io_raise CalledProcessError;
  _get_video_info := fun _ => io_ret sample_info;
  now_stamp := io_ret (lit "20240101_120000");
  _resolve_asset_path := fun p => p;
  stem := fun p => lit "clip";
  sibling := fun _ name => lit "output_clips/" ++ name;
  path_join := fun d name => d ++ lit "/" ++ name;
  float_of_str := fun s => (n <- parse_decimal s ;; of_int n)%result;
  int_of_str := parse_decimal;
  str_of_float := format_1f;
  config := sample_config
|}.

(** * Further code *)

(** ** Escaping of the caption for the renderer

    The expression bound to [escaped_text] in [_create_overlay_filter]. *)

Definition escape_text (wrapped_text : pystr) : pystr :=
  replace_char 0x0A [backslash; 0x6E%N]
    (replace_char dquote [backslash; dquote]
       (replace_char quote [backslash; quote]
          (replace_char colon [backslash; colon] wrapped_text))).

(** Every occurrence of [c] in [s] directly follows a backslash;
    [after_backslash] tells whether the character before [s] is one. *)
Fixpoint guarded (c : N) (after_backslash : bool) (s : pystr) : bool :=
  match s with
  | [] => true
  | x :: rest =>
      (if (x =? c)%N then after_backslash else true)
      && guarded c (x =? backslash)%N rest
  end.

(** ** The validated overlays as a dictionary

    The dictionary that [_validate_overlay_data] returns for a validated
    list, as a value that it accepts again. *)



(** The overlays whose timestamp equals [key]. *)
Definition at_timestamp (key : float) (o : overlay) : bool :=
  fle key (timestamp o) && fle (timestamp o) key.

(** ** Caption generation: [LLMAnalyzer.generate_caption] *)

Definition starts_with (c : N) (s : pystr) : bool :=
  match s with
  | x :: _ => (x =? c)%N
  | [] => false
  end.

Definition ends_with (c : N) (s : pystr) : bool := starts_with c (rev s).

Definition asterisk : N := 0x2A.

Section Caption.

Variable json_loads : pystr -> option json.

(** The literal that the [except] clause returns. *)
Variable fallback_caption : pystr.

Definition generate_caption (llm : result pystr) : pystr :=
  match
    (response <- llm ;;
     let caption := strip response in
     caption <-
       (if starts_with 0x7B caption && ends_with 0x7D caption then
          match json_loads caption with
          | Some (JDict fields) =>
              match dict_get fields (lit "caption") (JStr caption) with
              | JStr s => ret s
              | _ => raise AttributeError
              end
          | Some _ => raise AttributeError
          | None => ret caption
          end
        else ret caption) ;;
     let caption :=
       replace_char asterisk [] (replace (lit "**") [] caption) in
     ret (if len caption >? 2200 then firstn 2197 caption ++ ellipsis
          else caption))%result
  with
  | inr caption => caption
  | inl _ => fallback_caption
  end.

End Caption.

(** ** Configuration access: [ConfigManager.get] and [ConfigManager.update]

    [self.config] is the loaded JSON document. *)

(** [d[key] = v] on a dictionary: the member is replaced in place, or
    added at the end. *)
Fixpoint dict_set (key : pystr) (v : json) (fields : list (pystr * json))
  : list (pystr * json) :=
  match fields with
  | [] => [(key, v)]
  | (k, x) :: rest =>
      if pystr_eqb k key then (k, v) :: rest
      else (k, x) :: dict_set key v rest
  end.

(** The body of the [try] block of [get]. *)
Definition config_get_body (cfg : json) (section : pystr)
    (key : option pystr) (default : json) : result json :=
  match cfg with
  | JDict sections =>
      match dict_find section sections with
      | None => ret default
      | Some value =>
          match key with
          | None => ret value
          | Some k =>
              match value with
              | JDict members => ret (dict_get members k default)
              | _ => raise AttributeError
              end
          end
      end
  | JList items =>
      if existsb (is_str section) items then raise TypeError else ret default
  | JStr s => if is_substring section s then raise TypeError else ret default
  | _ => raise TypeError
  end.

Definition config_get (cfg : json) (section : pystr) (key : option pystr)
    (default : json) : json :=
  match config_get_body cfg section key default with
  | inr value => value
  | inl _ => default
  end.

(** [update]: the configuration after the call, or the exception. *)
Definition config_update (cfg : json) (section key : pystr) (value : json)
  : result json :=
  match cfg with
  | JDict sections =>
      let sections :=
        match dict_find section sections with
        | None => dict_set section (JDict []) sections
        | Some _ => sections
        end in
      match dict_find section sections with
      | Some (JDict members) =>
          ret (JDict (dict_set section (JDict (dict_set key value members))
                        sections))
      | _ => raise TypeError
      end
  | _ => raise TypeError
  end.

(** ** The filter graph as a chain of labelled stages *)

Definition is_suffix (p s : pystr) : bool := is_prefix (rev p) (rev s).

(** A stream label: [[name]]. *)
Definition is_label (l : pystr) : bool :=
  starts_with 0x5B l && ends_with 0x5D l && (3 <=? len l).

(** Stage [b] reads the stream that stage [a] writes. *)
Definition feeds (a b : pystr) : Prop :=
  exists l, is_label l = true /\ is_suffix l a = true /\ is_prefix l b = true.

Fixpoint chained (stages : list pystr) : Prop :=
  match stages with
  | a :: (b :: _) as rest => feeds a b /\ chained rest
  | _ => True
  end.

(** ** A recording environment

    The world is the list of what the processor has done outside itself so
    far: the files it probed, the commands it ran and the files it removed.
    Whether a file exists, what a probe reports, how a command ends (it
    returns, or raises [CalledProcessError] on a non-zero status, or
    another exception when it cannot be started) and whether a file can be
    removed are arbitrary.  A probe that fails prints its error and raises
    it again, as [_get_video_info] does; a removal that fails raises
    [OSError]. *)

Inductive event : Type :=
| Probed (path : pystr)
| Ran (cmd : list pystr)
| Removed (path : pystr).

Section Recording.

(** path handling, number parsing and settings *)
Variable base : Environment unit.
Variable present : pystr -> list event -> bool.
Variable probe : pystr -> list event -> result video_info.
Variable outcome : list pystr -> list event -> result unit.
Variable removable : pystr -> list event -> bool.
Variable clock : list event -> pystr.

Definition record_event (ev : event) (s : state (list event))
  : state (list event) :=
  (fst s ++ [ev], snd s).

Definition recording : Environment (list event) := {|
  file_exists := present;
  os_remove := fun p s =>
    if removable p (fst s) then (inr tt, record_event (Removed p) s)
    else (inl OSError, s);
  subprocess_run := fun cmd s =>
    (outcome cmd (fst s), record_event (Ran cmd) s);
  _get_video_info := fun p s =>
    match probe p (fst s) with
    | inr info => (inr info, record_event (Probed p) s)
    | inl e =>
        (inl e,
         (fst s ++ [Probed p],
          snd s ++ [PrintError (lit "Error getting video info: ") e]))
    end;
  now_stamp := fun s => (inr (clock (fst s)), s);
  _resolve_asset_path := _resolve_asset_path base;
  stem := stem base;
  sibling := sibling base;
  path_join := path_join base;
  float_of_str := float_of_str base;
  int_of_str := int_of_str base;
  str_of_float := str_of_float base;
  config := config base
|}.

End Recording.

(** The commands run among some events. *)
Definition commands (evs : list event) : list (list pystr) :=
  flat_map (fun ev => match ev with Ran cmd => [cmd] | _ => [] end) evs.

(** * Facts about the binary64 model *)

Module Binary64Facts.

Local Open Scope Q_scope.

Lemma pow2_pos (k : Z) : 0 < 2 ^ k.
Proof. apply Qpower_0_lt. reflexivity. Qed.

Lemma pow2_add (a b : Z) : 2 ^ (a + b) == 2 ^ a * 2 ^ b.
Proof. apply Qpower_plus. discriminate. Qed.

Lemma pow2_le (a b : Z) : (a <= b)%Z -> 2 ^ a <= 2 ^ b.
Proof. intros H. apply Qpower_le_compat_l; [exact H | discriminate]. Qed.

Lemma pow2_lt (a b : Z) : (a < b)%Z -> 2 ^ a < 2 ^ b.
Proof. intros H. apply Qpower_lt_compat_l; [exact H | reflexivity]. Qed.

Lemma pow2_lt_inv (a b : Z) : 2 ^ a < 2 ^ b -> (a < b)%Z.
Proof. intros H. apply (Qpower_lt_compat_l_inv 2); [exact H | reflexivity]. Qed.

Lemma pow2_Z (k : Z) : (0 <= k)%Z -> 2 ^ k == inject_Z (2 ^ k).
Proof. intros H. symmetry. apply (Zpower_Qpower 2 k H). Qed.

Lemma pow2_split (a b : Z) : 2 ^ a == 2 ^ (a - b) * 2 ^ b.
Proof. rewrite <- pow2_add. replace (a - b + b)%Z with a by ring. reflexivity. Qed.

(** ** The binary logarithm *)

Lemma ilog2_spec (q : Q) :
  0 < q -> 2 ^ ilog2 q <= q /\ q < 2 ^ (ilog2 q + 1).
Proof.
  intros Hq. unfold ilog2.
  destruct q as [n d]. cbn [Qnum Qden].
  assert (Hn : (0 < n)%Z).
  { unfold Qlt in Hq. cbn in Hq. lia. }
  set (a := Z.log2 n). set (b := Z.log2 (Z.pos d)).
  assert (Ha : (2 ^ a <= n < 2 ^ (a + 1))%Z).
  { apply (Z.log2_spec n Hn). }
  assert (Hb : (2 ^ b <= Z.pos d < 2 ^ (b + 1))%Z).
  { apply (Z.log2_spec (Z.pos d)). lia. }
  assert (Ha0 : (0 <= a)%Z) by apply Z.log2_nonneg.
  assert (Hb0 : (0 <= b)%Z) by apply Z.log2_nonneg.
  (* the same bounds in Q *)
  assert (Hqd : (n # d) * inject_Z (Z.pos d) == inject_Z n).
  { unfold Qeq, Qmult, inject_Z. cbn. lia. }
  assert (HaL : 2 ^ a <= inject_Z n).
  { rewrite pow2_Z by lia. rewrite <- Zle_Qle. lia. }
  assert (HaU : inject_Z n < 2 ^ (a + 1)).
  { rewrite pow2_Z by lia. rewrite <- Zlt_Qlt. lia. }
  assert (HbL : 2 ^ b <= inject_Z (Z.pos d)).
  { rewrite pow2_Z by lia. rewrite <- Zle_Qle. lia. }
  assert (HbU : inject_Z (Z.pos d) < 2 ^ (b + 1)).
  { rewrite pow2_Z by lia. rewrite <- Zlt_Qlt. lia. }
  assert (Hupper : n # d < 2 ^ (a - b + 1)).
  { apply (Qmult_lt_r _ _ (2 ^ b) (pow2_pos b)).
    rewrite <- pow2_add. replace (a - b + 1 + b)%Z with (a + 1)%Z by ring.
    apply Qle_lt_trans with (inject_Z n); [| exact HaU].
    rewrite <- Hqd. apply Qmult_le_l; [exact Hq | exact HbL]. }
  assert (Hlower : 2 ^ (a - b - 1) <= n # d).
  { apply (Qmult_le_r _ _ (2 ^ (b + 1)) (pow2_pos (b + 1))).
    rewrite <- pow2_add. replace (a - b - 1 + (b + 1))%Z with a by ring.
    apply Qle_trans with (inject_Z n); [exact HaL |].
    rewrite <- Hqd. apply Qmult_le_l; [exact Hq |].
    apply Qlt_le_weak. exact HbU. }
  destruct (Qle_bool (2 ^ (a - b)) (n # d)) eqn:E.
  - apply Qle_bool_iff in E. split; assumption.
  - split; [exact Hlower |].
    replace (a - b - 1 + 1)%Z with (a - b)%Z by ring.
    apply Qnot_le_lt. intros H. apply Qle_bool_iff in H. congruence.
Qed.

Lemma ilog2_lt (q : Q) (k : Z) : 0 < q -> q < 2 ^ k -> (ilog2 q < k)%Z.
Proof.
  intros Hq H. apply pow2_lt_inv.
  apply Qle_lt_trans with q; [apply ilog2_spec; exact Hq | exact H].
Qed.

Lemma ilog2_ge (q : Q) (k : Z) : 2 ^ k <= q -> (k <= ilog2 q)%Z.
Proof.
  intros H.
  assert (Hq : 0 < q) by (apply Qlt_le_trans with (2 ^ k); [apply pow2_pos | exact H]).
  assert (Hk : (k < ilog2 q + 1)%Z).
  { apply pow2_lt_inv. apply Qle_lt_trans with q; [exact H | apply ilog2_spec; exact Hq]. }
  lia.
Qed.

(** ** Rounding to the nearest integer *)

Lemma rne_comp (x y : Q) : x == y -> rne x = rne y.
Proof.
  intros H. unfold rne.
  rewrite (Qfloor_comp x y H).
  rewrite (Qcompare_comp (x - inject_Z (Qfloor y)) (y - inject_Z (Qfloor y))
             ltac:(rewrite H; reflexivity) (1 # 2) (1 # 2) ltac:(reflexivity)).
  reflexivity.
Qed.

Lemma rne_Z (z : Z) : rne (inject_Z z) = z.
Proof.
  unfold rne. rewrite Qfloor_Z.
  assert (H : inject_Z z - inject_Z z < 1 # 2) by lra.
  rewrite (proj1 (Qlt_alt _ _) H). reflexivity.
Qed.

Lemma rne_bounds (y : Q) : (Qfloor y <= rne y <= Qfloor y + 1)%Z.
Proof.
  unfold rne. destruct (Qcompare _ _); [destruct (Z.even _) | |]; lia.
Qed.

Lemma rne_ge_Z (y : Q) (z : Z) : inject_Z z <= y -> (z <= rne y)%Z.
Proof.
  intros H. apply Qfloor_resp_le in H. rewrite Qfloor_Z in H.
  pose proof (rne_bounds y). lia.
Qed.

Lemma rne_le_Z (y : Q) (z : Z) : y <= inject_Z z -> (rne y <= z)%Z.
Proof.
  intros H. pose proof (rne_bounds y) as Hb.
  pose proof (Qfloor_resp_le _ _ H) as Hf. rewrite Qfloor_Z in Hf.
  destruct (Z.eq_dec (Qfloor y) z) as [E | E]; [| lia].
  unfold rne. rewrite E.
  assert (Hlt : y - inject_Z z < 1 # 2) by lra.
  rewrite (proj1 (Qlt_alt _ _) Hlt). lia.
Qed.

(** ** The exponent of the last place *)

Lemma ulp_exp_le (q : Q) (e : Z) :
  0 < q -> q < 2 ^ (prec + e) -> (emin <= e)%Z -> (ulp_exp q <= e)%Z.
Proof.
  intros Hq H He. unfold ulp_exp.
  pose proof (ilog2_lt q _ Hq H). unfold prec in *. lia.
Qed.

Lemma ulp_exp_ge (q : Q) (e : Z) :
  2 ^ (prec - 1 + e) <= q -> (e <= ulp_exp q)%Z.
Proof.
  intros H. unfold ulp_exp. pose proof (ilog2_ge q _ H). unfold prec in *. lia.
Qed.

Lemma ulp_exp_emin (q : Q) : (emin <= ulp_exp q)%Z.
Proof. unfold ulp_exp. lia. Qed.

(** Scaling a multiple of [2^e] by a smaller power of two gives an
    integer. *)
Lemma scale_integer (m e E : Z) :
  (E <= e)%Z -> inject_Z m * 2 ^ e / 2 ^ E == inject_Z (m * 2 ^ (e - E)).
Proof.
  intros H. rewrite (pow2_split e E). rewrite inject_Z_mult.
  rewrite <- (pow2_Z (e - E)) by lia.
  pose proof (pow2_pos E). field. lra.
Qed.

Lemma inject_pow2_lt (m e : Z) :
  (m < 2 ^ prec)%Z -> inject_Z m * 2 ^ e < 2 ^ (prec + e).
Proof.
  intros H. rewrite pow2_add. apply Qmult_lt_compat_r; [apply pow2_pos |].
  rewrite (pow2_Z prec) by (unfold prec; lia). rewrite <- Zlt_Qlt. exact H.
Qed.

(** ** Rounding *)

(** A float is a fixed point of rounding. *)
Lemma round_pos_exact (q : Q) (m e : Z) :
  (0 < m < 2 ^ prec)%Z -> (emin <= e)%Z -> q == inject_Z m * 2 ^ e ->
  round_pos q == q.
Proof.
  intros Hm He Hq.
  assert (Hpos : 0 < q).
  { rewrite Hq. apply Qmult_lt_0_compat; [| apply pow2_pos].
    replace 0 with (inject_Z 0) by reflexivity. rewrite <- Zlt_Qlt. lia. }
  assert (HE : (ulp_exp q <= e)%Z).
  { apply ulp_exp_le; [exact Hpos | | exact He].
    rewrite Hq. apply inject_pow2_lt. lia. }
  unfold round_pos. set (E := ulp_exp q) in *.
  rewrite (rne_comp _ (inject_Z (m * 2 ^ (e - E)))).
  2:{ rewrite Hq. apply scale_integer. exact HE. }
  rewrite rne_Z. rewrite <- scale_integer by exact HE.
  rewrite <- Hq. pose proof (pow2_pos E). field. lra.
Qed.

(** Rounding never crosses a float: upper bound. *)
Lemma round_pos_le (q f : Q) (m e : Z) :
  (0 < m < 2 ^ prec)%Z -> (emin <= e)%Z -> f == inject_Z m * 2 ^ e ->
  0 < q -> q <= f -> round_pos q <= f.
Proof.
  intros Hm He Hf Hpos Hle.
  assert (HE : (ulp_exp q <= e)%Z).
  { apply ulp_exp_le; [exact Hpos | | exact He].
    apply Qle_lt_trans with f; [exact Hle |].
    rewrite Hf. apply inject_pow2_lt. lia. }
  unfold round_pos. set (E := ulp_exp q) in *.
  pose proof (pow2_pos E) as HE0.
  assert (Hy : q / 2 ^ E <= inject_Z (m * 2 ^ (e - E))).
  { rewrite <- scale_integer by exact HE. rewrite <- Hf.
    apply Qle_shift_div_r; [exact HE0 |].
    apply Qle_trans with f; [exact Hle |].
    apply Qle_lteq. right. field. lra. }
  apply rne_le_Z in Hy. rewrite Zle_Qle in Hy.
  apply Qle_trans with (inject_Z (m * 2 ^ (e - E)) * 2 ^ E).
  - apply Qmult_le_compat_r; [exact Hy | lra].
  - rewrite <- scale_integer by exact HE. rewrite <- Hf.
    apply Qle_lteq. right. field. lra.
Qed.

(** Rounding never crosses a float: lower bound. *)
Lemma round_pos_ge (q f : Q) (m e : Z) :
  (0 < m < 2 ^ prec)%Z -> (emin <= e)%Z -> f == inject_Z m * 2 ^ e ->
  f <= q -> f <= round_pos q.
Proof.
  intros Hm He Hf Hle.
  assert (Hfpos : 0 < f).
  { rewrite Hf. apply Qmult_lt_0_compat; [| apply pow2_pos].
    replace 0 with (inject_Z 0) by reflexivity. rewrite <- Zlt_Qlt. lia. }
  assert (Hpos : 0 < q) by lra.
  unfold round_pos. set (E := ulp_exp q).
  pose proof (pow2_pos E) as HE0.
  destruct (Z_le_gt_dec E e) as [HE | HE].
  - assert (Hy : inject_Z (m * 2 ^ (e - E)) <= q / 2 ^ E).
    { rewrite <- scale_integer by exact HE. rewrite <- Hf.
      apply Qle_shift_div_l; [exact HE0 |].
      apply Qle_trans with f; [| exact Hle].
      apply Qle_lteq. right. field. lra. }
    apply rne_ge_Z in Hy. rewrite Zle_Qle in Hy.
    apply Qle_trans with (inject_Z (m * 2 ^ (e - E)) * 2 ^ E).
    + rewrite <- scale_integer by exact HE. rewrite <- Hf.
      apply Qle_lteq. right. field. lra.
    + apply Qmult_le_compat_r; [exact Hy | lra].
  - (* the binade of q lies strictly above f *)
    assert (HEq : E = (ilog2 q - (prec - 1))%Z).
    { unfold E, ulp_exp in *. lia. }
    assert (Hq : 2 ^ (prec - 1) * 2 ^ E <= q).
    { rewrite <- pow2_add. replace (prec - 1 + E)%Z with (ilog2 q) by lia.
      apply ilog2_spec. exact Hpos. }
    assert (Hy : inject_Z (2 ^ (prec - 1)) <= q / 2 ^ E).
    { rewrite <- pow2_Z by (unfold prec; lia).
      apply Qle_shift_div_l; assumption. }
    apply rne_ge_Z in Hy. rewrite Zle_Qle in Hy.
    rewrite <- pow2_Z in Hy by (unfold prec; lia).
    apply Qle_trans with (2 ^ (prec - 1) * 2 ^ E).
    + rewrite <- pow2_add. apply Qlt_le_weak.
      apply Qlt_le_trans with (2 ^ (prec + e)).
      * rewrite Hf. apply inject_pow2_lt. lia.
      * apply pow2_le. lia.
    + apply Qmult_le_compat_r; [exact Hy | lra].
Qed.

Lemma round_pos_nonneg (q : Q) : 0 < q -> 0 <= round_pos q.
Proof.
  intros Hq. unfold round_pos. set (E := ulp_exp q).
  pose proof (pow2_pos E) as HE.
  assert (Hy : inject_Z 0 <= q / 2 ^ E).
  { apply Qle_shift_div_l; [exact HE |]. change (inject_Z 0) with 0. lra. }
  apply rne_ge_Z in Hy. rewrite Zle_Qle in Hy. change (inject_Z 0) with 0 in Hy.
  apply Qmult_le_0_compat; lra.
Qed.

Lemma round_of_pos (q : Q) : 0 < q -> round q = round_pos q.
Proof.
  intros Hq. unfold round.
  rewrite (proj1 (Qgt_alt q 0) Hq). reflexivity.
Qed.

(** Below [2^1023] rounding cannot overflow. *)
Lemma of_Q_pos (q : Q) : 0 < q -> q <= 2 ^ (emax - 1) -> of_Q q = Fin (round_pos q).
Proof.
  intros Hq Hle. unfold of_Q. rewrite (round_of_pos q Hq).
  assert (Hub : round_pos q <= 2 ^ (emax - 1)).
  { apply (round_pos_le q _ 1 (emax - 1)); try assumption.
    - unfold prec. lia.
    - unfold emin, emax. lia.
    - rewrite Qmult_1_l. reflexivity. }
  pose proof (round_pos_nonneg q Hq) as Hlb.
  pose proof (pow2_lt (emax - 1) emax ltac:(lia)) as Hlt.
  pose proof (pow2_pos emax) as Hpos.
  destruct (Qle_bool (2 ^ emax) (round_pos q)) eqn:E1.
  { apply Qle_bool_iff in E1. lra. }
  destruct (Qle_bool (round_pos q) (- 2 ^ emax)) eqn:E2.
  { apply Qle_bool_iff in E2. lra. }
  reflexivity.
Qed.

Lemma Qfloor_unique (x : Q) (z : Z) :
  inject_Z z <= x -> x < inject_Z (z + 1) -> Qfloor x = z.
Proof.
  intros Hl Hu.
  pose proof (Qfloor_resp_le _ _ Hl) as H1. rewrite Qfloor_Z in H1.
  pose proof (Qfloor_le x) as H2.
  assert (H3 : inject_Z (Qfloor x) < inject_Z (z + 1)) by lra.
  rewrite <- Zlt_Qlt in H3. lia.
Qed.

Lemma Qtrunc_nonneg (x : Q) : 0 <= x -> Qtrunc x = Qfloor x.
Proof.
  intros H. unfold Qtrunc. apply Qle_bool_iff in H. rewrite H. reflexivity.
Qed.

Lemma inject_Z_pos (z : Z) : (0 < z)%Z -> 0 < inject_Z z.
Proof. intros H. replace 0 with (inject_Z 0) by reflexivity. rewrite <- Zlt_Qlt. exact H. Qed.

Lemma inject_Z_le_pow2 (z k j : Z) :
  (0 <= k <= j)%Z -> (z <= 2 ^ k)%Z -> inject_Z z <= 2 ^ j.
Proof.
  intros Hk Hz. apply Qle_trans with (2 ^ k).
  - rewrite (pow2_Z k) by lia. rewrite <- Zle_Qle. exact Hz.
  - apply pow2_le. lia.
Qed.

(** [float(n)] is exact for integers below [2^53]. *)
Lemma of_int_exact (n : Z) :
  (0 < n < 2 ^ prec)%Z -> exists r, of_int n = inr (Fin r) /\ r == inject_Z n.
Proof.
  intros Hn. unfold of_int.
  rewrite of_Q_pos.
  - exists (round_pos (inject_Z n)). split; [reflexivity |].
    apply (round_pos_exact _ n 0); [exact Hn | unfold emin; lia |].
    cbn. ring.
  - apply inject_Z_pos. lia.
  - apply (inject_Z_le_pow2 n prec); unfold prec, emax in *; lia.
Qed.

Lemma ilog2_comp (x y : Q) : 0 < x -> x == y -> ilog2 x = ilog2 y.
Proof.
  intros Hx Heq.
  assert (Hy : 0 < y) by (rewrite <- Heq; exact Hx).
  destruct (ilog2_spec x Hx) as [Hx1 Hx2].
  destruct (ilog2_spec y Hy) as [Hy1 Hy2].
  assert (H1 : (ilog2 x < ilog2 y + 1)%Z).
  { apply pow2_lt_inv. apply Qle_lt_trans with y; [lra | assumption]. }
  assert (H2 : (ilog2 y < ilog2 x + 1)%Z).
  { apply pow2_lt_inv. apply Qle_lt_trans with y; [assumption | lra]. }
  lia.
Qed.

Lemma round_pos_comp (x y : Q) : 0 < x -> x == y -> round_pos x == round_pos y.
Proof.
  intros Hx Heq. unfold round_pos, ulp_exp.
  rewrite (ilog2_comp x y Hx Heq).
  set (E := Z.max (ilog2 y - (prec - 1)) emin).
  rewrite (rne_comp (x / 2 ^ E) (y / 2 ^ E)); [reflexivity |].
  rewrite Heq. reflexivity.
Qed.

Lemma round_comp (x y : Q) : x == y -> round x == round y.
Proof.
  intros Heq. unfold round.
  rewrite (Qcompare_comp x y Heq 0 0 ltac:(reflexivity)).
  destruct (Qcompare y 0) eqn:E; [reflexivity | |].
  - apply Qlt_alt in E. apply Qopp_comp. apply round_pos_comp; [| rewrite Heq; reflexivity].
    rewrite Heq. lra.
  - apply Qgt_alt in E. apply round_pos_comp; [| exact Heq]. rewrite Heq. exact E.
Qed.

Lemma feq_refl (a : float) : a <> NaN -> feq a a.
Proof. destruct a; cbn; intros H; try reflexivity; congruence. Qed.



Lemma of_Q_cases (q : Q) :
  (of_Q q = PInf /\ 2 ^ emax <= round q) \/
  (of_Q q = NInf /\ round q <= - 2 ^ emax) \/
  (of_Q q = Fin (round q) /\ - 2 ^ emax < round q < 2 ^ emax).
Proof.
  unfold of_Q.
  destruct (Qle_bool (2 ^ emax) (round q)) eqn:E1.
  { left. split; [reflexivity | apply Qle_bool_iff; exact E1]. }
  destruct (Qle_bool (round q) (- 2 ^ emax)) eqn:E2.
  { right. left. split; [reflexivity | apply Qle_bool_iff; exact E2]. }
  right. right. split; [reflexivity |]. split.
  - apply Qnot_le_lt. intros H. apply Qle_bool_iff in H. congruence.
  - apply Qnot_le_lt. intros H. apply Qle_bool_iff in H. congruence.
Qed.

(** A positive float is an integer below [2^53] times a power of two. *)
Lemma representable_pos_form (q : Q) :
  0 < q -> round_pos q == q ->
  exists m e, (0 < m < 2 ^ prec)%Z /\ (emin <= e)%Z /\ q == inject_Z m * 2 ^ e.
Proof.
  intros Hq Hr. unfold round_pos in Hr.
  set (E := ulp_exp q) in *. set (m := rne (q / 2 ^ E)) in *.
  pose proof (pow2_pos E) as HE.
  exists m, E. split; [| split].
  - assert (Hm : 0 < inject_Z m).
    { destruct (Qlt_le_dec 0 (inject_Z m)) as [H | H]; [exact H | exfalso].
      assert (inject_Z m * 2 ^ E <= 0 * 2 ^ E)
        by (apply Qmult_le_compat_r; lra).
      lra. }
    assert (Hub : inject_Z m * 2 ^ E < 2 ^ prec * 2 ^ E).
    { rewrite Hr, <- pow2_add.
      apply Qlt_le_trans with (2 ^ (ilog2 q + 1)).
      - apply ilog2_spec. exact Hq.
      - apply pow2_le. unfold E, ulp_exp, prec. lia. }
    apply Qmult_lt_r in Hub; [| exact HE].
    rewrite (pow2_Z prec) in Hub by (unfold prec; lia).
    rewrite <- Zlt_Qlt in Hub.
    change 0 with (inject_Z 0) in Hm. rewrite <- Zlt_Qlt in Hm. lia.
  - apply ulp_exp_emin.
  - symmetry. exact Hr.
Qed.

Lemma representable_round_pos (q : Q) :
  representable q -> 0 < q -> round_pos q == q.
Proof. intros [Hr _] Hq. rewrite <- (round_of_pos q Hq). exact Hr. Qed.


Lemma round_ge_repr (x f : Q) :
  representable f -> 0 < f -> f <= x -> f <= round x.
Proof.
  intros Hf Hfp Hle. rewrite (round_of_pos x) by lra.
  destruct (representable_pos_form f Hfp (representable_round_pos f Hf Hfp))
    as (m & e & Hm & He & Hform).
  apply (round_pos_ge x f m e); assumption.
Qed.


End Binary64Facts.

Import Binary64Facts.

(** The model computes what the primitive floats compute: 1/3, 0.4,
    0.4 + (1.49 - 0.4), 1080 * 0.5625, 1000001 / 0.5625 and 48 * 0.85. *)
Example model_agrees_with_primitive_floats :
  same_value (Q_of_hw (PrimFloat.div (hw 1) (hw 3))) (of_Q (1 # 3)) = true /\
  same_value (Q_of_hw (PrimFloat.div (hw 4) (hw 10))) (of_Q (4 # 10)) = true /\
  same_value
    (Q_of_hw (PrimFloat.add (PrimFloat.div (hw 4) (hw 10))
                (PrimFloat.sub (PrimFloat.div (hw 149) (hw 100))
                   (PrimFloat.div (hw 4) (hw 10)))))
    (fadd (of_Q (4 # 10)) (fsub (of_Q (149 # 100)) (of_Q (4 # 10)))) = true /\
  same_value
    (Q_of_hw (PrimFloat.mul (hw 1080) (PrimFloat.div (hw 9) (hw 16))))
    (fmul (Fin 1080) target_ratio) = true /\
  same_value
    (Q_of_hw (PrimFloat.div (hw 1000001) (PrimFloat.div (hw 9) (hw 16))))
    (of_Q (1000001 / (9 # 16))) = true /\
  same_value
    (Q_of_hw (PrimFloat.mul (hw 48) (PrimFloat.div (hw 85) (hw 100))))
    (fmul (Fin 48) (of_Q (85 # 100))) = true.
Proof. repeat split; vm_compute; reflexivity. Qed.

(** * GeometryPlanner *)

Section Geometry.

Local Open Scope Q_scope.

Variables width height : Z.
Hypothesis Hw : frame_dimension width.
Hypothesis Hh : frame_dimension height.

Let W := inject_Z width.
Let H := inject_Z height.

Lemma dims_Q :
  0 < W /\ W < 562949953421312 /\ 1 <= H /\ H < 562949953421312.
Proof.
  destruct Hw as [Hw1 Hw2], Hh as [Hh1 Hh2]. unfold W, H.
  change 562949953421312 with (inject_Z (2 ^ 49)).
  change 0 with (inject_Z 0). change 1 with (inject_Z 1).
  rewrite <- !Zlt_Qlt, <- Zle_Qle. lia.
Qed.

Lemma pow2_53_le_max : 9007199254740992 <= 2 ^ (emax - 1).
Proof.
  change 9007199254740992 with (inject_Z (2 ^ 53)).
  apply (inject_Z_le_pow2 _ 53); unfold emax; lia.
Qed.

(** The float comparison of the two ratios decides the exact one. *)
Lemma current_ratio_spec :
  exists r, int_truediv width height = inr (Fin r) /\
            (fgt (Fin r) target_ratio = true <-> (9 * height < 16 * width)%Z).
Proof.
  destruct dims_Q as (Hw1 & Hw2 & Hh1 & Hh2).
  pose proof pow2_53_le_max as Hmax.
  unfold int_truediv.
  replace (height =? 0)%Z with false
    by (symmetry; apply Z.eqb_neq; destruct Hh; lia).
  fold W H.
  assert (Hq : 0 < W / H) by (apply Qlt_shift_div_l; lra).
  assert (Hqle : W / H <= 2 ^ (emax - 1)).
  { apply Qle_shift_div_r; [lra |].
    apply Qle_trans with (2 ^ (emax - 1) * 1); [lra |].
    apply Qmult_le_l; lra. }
  rewrite (of_Q_pos _ Hq Hqle).
  eexists. split; [reflexivity |].
  unfold fgt, flt, target_ratio. rewrite negb_true_iff.
  split.
  - (* a ratio of at most 9/16 cannot round above it *)
    intros Hgt.
    destruct (Z_lt_ge_dec (9 * height) (16 * width)) as [Hlt | Hge];
      [exact Hlt | exfalso].
    assert (HgeQ : 16 * W <= 9 * H).
    { unfold W, H. change 16 with (inject_Z 16). change 9 with (inject_Z 9).
      rewrite <- !inject_Z_mult, <- Zle_Qle. lia. }
    assert (Hle : round_pos (W / H) <= 9 # 16).
    { apply (round_pos_le _ _ 9 (-4)).
      - unfold prec. lia.
      - unfold emin. lia.
      - reflexivity.
      - exact Hq.
      - apply Qle_shift_div_r; lra. }
    apply Qle_bool_iff in Hle. congruence.
  - (* a larger ratio is at least the next float after 9/16 *)
    intros Hlt.
    assert (HltQ : 9 * H + 1 <= 16 * W).
    { unfold W, H. change 16 with (inject_Z 16). change 9 with (inject_Z 9).
      change 1 with (inject_Z 1).
      rewrite <- !inject_Z_mult, <- inject_Z_plus, <- Zle_Qle. lia. }
    assert (Hge : 5066549580791809 # 9007199254740992 <= round_pos (W / H)).
    { apply (round_pos_ge _ _ 5066549580791809 (-53)).
      - unfold prec. lia.
      - unfold emin. lia.
      - reflexivity.
      - apply Qle_shift_div_l; lra. }
    destruct (Qle_bool (round_pos (W / H)) (9 # 16)) eqn:E; [| reflexivity].
    apply Qle_bool_iff in E. exfalso.
    assert (Hc : 9 # 16 < 5066549580791809 # 9007199254740992) by reflexivity.
    lra.
Qed.

(** Too wide: the sides are cropped. *)
Lemma crop_wide :
  (9 * height < 16 * width)%Z ->
  _calculate_crop_params width height =
  inr ((9 * height) / 16, height, (width - (9 * height) / 16) / 2, 0)%Z.
Proof.
  intros Hlt.
  destruct dims_Q as (Hw1 & Hw2 & Hh1 & Hh2).
  pose proof pow2_53_le_max as Hmax.
  destruct current_ratio_spec as (r & Hdiv & Hcmp).
  destruct (of_int_exact height) as (rh & Hof & Hrh).
  { destruct Hh. unfold prec. lia. }
  fold H in Hrh.
  unfold _calculate_crop_params. rewrite Hdiv. cbn [bind].
  rewrite (proj2 Hcmp Hlt). rewrite Hof. cbn [bind].
  unfold fmul, target_ratio.
  assert (Hpos : 0 < rh * (9 # 16)) by (rewrite Hrh; lra).
  rewrite of_Q_pos; [| exact Hpos | rewrite Hrh; lra].
  assert (Hex : round_pos (rh * (9 # 16)) == (9 * height # 16)).
  { rewrite (round_pos_exact _ (9 * height) (-4)).
    - rewrite Hrh. unfold H. rewrite (Qmake_Qdiv (9 * height) 16).
      rewrite inject_Z_mult. field.
    - destruct Hh. unfold prec. lia.
    - unfold emin. lia.
    - rewrite Hrh. unfold H. rewrite inject_Z_mult.
      change (2 ^ (-4)) with (1 # 16). ring. }
  unfold to_int. cbn [bind].
  rewrite Qtrunc_nonneg by (apply round_pos_nonneg; exact Hpos).
  rewrite (Qfloor_comp _ _ Hex). reflexivity.
Qed.

(** Too tall (or exact): top and bottom are cropped. *)
Lemma crop_tall :
  (16 * width <= 9 * height)%Z ->
  _calculate_crop_params width height =
  inr (width, (16 * width) / 9, 0, (height - (16 * width) / 9) / 2)%Z.
Proof.
  intros Hle.
  destruct dims_Q as (Hw1 & Hw2 & Hh1 & Hh2).
  pose proof pow2_53_le_max as Hmax.
  destruct current_ratio_spec as (r & Hdiv & Hcmp).
  destruct (of_int_exact width) as (rw & Hof & Hrw).
  { destruct Hw. unfold prec. lia. }
  fold W in Hrw.
  unfold _calculate_crop_params. rewrite Hdiv. cbn [bind].
  destruct (fgt (Fin r) target_ratio) eqn:Egt.
  { pose proof (proj1 Hcmp eq_refl). lia. }
  rewrite Hof. cbn [bind].
  unfold fdiv, target_ratio.
  change (Qeq_bool (9 # 16) 0) with false. cbv iota.
  set (q := rw / (9 # 16)).
  assert (Hq : q == (16 # 9) * W) by (unfold q; rewrite Hrw; field).
  set (n := (16 * width / 9)%Z).
  assert (Hn : (9 * n <= 16 * width < 9 * n + 9)%Z).
  { unfold n. pose proof (Z.div_mod (16 * width) 9 ltac:(lia)).
    pose proof (Z.mod_pos_bound (16 * width) 9 ltac:(lia)). lia. }
  assert (Hn1 : (1 <= n)%Z) by (destruct Hw; lia).
  assert (HnQ : 9 * inject_Z n <= 16 * W /\ 16 * W + 1 <= 9 * inject_Z n + 9).
  { unfold W. change 16 with (inject_Z 16). change 9 with (inject_Z 9).
    change 1 with (inject_Z 1).
    rewrite <- !inject_Z_mult, <- !inject_Z_plus, <- !Zle_Qle. lia. }
  assert (HnB : 1 <= inject_Z n).
  { change 1 with (inject_Z 1). rewrite <- Zle_Qle. exact Hn1. }
  assert (Hpos : 0 < q) by (rewrite Hq; lra).
  rewrite of_Q_pos; [| exact Hpos | rewrite Hq; lra].
  unfold ret, to_int. cbn [bind].
  rewrite Qtrunc_nonneg by (apply round_pos_nonneg; exact Hpos).
  rewrite (Qfloor_unique _ n); [reflexivity | |].
  - apply (round_pos_ge _ _ n 0).
    + destruct Hw. unfold prec. lia.
    + unfold emin. lia.
    + change (2 ^ 0) with 1. ring.
    + rewrite Hq. lra.
  - apply Qle_lt_trans with (inject_Z (16 * n + 15) * 2 ^ (-4)).
    + apply (round_pos_le _ _ (16 * n + 15) (-4)).
      * destruct Hw, Hh. unfold prec. lia.
      * unfold emin. lia.
      * reflexivity.
      * exact Hpos.
      * rewrite Hq. rewrite inject_Z_plus, inject_Z_mult.
        change (2 ^ (-4)) with (1 # 16).
        change (inject_Z 16) with 16. change (inject_Z 15) with 15. lra.
    + rewrite !inject_Z_plus, inject_Z_mult.
      change (2 ^ (-4)) with (1 # 16).
      change (inject_Z 16) with 16. change (inject_Z 15) with 15.
      change (inject_Z 1) with 1. lra.
Qed.

End Geometry.

(** C8: for every frame with positive dimensions the crop window lies
    inside the frame: both offsets are non-negative and the window ends
    within the width and the height. *)
Theorem crop_window_inside_frame (width height : Z) :
  frame_dimension width -> frame_dimension height ->
  exists crop_width crop_height x_offset y_offset,
    _calculate_crop_params width height
    = inr (crop_width, crop_height, x_offset, y_offset) /\
    0 <= x_offset /\ 0 <= y_offset /\
    x_offset + crop_width <= width /\ y_offset + crop_height <= height.
Proof.
  intros Hw Hh.
  destruct (Z_lt_ge_dec (9 * height) (16 * width)) as [Hwide | Htall].
  - rewrite (crop_wide width height Hw Hh Hwide).
    do 4 eexists. split; [reflexivity |].
    destruct Hw, Hh.
    pose proof (Z.div_mod (9 * height) 16 ltac:(lia)).
    pose proof (Z.mod_pos_bound (9 * height) 16 ltac:(lia)).
    set (cw := 9 * height / 16) in *.
    pose proof (Z.div_mod (width - cw) 2 ltac:(lia)).
    pose proof (Z.mod_pos_bound (width - cw) 2 ltac:(lia)).
    lia.
  - rewrite (crop_tall width height Hw Hh ltac:(lia)).
    do 4 eexists. split; [reflexivity |].
    destruct Hw, Hh.
    pose proof (Z.div_mod (16 * width) 9 ltac:(lia)).
    pose proof (Z.mod_pos_bound (16 * width) 9 ltac:(lia)).
    set (ch := 16 * width / 9) in *.
    pose proof (Z.div_mod (height - ch) 2 ltac:(lia)).
    pose proof (Z.mod_pos_bound (height - ch) 2 ltac:(lia)).
    lia.
Qed.

Lemma crop_window_inside_frame_witness :
  exists crop_width crop_height x_offset y_offset,
    _calculate_crop_params 1920 1080
    = inr (crop_width, crop_height, x_offset, y_offset) /\
    0 <= x_offset /\ 0 <= y_offset /\
    x_offset + crop_width <= 1920 /\ y_offset + crop_height <= 1080.
Proof.
  apply (crop_window_inside_frame 1920 1080); unfold frame_dimension; lia.
Defined.

(** C2 (amended): when width/height exceeds the target ratio the planner
    returns cropHeight = height, cropWidth = height * 9/16 rounded down,
    xOffset = (width - cropWidth) / 2 rounded down and yOffset = 0; a
    1920x1080 source yields the 607x1080 window with xOffset = 656. *)
Theorem crop_sides_when_too_wide (width height : Z) :
  frame_dimension width -> frame_dimension height ->
  (9 # 16 < inject_Z width / inject_Z height)%Q ->
  _calculate_crop_params width height
  = inr (Qfloor (inject_Z height * (9 # 16)), height,
         (width - Qfloor (inject_Z height * (9 # 16))) / 2, 0)
  /\ _calculate_crop_params 1920 1080 = inr (607, 1080, 656, 0).
Proof.
  intros Hw Hh Hratio. split.
  - assert (Hfloor : Qfloor (inject_Z height * (9 # 16)) = 9 * height / 16).
    { rewrite (Qfloor_comp _ (9 * height # 16)); [reflexivity |].
      rewrite (Qmake_Qdiv (9 * height) 16), inject_Z_mult. field. }
    rewrite Hfloor. apply crop_wide; [exact Hw | exact Hh |].
    destruct Hh as [Hh0 _].
    assert (HhQ : (0 < inject_Z height)%Q) by (apply inject_Z_pos; exact Hh0).
    apply (proj2 (Qmult_lt_r _ _ _ HhQ)) in Hratio.
    assert (Hcancel : (inject_Z width / inject_Z height * inject_Z height
                       == inject_Z width)%Q) by (field; lra).
    assert (HQ : (inject_Z (9 * height) < inject_Z (16 * width))%Q).
    { rewrite !inject_Z_mult.
      change (inject_Z 9) with 9%Q. change (inject_Z 16) with 16%Q. lra. }
    rewrite <- Zlt_Qlt in HQ. exact HQ.
  - apply (crop_wide 1920 1080); unfold frame_dimension; lia.
Qed.

Lemma crop_sides_when_too_wide_witness :
  _calculate_crop_params 1920 1080
  = inr (Qfloor (inject_Z 1080 * (9 # 16)), 1080,
         (1920 - Qfloor (inject_Z 1080 * (9 # 16))) / 2, 0)
  /\ _calculate_crop_params 1920 1080 = inr (607, 1080, 656, 0).
Proof.
  apply (crop_sides_when_too_wide 1920 1080).
  - unfold frame_dimension. lia.
  - unfold frame_dimension. lia.
  - reflexivity.
Defined.

(** C2 as stated fails: for a 100x30 source the crop width is 16, while
    30 * 9/16 = 16.875 rounds to 17. *)
Lemma crop_width_is_truncated_not_rounded :
  frame_dimension 100 /\ frame_dimension 30 /\
  (9 # 16 < inject_Z 100 / inject_Z 30)%Q /\
  _calculate_crop_params 100 30 = inr (16, 30, 42, 0) /\
  spec_crop_sides 100 30 = (17, 30, 41, 0) /\
  _calculate_crop_params 100 30 <> inr (spec_crop_sides 100 30).
Proof.
  assert (Hcode : _calculate_crop_params 100 30 = inr (16, 30, 42, 0)).
  { apply (crop_wide 100 30); unfold frame_dimension; lia. }
  split; [unfold frame_dimension; lia |].
  split; [unfold frame_dimension; lia |].
  split; [reflexivity |].
  split; [exact Hcode |].
  split; [reflexivity |].
  rewrite Hcode. discriminate.
Qed.

(** * OverlayTimelineCompiler: activation windows *)

Section OverlayWindow.

Local Open Scope Q_scope.

Variables t d D : Q.
Hypothesis Ht : representable t.
Hypothesis Hd : representable d.
Hypothesis HD : representable D.
Hypothesis Ht0 : 0 <= t.
Hypothesis Hd0 : 0 < d.





End OverlayWindow.




(** * Strings *)

Section Strip.

Lemma lstrip_split (s : pystr) :
  exists w, s = w ++ lstrip s /\ forallb isspace w = true.
Proof.
  induction s as [| c s IH]; [exists []; split; reflexivity |].
  cbn [lstrip]. destruct (isspace c) eqn:E.
  - destruct IH as (w & Hs & Hw). exists (c :: w). split.
    + cbn. f_equal. exact Hs.
    + cbn. rewrite E, Hw. reflexivity.
  - exists []. split; reflexivity.
Qed.

Lemma lstrip_head (s : pystr) :
  match lstrip s with
  | [] => True
  | c :: _ => isspace c = false
  end.
Proof.
  induction s as [| c s IH]; [exact I |].
  cbn [lstrip]. destruct (isspace c) eqn:E; [exact IH | exact E].
Qed.

Lemma lstrip_fixed (s : pystr) :
  match s with
  | [] => True
  | c :: _ => isspace c = false
  end -> lstrip s = s.
Proof. destruct s as [| c s]; [reflexivity |]. cbn. intros ->. reflexivity. Qed.

Lemma lstrip_idem (s : pystr) : lstrip (lstrip s) = lstrip s.
Proof. apply lstrip_fixed. apply lstrip_head. Qed.

Lemma lstrip_nil_iff (s : pystr) : lstrip s = [] <-> forallb isspace s = true.
Proof.
  induction s as [| c s IH]; [split; reflexivity |].
  cbn. destruct (isspace c); cbn; [exact IH |]. split; discriminate.
Qed.

Lemma lstrip_length (s : pystr) : (List.length (lstrip s) <= List.length s)%nat.
Proof.
  induction s as [| c s IH]; [cbn; lia |].
  cbn [lstrip]. destruct (isspace c); cbn in *; lia.
Qed.

Lemma strip_length (s : pystr) : len (strip s) <= len s.
Proof.
  unfold strip, len. rewrite length_rev.
  pose proof (lstrip_length (rev (lstrip s))) as H1.
  rewrite length_rev in H1.
  pose proof (lstrip_length s). lia.
Qed.

(** The right-stripped string is a prefix. *)
Lemma rstrip_split (y : pystr) :
  exists w, y = rev (lstrip (rev y)) ++ w.
Proof.
  destruct (lstrip_split (rev y)) as (w & Hy & _).
  exists (rev w).
  rewrite <- rev_app_distr, <- Hy, rev_involutive. reflexivity.
Qed.

Lemma strip_idem (s : pystr) : strip (strip s) = strip s.
Proof.
  unfold strip. set (y := lstrip s).
  assert (Hy : match y with [] => True | c :: _ => isspace c = false end)
    by apply lstrip_head.
  set (r := rev (lstrip (rev y))).
  assert (Hr : lstrip r = r).
  { apply lstrip_fixed.
    destruct (rstrip_split y) as (w & Hw). fold r in Hw.
    destruct r as [| c r']; [exact I |].
    rewrite Hw in Hy. exact Hy. }
  rewrite Hr. unfold r. rewrite rev_involutive, lstrip_idem. reflexivity.
Qed.

Lemma strip_nil_iff (s : pystr) : strip s = [] <-> forallb isspace s = true.
Proof.
  unfold strip. split.
  - intros H.
    assert (H1 : lstrip (rev (lstrip s)) = []).
    { rewrite <- (rev_involutive (lstrip (rev (lstrip s)))), H. reflexivity. }
    apply lstrip_nil_iff in H1. rewrite forallb_forall in H1.
    assert (H2 : lstrip s = []).
    { pose proof (lstrip_head s) as Hh.
      destruct (lstrip s) as [| c r]; [reflexivity |].
      rewrite (H1 c) in Hh; [discriminate |].
      apply in_rev. rewrite rev_involutive. left. reflexivity. }
    apply lstrip_nil_iff. exact H2.
  - intros H. apply lstrip_nil_iff in H. rewrite H. reflexivity.
Qed.

End Strip.

(** * Overlay validation *)

Section Validation.

Local Open Scope Q_scope.

Lemma of_int_sign (n : Z) (f : float) :
  of_int n = inr f ->
  exists q, f = Fin q /\ ((0 <= n)%Z -> 0 <= q) /\ ((0 < n)%Z -> 0 < q).
Proof.
  unfold of_int. intros H.
  destruct (of_Q_cases (inject_Z n)) as [[E _] | [[E _] | [E _]]];
    rewrite E in H; try discriminate.
  injection H as <-. eexists. split; [reflexivity |].
  assert (Hpos : (0 < n)%Z -> 1 <= round (inject_Z n)).
  { intros Hn. pose proof (inject_Z_pos n Hn) as HnQ.
    rewrite (round_of_pos _ HnQ).
    apply (round_pos_ge _ 1 1 0).
    - unfold prec. lia.
    - unfold emin. lia.
    - reflexivity.
    - change 1 with (inject_Z 1). rewrite <- Zle_Qle. lia. }
  split.
  - intros Hn. destruct (Z.eq_dec n 0) as [-> | Hne]; [discriminate |].
    assert (Hn' : (0 < n)%Z) by lia. specialize (Hpos Hn'). lra.
  - intros Hn. specialize (Hpos Hn). lra.
Qed.

Lemma of_int_total (n : Z) :
  (Z.abs n <= 2 ^ 1023)%Z -> exists q, of_int n = inr (Fin q).
Proof.
  intros Hn. unfold of_int.
  assert (Hbound : forall m : Z, (0 < m <= 2 ^ 1023)%Z ->
            0 <= round_pos (inject_Z m) <= 2 ^ (emax - 1)).
  { intros m Hm. pose proof (inject_Z_pos m ltac:(lia)) as HmQ. split.
    - apply round_pos_nonneg. exact HmQ.
    - apply (round_pos_le _ _ 1 (emax - 1)).
      + unfold prec. lia.
      + unfold emin, emax. lia.
      + rewrite Qmult_1_l. reflexivity.
      + exact HmQ.
      + apply (inject_Z_le_pow2 m 1023); unfold emax; lia. }
  pose proof (pow2_lt (emax - 1) emax ltac:(lia)) as Hlt.
  pose proof (pow2_pos (emax - 1)) as Hp.
  destruct (of_Q_cases (inject_Z n)) as [[_ H] | [[_ H] | [H _]]].
  - exfalso. unfold round in H.
    destruct (Qcompare_spec (inject_Z n) 0) as [E | E | E].
    + lra.
    + assert (Hm : (0 < - n <= 2 ^ 1023)%Z).
      { change 0 with (inject_Z 0) in E. rewrite <- Zlt_Qlt in E. lia. }
      specialize (Hbound (- n)%Z Hm). rewrite inject_Z_opp in Hbound. lra.
    + assert (Hm : (0 < n <= 2 ^ 1023)%Z).
      { change 0 with (inject_Z 0) in E. rewrite <- Zlt_Qlt in E. lia. }
      specialize (Hbound n Hm). lra.
  - exfalso. unfold round in H.
    destruct (Qcompare_spec (inject_Z n) 0) as [E | E | E].
    + lra.
    + assert (Hm : (0 < - n <= 2 ^ 1023)%Z).
      { change 0 with (inject_Z 0) in E. rewrite <- Zlt_Qlt in E. lia. }
      specialize (Hbound (- n)%Z Hm). rewrite inject_Z_opp in Hbound. lra.
    + assert (Hm : (0 < n <= 2 ^ 1023)%Z).
      { change 0 with (inject_Z 0) in E. rewrite <- Zlt_Qlt in E. lia. }
      specialize (Hbound n Hm). lra.
  - rewrite H. eexists. reflexivity.
Qed.

(** *** The order of floats *)

Lemma Qle_bool_false (a b : Q) : Qle_bool a b = false -> b < a.
Proof.
  intros H. apply Qnot_le_lt. intros C. apply Qle_bool_iff in C. congruence.
Qed.

Lemma flt_fle (a b : float) : flt a b = true -> fle a b = true.
Proof.
  destruct a as [x | | |], b as [y | | |]; cbn; try congruence.
  intros H. apply negb_true_iff, Qle_bool_false in H.
  apply Qle_bool_iff. lra.
Qed.

Lemma fle_flt_false (a b : float) : fle a b = true -> flt b a = false.
Proof.
  destruct a as [x | | |], b as [y | | |]; cbn; try congruence.
  intros H. rewrite H. reflexivity.
Qed.

(** Two floats that are not NaN are comparable. *)
Lemma flt_false_fle (a b : float) :
  a <> NaN -> b <> NaN -> flt a b = false -> fle b a = true.
Proof.
  destruct a as [x | | |], b as [y | | |]; cbn; try congruence.
  intros _ _ H. apply negb_false_iff in H. exact H.
Qed.

Lemma fle_trans (a b c : float) :
  fle a b = true -> fle b c = true -> fle a c = true.
Proof.
  destruct a as [x | | |], b as [y | | |], c as [z | | |]; cbn;
    try congruence.
  intros H1 H2. apply Qle_bool_iff in H1, H2. apply Qle_bool_iff. lra.
Qed.

Lemma flt_fle_trans (a b c : float) :
  flt a b = true -> fle b c = true -> flt a c = true.
Proof.
  destruct a as [x | | |], b as [y | | |], c as [z | | |]; cbn;
    try congruence.
  intros H1 H2. apply negb_true_iff, Qle_bool_false in H1.
  apply Qle_bool_iff in H2. apply negb_true_iff, not_true_is_false.
  intros C. apply Qle_bool_iff in C. lra.
Qed.

Lemma flt_trans (a b c : float) :
  flt a b = true -> flt b c = true -> flt a c = true.
Proof.
  intros H1 H2. apply (flt_fle_trans a b c H1). apply flt_fle. exact H2.
Qed.

Lemma fle_not_nan (a b : float) : fle a b = true -> a <> NaN /\ b <> NaN.
Proof.
  destruct a as [x | | |], b as [y | | |]; cbn; intros H; split; congruence.
Qed.

Lemma flt_not_nan (a b : float) : flt a b = true -> a <> NaN /\ b <> NaN.
Proof. intros H. apply fle_not_nan, flt_fle, H. Qed.

(** *** Conversion of the numbers *)

Lemma to_float_not_negative (v : json) (f : float) :
  is_number v = true -> number_lt_zero v = false -> to_float v = inr f ->
  (fle (Fin 0) f = true \/ f = NaN) /\ (not_nan v = true -> f <> NaN).
Proof.
  destruct v as [| b | n | x | | |]; cbn [is_number number_lt_zero to_float];
    try discriminate; intros _ Hv Hf.
  - injection Hf as <-. split; [left; destruct b; reflexivity | discriminate].
  - destruct (of_int_sign n f Hf) as (q & -> & Hq & _).
    split; [left | discriminate].
    cbn. apply Qle_bool_iff, Hq. apply Z.ltb_ge in Hv. exact Hv.
  - injection Hf as <-. split.
    + destruct x as [q | | |]; cbn in *; try discriminate.
      * left. apply negb_false_iff in Hv. exact Hv.
      * left. reflexivity.
      * right. reflexivity.
    + destruct x; cbn; congruence.
Qed.

Lemma to_float_positive (v : json) (f : float) :
  is_number v = true -> number_le_zero v = false -> to_float v = inr f ->
  (flt (Fin 0) f = true \/ f = NaN) /\ (not_nan v = true -> f <> NaN).
Proof.
  destruct v as [| b | n | x | | |]; cbn [is_number number_le_zero to_float];
    try discriminate; intros _ Hv Hf.
  - injection Hf as <-. split; [left | discriminate].
    destruct b; [reflexivity | discriminate].
  - destruct (of_int_sign n f Hf) as (q & -> & _ & Hq).
    split; [left | discriminate].
    apply Z.leb_gt in Hv. specialize (Hq Hv).
    cbn. apply negb_true_iff, not_true_is_false.
    intros C. apply Qle_bool_iff in C. lra.
  - injection Hf as <-. split.
    + destruct x as [q | | |]; cbn in *; try discriminate.
      * left. rewrite Hv. reflexivity.
      * left. reflexivity.
      * right. reflexivity.
    + destruct x; cbn; congruence.
Qed.

(** The text that validation stores. *)
Lemma stored_text_valid (s : pystr) :
  (len (strip s) =? 0)%Z = false ->
  let stored := strip (if (len s >? 100)%Z then firstn 97 s ++ ellipsis else s) in
  stored <> [] /\ strip stored = stored /\ (len stored <= 100)%Z.
Proof.
  intros Hne. cbv zeta.
  split; [| split].
  - destruct (len s >? 100)%Z eqn:E.
    + intros H. apply strip_nil_iff in H.
      rewrite forallb_app in H. apply andb_true_iff in H.
      destruct H as [_ H]. discriminate.
    + intros H. rewrite H in Hne. discriminate.
  - apply strip_idem.
  - set (s' := if (len s >? 100)%Z then firstn 97 s ++ ellipsis else s).
    pose proof (strip_length s') as Hl.
    assert (Hs' : (len s' <= 100)%Z).
    { unfold s'. destruct (Z.gtb_spec (len s) 100) as [E | E].
      - unfold len in *. rewrite length_app, length_firstn.
        change (List.length ellipsis) with 3%nat. lia.
      - exact E. }
    apply Z.le_trans with (len s'); [exact Hl | exact Hs'].
Qed.

(** The duration that validation converts: the instruction's own when it
    is a number that is not [<= 0], otherwise 3.0. *)
Lemma kept_duration (du : json) :
  let du' := if negb (is_number du) || number_le_zero du
             then JFloat (Fin 3) else du in
  is_number du' = true /\ number_le_zero du' = false /\
  (not_nan du = true -> not_nan du' = true).
Proof.
  cbv zeta. destruct (is_number du) eqn:Edu; cbn [negb orb].
  - destruct (number_le_zero du) eqn:Ed.
    + split; [reflexivity |]. split; reflexivity.
    + split; [exact Edu |]. split; [exact Ed | exact (fun H => H)].
  - split; [reflexivity |]. split; reflexivity.
Qed.

(** What one validated instruction satisfies. *)
Lemma validate_item_kept (item : json) (o : overlay) :
  validate_item item = inr (Some o) ->
  kept_overlay o /\
  (ts_not_nan item = true -> ordered_ts o) /\
  (item_not_nan item = true -> valid_overlay o).
Proof.
  destruct item as [| | | | | | fields];
    cbn [validate_item ts_not_nan item_not_nan]; try (intros H; discriminate).
  set (ts := dict_get fields (lit "timestamp") (JInt 0)).
  set (tx := dict_get fields (lit "text") (JStr [])).
  set (du := dict_get fields (lit "duration") (JFloat (Fin 3))).
  destruct (is_number ts) eqn:Ets; cbn [negb orb]; [| intros H; discriminate].
  destruct (number_lt_zero ts) eqn:Ev; [intros H; discriminate |].
  destruct tx as [| | | | s | |]; try (intros H; discriminate).
  destruct (len (strip s) =? 0)%Z eqn:Es; [intros H; discriminate |].
  destruct (kept_duration du) as (Hdu1 & Hdu2 & Hdu3).
  set (du' := if negb (is_number du) || number_le_zero du
              then JFloat (Fin 3) else du) in *.
  destruct (to_float ts) as [e | t] eqn:Et; cbn [bind]; [intros H; discriminate |].
  destruct (to_float du') as [e | d] eqn:Ed; cbn [bind]; [intros H; discriminate |].
  intros H. injection H as <-.
  destruct (to_float_not_negative ts t Ets Ev Et) as (Ht & Htn).
  destruct (to_float_positive du' d Hdu1 Hdu2 Ed) as (Hd & Hdn).
  destruct (stored_text_valid s Es) as (H1 & H2 & H3).
  unfold kept_overlay, valid_overlay, ordered_ts. cbn [timestamp duration text].
  split; [| split].
  - split; [exact Ht |]. split; [exact Hd |].
    split; [exact H1 |]. split; [exact H2 | exact H3].
  - exact Htn.
  - intros Hnan. apply andb_true_iff in Hnan. destruct Hnan as [Hn1 Hn2].
    split; [destruct Ht as [Ht | Ht]; [exact Ht | elim (Htn Hn1 Ht)] |].
    split; [destruct Hd as [Hd | Hd]; [exact Hd | elim (Hdn (Hdu3 Hn2) Hd)] |].
    split; [exact H1 |]. split; [exact H2 | exact H3].
Qed.

Lemma validate_items_kept (items : list json) (l : list overlay) :
  validate_items items = inr l ->
  Forall kept_overlay l /\
  (forallb ts_not_nan items = true -> Forall ordered_ts l) /\
  (forallb item_not_nan items = true -> Forall valid_overlay l).
Proof.
  revert l. induction items as [| item rest IH]; intros l;
    cbn [validate_items forallb].
  - intros H. injection H as <-. repeat split; constructor.
  - destruct (validate_item item) as [e | r] eqn:Ei; cbn [bind];
      [intros H; discriminate |].
    destruct (validate_items rest) as [e | l'] eqn:Er; cbn [bind];
      [intros H; discriminate |].
    intros H. injection H as <-.
    destruct (IH l' eq_refl) as (IH1 & IH2 & IH3).
    destruct r as [o |].
    + destruct (validate_item_kept item o Ei) as (Hk & Ho & Hv).
      split; [constructor; assumption |]. split.
      * intros H. apply andb_true_iff in H. destruct H as [Ha Hb].
        constructor; [exact (Ho Ha) | exact (IH2 Hb)].
      * intros H. apply andb_true_iff in H. destruct H as [Ha Hb].
        constructor; [exact (Hv Ha) | exact (IH3 Hb)].
    + split; [exact IH1 |]. split.
      * intros H. apply andb_true_iff in H. destruct H as [_ Hb]. exact (IH2 Hb).
      * intros H. apply andb_true_iff in H. destruct H as [_ Hb]. exact (IH3 Hb).
Qed.

(** Validation returns when no number overflows. *)
Lemma validate_item_total (item : json) :
  item_in_range item = true -> exists r, validate_item item = inr r.
Proof.
  destruct item as [| | | | | | fields]; cbn [validate_item item_in_range];
    try (intros _; eexists; reflexivity).
  set (ts := dict_get fields (lit "timestamp") (JInt 0)).
  set (tx := dict_get fields (lit "text") (JStr [])).
  set (du := dict_get fields (lit "duration") (JFloat (Fin 3))).
  intros Hr. apply andb_true_iff in Hr. destruct Hr as [Hts Hdu].
  destruct (negb (is_number ts) || number_lt_zero ts) eqn:E1;
    [eexists; reflexivity |].
  destruct tx as [| | | | s | |]; try (eexists; reflexivity).
  destruct (len (strip s) =? 0)%Z; [eexists; reflexivity |].
  set (du' := if negb (is_number du) || number_le_zero du
              then JFloat (Fin 3) else du).
  assert (Hfloat : forall v, is_number v = true -> in_float_range v = true ->
            exists f, to_float v = inr f).
  { intros v Hv Hrange. destruct v as [| b | n | x | | |]; try discriminate.
    - eexists. reflexivity.
    - cbn in Hrange. apply Z.leb_le in Hrange.
      destruct (of_int_total n Hrange) as (q & Hq). exists (Fin q). exact Hq.
    - eexists. reflexivity. }
  apply orb_false_iff in E1. destruct E1 as [E1 _]. apply negb_false_iff in E1.
  destruct (Hfloat ts E1 Hts) as (t & Ht). rewrite Ht. cbn [bind].
  assert (Hdu' : is_number du' = true /\ in_float_range du' = true).
  { unfold du'. destruct (is_number du) eqn:Edu; cbn [negb orb].
    - destruct (number_le_zero du); split; auto.
    - split; reflexivity. }
  destruct (Hfloat du' (proj1 Hdu') (proj2 Hdu')) as (d & Hd). rewrite Hd.
  cbn [bind]. eexists. reflexivity.
Qed.

Lemma validate_items_total (items : list json) :
  forallb item_in_range items = true -> exists l, validate_items items = inr l.
Proof.
  induction items as [| item rest IH]; cbn [forallb validate_items].
  - intros _. eexists. reflexivity.
  - intros H. apply andb_true_iff in H. destruct H as [Hi Hr].
    destruct (validate_item_total item Hi) as (r & ->).
    destruct (IH Hr) as (l & ->). cbn [bind]. eexists. reflexivity.
Qed.

End Validation.

(** *** The sort *)

Section Sort.

Local Open Scope nat_scope.

Lemma binary_insert_perm (sorted : list overlay) (pivot : overlay) :
  Permutation (sorted ++ [pivot]) (binary_insert sorted pivot).
Proof.
  unfold binary_insert.
  set (i := bisect _ _ _ _ _).
  rewrite <- (firstn_skipn i sorted) at 1. rewrite <- app_assoc.
  apply Permutation_app_head. symmetry. apply Permutation_cons_append.
Qed.

Lemma insert_all_perm (rest init : list overlay) :
  Permutation (init ++ rest) (fold_left binary_insert rest init).
Proof.
  revert init. induction rest as [| x rest IH]; intros init; cbn [fold_left].
  - rewrite app_nil_r. reflexivity.
  - rewrite <- IH. rewrite <- binary_insert_perm.
    rewrite <- app_assoc. reflexivity.
Qed.

(** The sort returns the same overlays, whatever their timestamps. *)
Lemma sort_perm (l : list overlay) : Permutation l (sort_by_timestamp l).
Proof.
  unfold sort_by_timestamp. destruct (count_run l) as [n descending].
  rewrite <- insert_all_perm.
  rewrite <- (firstn_skipn n l) at 1. apply Permutation_app_tail.
  destruct descending; [apply Permutation_rev | reflexivity].
Qed.

Lemma sorted_nth (l : list overlay) (d : overlay) (i j : nat) :
  StronglySorted ts_le l -> i < j < List.length l ->
  ts_le (nth i l d) (nth j l d).
Proof.
  intros Hs. revert i j. induction Hs as [| a l Hs IH Ha]; intros i j Hij.
  - cbn in Hij. lia.
  - destruct j as [| j]; [lia |]. cbn [List.length] in Hij.
    destruct i as [| i]; cbn [nth].
    + rewrite Forall_forall in Ha. apply Ha. apply nth_In. lia.
    + apply IH. lia.
Qed.

Lemma ordered_nth (l : list overlay) (d : overlay) (i : nat) :
  Forall ordered_ts l -> i < List.length l -> ordered_ts (nth i l d).
Proof.
  intros H Hi. rewrite Forall_forall in H. apply H, nth_In, Hi.
Qed.

(** The binary search finds the place after the items that are not
    greater than the pivot. *)
Lemma bisect_spec (pivot : overlay) (sorted : list overlay) :
  StronglySorted ts_le sorted -> Forall ordered_ts sorted -> ordered_ts pivot ->
  forall fuel l r,
    l <= r <= List.length sorted -> r - l <= fuel ->
    (forall j, j < l -> ts_lt pivot (nth j sorted pivot) = false) ->
    (forall j, r <= j < List.length sorted ->
               ts_lt pivot (nth j sorted pivot) = true) ->
    let i := bisect fuel pivot sorted l r in
    i <= List.length sorted /\
    (forall j, j < i -> ts_lt pivot (nth j sorted pivot) = false) /\
    (forall j, i <= j < List.length sorted ->
               ts_lt pivot (nth j sorted pivot) = true).
Proof.
  intros Hs Hord Hp fuel.
  induction fuel as [| fuel IH]; intros l r Hlr Hfuel Hlow Hhigh; cbn [bisect].
  - assert (l = r) by lia. subst r.
    split; [lia |]. split; assumption.
  - destruct (Nat.ltb_spec l r) as [Hlt | Hge].
    + set (p := l + (r - l) / 2).
      assert (Hpl : l <= p < r).
      { unfold p. pose proof (Nat.div_mod_eq (r - l) 2) as E.
        pose proof (Nat.mod_upper_bound (r - l) 2 ltac:(lia)) as U. lia. }
      destruct (ts_lt pivot (nth p sorted pivot)) eqn:Ep.
      * apply IH; [lia | lia | exact Hlow |].
        intros j Hj. destruct (Nat.eq_dec j p) as [-> | Hne]; [exact Ep |].
        pose proof (sorted_nth sorted pivot p j Hs ltac:(lia)) as Hle.
        unfold ts_lt, ts_le in *.
        exact (flt_fle_trans _ _ _ Ep Hle).
      * apply IH; [lia | lia | | exact Hhigh].
        intros j Hj.
        assert (Hpp : fle (timestamp (nth p sorted pivot)) (timestamp pivot)
                      = true).
        { apply flt_false_fle; [exact Hp | | exact Ep].
          apply (ordered_nth sorted pivot p Hord). lia. }
        destruct (Nat.eq_dec j p) as [-> | Hne]; [exact Ep |].
        pose proof (sorted_nth sorted pivot j p Hs ltac:(lia)) as Hle.
        unfold ts_lt, ts_le in *.
        apply fle_flt_false. exact (fle_trans _ _ _ Hle Hpp).
    + assert (l = r) by lia. subst r.
      split; [lia |]. split; assumption.
Qed.

(** Where the pivot is put: after the items that are not greater, before
    the greater ones. *)
Lemma binary_insert_spec (sorted : list overlay) (pivot : overlay) :
  StronglySorted ts_le sorted -> Forall ordered_ts sorted -> ordered_ts pivot ->
  exists before after,
    sorted = before ++ after /\
    binary_insert sorted pivot = before ++ pivot :: after /\
    Forall (fun x => ts_lt pivot x = false) before /\
    Forall (fun x => ts_lt pivot x = true) after.
Proof.
  intros Hs Hord Hp. unfold binary_insert.
  destruct (bisect_spec pivot sorted Hs Hord Hp (List.length sorted) 0
              (List.length sorted))
    as (Hi & Hlow & Hhigh); try lia.
  set (i := bisect _ _ _ _ _) in *.
  exists (firstn i sorted), (skipn i sorted).
  split; [symmetry; apply firstn_skipn |]. split; [reflexivity |]. split.
  - apply Forall_nth. intros j d Hj. rewrite length_firstn in Hj.
    rewrite (nth_indep _ d pivot) by (rewrite length_firstn; exact Hj).
    rewrite nth_firstn.
    destruct (Nat.ltb_spec j i) as [Hji | Hji]; [| lia].
    apply Hlow. exact Hji.
  - apply Forall_nth. intros j d Hj. rewrite length_skipn in Hj.
    rewrite (nth_indep _ d pivot) by (rewrite length_skipn; exact Hj).
    rewrite nth_skipn. apply Hhigh. lia.
Qed.

Lemma sorted_middle (before after : list overlay) (x : overlay) :
  StronglySorted ts_le (before ++ after) ->
  Forall (fun y => ts_le y x) before -> Forall (ts_le x) after ->
  StronglySorted ts_le (before ++ x :: after).
Proof.
  induction before as [| b before IH]; cbn [app]; intros Hs Hb Ha.
  - constructor; assumption.
  - inversion Hs as [| ? ? Hs' Hall]; subst.
    inversion Hb as [| ? ? Hbx Hb']; subst.
    constructor; [apply IH; assumption |].
    apply Forall_app in Hall. destruct Hall as [H1 H2].
    apply Forall_app. split; [exact H1 |]. constructor; [exact Hbx | exact H2].
Qed.

Lemma binary_insert_sorted (sorted : list overlay) (pivot : overlay) :
  StronglySorted ts_le sorted -> Forall ordered_ts sorted -> ordered_ts pivot ->
  StronglySorted ts_le (binary_insert sorted pivot).
Proof.
  intros Hs Hord Hp.
  destruct (binary_insert_spec sorted pivot Hs Hord Hp)
    as (before & after & -> & -> & Hb & Ha).
  apply Forall_app in Hord. destruct Hord as [Hob Hoa].
  apply sorted_middle; [exact Hs | |].
  - rewrite Forall_forall in *. intros y Hy.
    apply flt_false_fle; [exact Hp | exact (Hob y Hy) | exact (Hb y Hy)].
  - rewrite Forall_forall in *. intros y Hy.
    apply flt_fle. exact (Ha y Hy).
Qed.

(** An item greater than the pivot does not share its timestamp. *)
Lemma greater_not_at (key : float) (pivot x : overlay) :
  at_timestamp key pivot = true -> ts_lt pivot x = true ->
  at_timestamp key x = false.
Proof.
  unfold at_timestamp, ts_lt. intros Hk Hlt.
  apply andb_true_iff in Hk. destruct Hk as [Hk1 Hk2].
  apply andb_false_iff. right.
  destruct (fle (timestamp x) key) eqn:E; [| reflexivity].
  pose proof (fle_trans _ _ _ E Hk1) as Hxp.
  apply fle_flt_false in Hxp. congruence.
Qed.

Lemma filter_none (key : float) (pivot : overlay) (l : list overlay) :
  at_timestamp key pivot = true ->
  Forall (fun x => ts_lt pivot x = true) l ->
  filter (at_timestamp key) l = [].
Proof.
  intros Hk H. induction H as [| x l Hx _ IH]; [reflexivity |].
  cbn [filter]. rewrite (greater_not_at key pivot x Hk Hx). exact IH.
Qed.

(** The insertion keeps the order in which overlays of one timestamp
    arrived. *)
Lemma binary_insert_stable (key : float) (sorted : list overlay)
    (pivot : overlay) :
  StronglySorted ts_le sorted -> Forall ordered_ts sorted -> ordered_ts pivot ->
  filter (at_timestamp key) (binary_insert sorted pivot)
  = filter (at_timestamp key) (sorted ++ [pivot]).
Proof.
  intros Hs Hord Hp.
  destruct (binary_insert_spec sorted pivot Hs Hord Hp)
    as (before & after & -> & -> & Hb & Ha).
  rewrite !filter_app. cbn [filter].
  destruct (at_timestamp key pivot) eqn:Hk; [| rewrite app_nil_r; reflexivity].
  rewrite (filter_none key pivot after Hk Ha). rewrite app_nil_r. reflexivity.
Qed.

Lemma binary_insert_ordered (sorted : list overlay) (pivot : overlay) :
  Forall ordered_ts sorted -> ordered_ts pivot ->
  Forall ordered_ts (binary_insert sorted pivot).
Proof.
  intros Hord Hp. apply (Permutation_Forall (binary_insert_perm sorted pivot)).
  apply Forall_app. split; [exact Hord | constructor; [exact Hp | constructor]].
Qed.

Lemma insert_all_spec (rest init : list overlay) :
  StronglySorted ts_le init -> Forall ordered_ts init -> Forall ordered_ts rest ->
  StronglySorted ts_le (fold_left binary_insert rest init) /\
  forall key,
    filter (at_timestamp key) (fold_left binary_insert rest init)
    = filter (at_timestamp key) (init ++ rest).
Proof.
  revert init. induction rest as [| x rest IH]; intros init Hs Hord Hrest;
    cbn [fold_left].
  - rewrite app_nil_r. split; [exact Hs | reflexivity].
  - inversion Hrest as [| ? ? Hx Hrest']; subst.
    destruct (IH (binary_insert init x)
                (binary_insert_sorted init x Hs Hord Hx)
                (binary_insert_ordered init x Hord Hx) Hrest') as (H1 & H2).
    split; [exact H1 |]. intros key. rewrite H2, filter_app.
    rewrite (binary_insert_stable key init x Hs Hord Hx).
    rewrite <- filter_app, <- app_assoc. reflexivity.
Qed.

(** *** The leading run *)

Lemma run_ascending_sorted (rest : list overlay) :
  forall prev, ordered_ts prev -> Forall ordered_ts rest ->
  StronglySorted ts_le (prev :: firstn (run_ascending prev rest) rest).
Proof.
  induction rest as [| x rest IH]; intros prev Hp Hrest; cbn [run_ascending].
  - constructor; constructor.
  - inversion Hrest as [| ? ? Hx Hrest']; subst.
    destruct (ts_lt x prev) eqn:E; cbn [firstn].
    + constructor; constructor.
    + specialize (IH x Hx Hrest').
      assert (Hpx : ts_le prev x) by (apply flt_false_fle; assumption).
      constructor; [exact IH |].
      constructor; [exact Hpx |].
      inversion IH as [| ? ? _ Hall]; subst.
      rewrite Forall_forall in *. intros y Hy.
      exact (fle_trans _ _ _ Hpx (Hall y Hy)).
Qed.

Lemma run_descending_descends (rest : list overlay) :
  forall prev,
  descends (prev :: firstn (run_descending prev rest) rest).
Proof.
  induction rest as [| x rest IH]; intros prev; cbn [run_descending].
  - constructor; constructor.
  - destruct (ts_lt x prev) eqn:E; cbn [firstn].
    + specialize (IH x).
      constructor; [exact IH |].
      constructor; [exact E |].
      inversion IH as [| ? ? _ Hall]; subst.
      rewrite Forall_forall in *. intros y Hy.
      exact (flt_trans _ _ _ (Hall y Hy) E).
    + constructor; constructor.
Qed.

Lemma rev_descends_sorted (l : list overlay) :
  descends l -> StronglySorted ts_le (rev l).
Proof.
  intros H. induction H as [| a l Hl IH Ha]; cbn [rev]; [constructor |].
  apply sorted_middle.
  - rewrite app_nil_r. exact IH.
  - apply Forall_rev. rewrite Forall_forall in *. intros y Hy.
    apply flt_fle. exact (Ha y Hy).
  - constructor.
Qed.

Lemma rev_descends_stable (key : float) (l : list overlay) :
  descends l ->
  filter (at_timestamp key) (rev l) = filter (at_timestamp key) l.
Proof.
  intros H. induction H as [| a l Hl IH Ha]; [reflexivity |].
  cbn [rev]. rewrite filter_app, IH. cbn [filter].
  destruct (at_timestamp key a) eqn:Hk; [| apply app_nil_r].
  assert (Hnone : filter (at_timestamp key) l = []).
  { clear IH Hl. induction Ha as [| x l Hx _ IH]; [reflexivity |].
    cbn [filter].
    assert (Hx' : at_timestamp key x = false).
    { unfold at_timestamp in *. apply andb_true_iff in Hk.
      destruct Hk as [Hk1 Hk2]. apply andb_false_iff. left.
      destruct (fle key (timestamp x)) eqn:E; [| reflexivity].
      pose proof (fle_trans _ _ _ Hk2 E) as Hax.
      apply fle_flt_false in Hax. unfold ts_lt in Hx. congruence. }
    rewrite Hx'. exact IH. }
  rewrite Hnone. reflexivity.
Qed.

(** The sorted part the insertions start from. *)
Lemma leading_run_spec (l : list overlay) :
  Forall ordered_ts l ->
  let run := firstn (fst (count_run l)) l in
  let start := if snd (count_run l) then rev run else run in
  StronglySorted ts_le start /\
  forall key, filter (at_timestamp key) start = filter (at_timestamp key) run.
Proof.
  intros Hord. cbv zeta.
  destruct l as [| a [| b rest]]; cbn [count_run fst snd List.length firstn].
  - split; [constructor | reflexivity].
  - split; [constructor; constructor | reflexivity].
  - inversion Hord as [| ? ? Ha Hord']; subst.
    inversion Hord' as [| ? ? Hb Hrest]; subst.
    destruct (ts_lt b a) eqn:E; cbn [fst snd Nat.add firstn].
    + assert (Hd : descends (a :: b :: firstn (run_descending b rest) rest)).
      { pose proof (run_descending_descends rest b) as Hrun.
        constructor; [exact Hrun |].
        constructor; [exact E |].
        inversion Hrun as [| ? ? _ Hall]; subst.
        rewrite Forall_forall in *. intros y Hy.
        exact (flt_trans _ _ _ (Hall y Hy) E). }
      split; [apply rev_descends_sorted, Hd |].
      intros key. apply rev_descends_stable, Hd.
    + split; [| reflexivity].
      pose proof (run_ascending_sorted rest b Hb Hrest) as Hrun.
      assert (Hab : ts_le a b) by (apply flt_false_fle; assumption).
      constructor; [exact Hrun |].
      constructor; [exact Hab |].
      inversion Hrun as [| ? ? _ Hall]; subst.
      rewrite Forall_forall in *. intros y Hy.
      exact (fle_trans _ _ _ Hab (Hall y Hy)).
Qed.

(** When no timestamp is NaN the sort returns a sorted list, and keeps the
    order in which overlays of one timestamp arrived. *)
Lemma sort_spec (l : list overlay) :
  Forall ordered_ts l ->
  StronglySorted ts_le (sort_by_timestamp l) /\
  forall key,
    filter (at_timestamp key) (sort_by_timestamp l)
    = filter (at_timestamp key) l.
Proof.
  intros Hord. destruct (leading_run_spec l Hord) as (Hs & Hf).
  unfold sort_by_timestamp.
  destruct (count_run l) as [n descending]. cbn [fst snd] in *.
  assert (Hparts : Forall ordered_ts (firstn n l) /\ Forall ordered_ts (skipn n l)).
  { apply Forall_app. rewrite firstn_skipn. exact Hord. }
  destruct Hparts as [Hrun Hrest].
  assert (Hstart : Forall ordered_ts
                     (if descending then rev (firstn n l) else firstn n l)).
  { destruct descending; [apply Forall_rev |]; exact Hrun. }
  destruct (insert_all_spec (skipn n l) _ Hs Hstart Hrest) as (H1 & H2).
  split; [exact H1 |]. intros key.
  rewrite H2, filter_app, Hf, <- filter_app, firstn_skipn. reflexivity.
Qed.

Lemma sort_sorted (l : list overlay) :
  Forall ordered_ts l -> StronglySorted ts_le (sort_by_timestamp l).
Proof. intros H. apply (sort_spec l H). Qed.

(** *** What the sort leaves, whatever the timestamps *)

Lemma flt_asym (a b : float) : flt a b = true -> flt b a = false.
Proof. intros H. apply fle_flt_false, flt_fle, H. Qed.

(** The binary search stops between an item the pivot is not less than
    and an item the pivot is less than. *)
Lemma bisect_edges (pivot : overlay) (sorted : list overlay) :
  forall fuel l r,
    l <= r <= List.length sorted -> r - l <= fuel ->
    (l = 0 \/ ts_lt pivot (nth (l - 1) sorted pivot) = false) ->
    (r = List.length sorted \/ ts_lt pivot (nth r sorted pivot) = true) ->
    let i := bisect fuel pivot sorted l r in
    i <= List.length sorted /\
    (i = 0 \/ ts_lt pivot (nth (i - 1) sorted pivot) = false) /\
    (i = List.length sorted \/ ts_lt pivot (nth i sorted pivot) = true).
Proof.
  intros fuel.
  induction fuel as [| fuel IH]; intros l r Hlr Hfuel Hlow Hhigh; cbn [bisect].
  - assert (l = r) by lia. subst r. split; [lia |]. split; assumption.
  - destruct (Nat.ltb_spec l r) as [Hlt | Hge].
    + set (p := l + (r - l) / 2).
      assert (Hpl : l <= p < r).
      { unfold p. pose proof (Nat.div_mod_eq (r - l) 2) as E.
        pose proof (Nat.mod_upper_bound (r - l) 2 ltac:(lia)) as U. lia. }
      destruct (ts_lt pivot (nth p sorted pivot)) eqn:Ep.
      * apply IH; [lia | lia | exact Hlow | right; exact Ep].
      * apply IH; [lia | lia | | exact Hhigh].
        right. replace (p + 1 - 1) with p by lia. exact Ep.
    + assert (l = r) by lia. subst r. split; [lia |]. split; assumption.
Qed.

Lemma no_descent_tail (a : overlay) (l : list overlay) :
  no_descent (a :: l) -> no_descent l.
Proof. destruct l as [| b l]; [exact (fun H => H) | intros [_ H]; exact H]. Qed.

Lemma no_descent_insert (before after : list overlay) (pivot : overlay) :
  no_descent (before ++ after) ->
  (before = [] \/ ts_lt pivot (last before pivot) = false) ->
  (after = [] \/ ts_lt pivot (hd pivot after) = true) ->
  no_descent (before ++ pivot :: after).
Proof.
  intros Hnd Hb Ha.
  assert (Htail : no_descent after -> no_descent (pivot :: after)).
  { intros H. destruct after as [| b after]; [exact I |].
    destruct Ha as [Ha | Ha]; [discriminate |].
    split; [apply flt_asym; exact Ha | exact H]. }
  induction before as [| a before IH]; cbn [app] in *.
  - apply Htail. exact Hnd.
  - destruct before as [| a' before]; cbn [app] in *.
    + destruct Hb as [Hb | Hb]; [discriminate |].
      split; [exact Hb |]. apply Htail. exact (no_descent_tail a after Hnd).
    + destruct Hnd as [Haa Hnd]. split; [exact Haa |].
      apply IH; [exact Hnd |].
      right. destruct Hb as [Hb | Hb]; [discriminate | exact Hb].
Qed.

Lemma last_firstn (l : list overlay) (d : overlay) (i : nat) :
  0 < i <= List.length l -> last (firstn i l) d = nth (i - 1) l d.
Proof.
  revert i. induction l as [| a l IH]; intros i Hi; [cbn in Hi; lia |].
  destruct i as [| i]; [lia |]. cbn [List.length] in Hi.
  destruct i as [| i]; [reflexivity |].
  destruct l as [| b l]; [cbn in Hi; lia |].
  specialize (IH (S i) ltac:(cbn [List.length] in *; lia)).
  replace (S i - 1) with i in IH by lia.
  replace (S (S i) - 1) with (S i) by lia.
  change (nth (S i) (a :: b :: l) d) with (nth i (b :: l) d).
  rewrite <- IH. reflexivity.
Qed.

Lemma hd_skipn (l : list overlay) (d : overlay) (i : nat) :
  hd d (skipn i l) = nth i l d.
Proof.
  revert i. induction l as [| a l IH]; intros [| i]; cbn; try reflexivity.
  apply IH.
Qed.

Lemma binary_insert_no_descent (sorted : list overlay) (pivot : overlay) :
  no_descent sorted -> no_descent (binary_insert sorted pivot).
Proof.
  intros Hnd. unfold binary_insert.
  pose proof (bisect_edges pivot sorted (List.length sorted) 0
                (List.length sorted) ltac:(lia) ltac:(lia)
                (or_introl eq_refl) (or_introl eq_refl)) as H.
  cbv zeta in H. destruct H as (Hi & Hlow & Hhigh).
  set (i := bisect _ _ _ _ _) in *.
  apply no_descent_insert.
  - rewrite firstn_skipn. exact Hnd.
  - destruct Hlow as [-> | Hlow]; [left; reflexivity |].
    destruct (Nat.eq_dec i 0) as [-> | Hne]; [left; reflexivity |].
    right. rewrite last_firstn by lia. exact Hlow.
  - destruct Hhigh as [-> | Hhigh]; [left; apply skipn_all |].
    right. rewrite hd_skipn. exact Hhigh.
Qed.

Lemma insert_all_no_descent (rest init : list overlay) :
  no_descent init -> no_descent (fold_left binary_insert rest init).
Proof.
  revert init. induction rest as [| x rest IH]; intros init H; cbn [fold_left].
  - exact H.
  - apply IH, binary_insert_no_descent, H.
Qed.

Lemma run_ascending_no_descent (rest : list overlay) :
  forall prev, no_descent (prev :: firstn (run_ascending prev rest) rest).
Proof.
  induction rest as [| x rest IH]; intros prev; cbn [run_ascending].
  - exact I.
  - destruct (ts_lt x prev) eqn:E; cbn [firstn]; [exact I |].
    split; [exact E | apply IH].
Qed.

Lemma no_descent_snoc (l : list overlay) (a : overlay) :
  no_descent l -> (l = [] \/ ts_lt a (last l a) = false) ->
  no_descent (l ++ [a]).
Proof.
  intros Hnd Hl.
  apply (no_descent_insert l [] a); [rewrite app_nil_r; exact Hnd | exact Hl |].
  left. reflexivity.
Qed.

Lemma last_member (l : list overlay) (d : overlay) :
  l <> [] -> In (last l d) l.
Proof.
  induction l as [| a l IH]; intros H; [congruence |].
  destruct l as [| b l]; [left; reflexivity |].
  right. apply IH. discriminate.
Qed.

Lemma rev_descends_no_descent (l : list overlay) :
  descends l -> no_descent (rev l).
Proof.
  intros H. induction H as [| a l Hl IH Ha]; cbn [rev]; [exact I |].
  apply no_descent_snoc; [exact IH |].
  destruct (rev l) as [| b l'] eqn:E; [left; reflexivity |]. right.
  assert (Hin : In (last (b :: l') a) l).
  { apply in_rev. rewrite E. apply last_member. discriminate. }
  rewrite Forall_forall in Ha. apply flt_asym. exact (Ha _ Hin).
Qed.

(** The sorted list never steps down, even with NaN among the
    timestamps. *)
Lemma sort_no_descent (l : list overlay) : no_descent (sort_by_timestamp l).
Proof.
  unfold sort_by_timestamp.
  destruct (count_run l) as [n descending] eqn:Hrun.
  apply insert_all_no_descent.
  destruct l as [| a [| b rest]]; cbn [count_run List.length] in Hrun.
  - injection Hrun as <- <-. exact I.
  - injection Hrun as <- <-. exact I.
  - destruct (ts_lt b a) eqn:E; injection Hrun as <- <-; cbn [Nat.add firstn].
    + apply rev_descends_no_descent.
      pose proof (run_descending_descends rest b) as Hd.
      constructor; [exact Hd |].
      constructor; [exact E |].
      inversion Hd as [| ? ? _ Hall]; subst.
      rewrite Forall_forall in *. intros y Hy.
      exact (flt_trans _ _ _ (Hall y Hy) E).
    + split; [exact E | apply run_ascending_no_descent].
Qed.

Lemma run_ascending_whole (rest : list overlay) :
  forall prev, no_descent (prev :: rest) ->
  run_ascending prev rest = List.length rest.
Proof.
  induction rest as [| x rest IH]; intros prev Hnd; [reflexivity |].
  destruct Hnd as [E Hnd]. cbn [run_ascending List.length].
  rewrite E. f_equal. apply IH. exact Hnd.
Qed.

(** A list that never steps down is left as it is. *)
Lemma sort_no_descent_id (l : list overlay) :
  no_descent l -> sort_by_timestamp l = l.
Proof.
  intros Hnd. unfold sort_by_timestamp.
  assert (Hrun : count_run l = (List.length l, false)).
  { destruct l as [| a [| b rest]]; [reflexivity | reflexivity |].
    destruct Hnd as [E Hnd]. cbn [count_run]. rewrite E.
    rewrite (run_ascending_whole rest b Hnd). reflexivity. }
  rewrite Hrun, firstn_all, skipn_all. reflexivity.
Qed.

Lemma sort_idempotent (l : list overlay) :
  sort_by_timestamp (sort_by_timestamp l) = sort_by_timestamp l.
Proof. apply sort_no_descent_id, sort_no_descent. Qed.

End Sort.

Section ValidationResult.

(** What [_validate_overlay_data] returns, when it returns. *)
Lemma validate_overlay_data_spec (data : json) (l : list overlay) :
  _validate_overlay_data data = inr l ->
  exists items validated,
    overlays_of data = inr items /\ validate_items items = inr validated /\
    l = sort_by_timestamp validated.
Proof.
  unfold _validate_overlay_data.
  destruct (overlays_of data) as [e | items]; cbn [bind]; [discriminate |].
  destruct (validate_items items) as [e | validated] eqn:Ev; cbn [bind];
    [discriminate |].
  intros H. injection H as <-. exists items, validated.
  split; [reflexivity |]. split; [exact Ev | reflexivity].
Qed.

Lemma validate_items_In (items : list json) (l : list overlay)
    (item : json) (o : overlay) :
  validate_items items = inr l -> In item items ->
  validate_item item = inr (Some o) -> In o l.
Proof.
  revert l. induction items as [| i rest IH]; intros l; cbn [validate_items In].
  - intros _ [].
  - destruct (validate_item i) as [e | r] eqn:Ei; cbn [bind];
      [intros H; discriminate |].
    destruct (validate_items rest) as [e | l'] eqn:Er; cbn [bind];
      [intros H; discriminate |].
    intros H [-> | Hin] Ho; injection H as <-.
    + rewrite Ho in Ei. injection Ei as <-. left. reflexivity.
    + specialize (IH l' eq_refl Hin Ho). destruct r; [right |]; exact IH.
Qed.

(** An unusable duration is replaced by 3.0 and the instruction is kept. *)
Lemma validate_item_default_duration (fields : list (pystr * json)) :
  item_usable fields = true -> duration_unusable fields = true ->
  exists o, validate_item (JDict fields) = inr (Some o) /\ duration o = Fin 3.
Proof.
  unfold item_usable, duration_unusable. cbn [validate_item].
  set (ts := dict_get fields (lit "timestamp") (JInt 0)).
  set (tx := dict_get fields (lit "text") (JStr [])).
  intros Hu Hd.
  apply andb_true_iff in Hu. destruct Hu as [Hu Htx].
  apply andb_true_iff in Hu. destruct Hu as [Hu Hrange].
  apply andb_true_iff in Hu. destruct Hu as [Hnum Hval].
  apply negb_true_iff in Hval.
  rewrite Hnum, Hval. cbn [negb orb].
  destruct tx as [| | | | s | |]; try discriminate.
  apply negb_true_iff in Htx. rewrite Htx.
  assert (Hdur : (if negb (is_number
                             (dict_get fields (lit "duration") (JFloat (Fin 3))))
                     || number_le_zero
                          (dict_get fields (lit "duration") (JFloat (Fin 3)))
                  then JFloat (Fin 3)
                  else dict_get fields (lit "duration") (JFloat (Fin 3)))
                 = JFloat (Fin 3)).
  { unfold dict_get. destruct (dict_find (lit "duration") fields) as [v |].
    - rewrite Hd. reflexivity.
    - reflexivity. }
  rewrite Hdur.
  assert (Hts : exists t, to_float ts = inr t).
  { destruct ts as [| b | n | x | | |]; try discriminate.
    - eexists. reflexivity.
    - cbn in Hrange. apply Z.leb_le in Hrange.
      destruct (of_int_total n Hrange) as (q & Hq). exists (Fin q). exact Hq.
    - eexists. reflexivity. }
  destruct Hts as (t & ->). cbn [bind to_float ret].
  eexists. split; reflexivity.
Qed.

End ValidationResult.

(** A sorted list that holds a NaN timestamp holds nothing else. *)
Lemma sorted_with_nan (l : list overlay) (o : overlay) :
  StronglySorted ts_le l -> In o l -> timestamp o = NaN -> l = [o].
Proof.
  intros Hs. induction Hs as [| a l Hs IH Ha]; intros Hin Hnan; [destruct Hin |].
  destruct l as [| b l'].
  - destruct Hin as [-> | []]. reflexivity.
  - exfalso. destruct Hin as [-> | Hin].
    + inversion Ha as [| ? ? Hab _]; subst.
      unfold ts_le in Hab. rewrite Hnan in Hab. discriminate.
    + rewrite Forall_forall in Ha. specialize (Ha o Hin).
      unfold ts_le in Ha. rewrite Hnan in Ha.
      destruct (timestamp a); discriminate.
Qed.

(** C6: the claim fails when a timestamp is NaN.  The instruction passes
    the test [timestamp < 0], and the sort, which compares the keys with
    [<], returns the list in the order 2.0, NaN, 1.0; no order of these
    overlays is ascending. *)
Theorem nan_timestamp_breaks_order :
  exists compiled,
    _validate_overlay_data nan_timestamp_data = inr compiled /\
    map timestamp compiled = [Fin 2; NaN; Fin 1] /\
    ~ StronglySorted ts_le compiled /\
    forall l, Permutation compiled l -> ~ StronglySorted ts_le l.
Proof.
  eexists. split; [vm_compute; reflexivity |]. split; [reflexivity |].
  assert (Hany : forall l,
            Permutation
              [mk_overlay (Fin 2) (lit "Second") (Fin 3);
               mk_overlay NaN (lit "Lost") (Fin 3);
               mk_overlay (Fin 1) (lit "First") (Fin 3)] l ->
            ~ StronglySorted ts_le l).
  { intros l Hp Hs.
    assert (Hin : In (mk_overlay NaN (lit "Lost") (Fin 3)) l).
    { apply (Permutation_in _ Hp). right. left. reflexivity. }
    pose proof (sorted_with_nan l _ Hs Hin eq_refl) as Hl.
    apply Permutation_length in Hp. rewrite Hl in Hp. discriminate. }
  split; [apply Hany; reflexivity | exact Hany].
Qed.

(** C10: the claim fails when a timestamp or a duration is NaN.  Both
    [timestamp < 0] and [duration <= 0] are false on NaN, so the instruction
    is kept with a timestamp that is not non-negative and a duration that
    is not positive. *)
Theorem nan_item_is_kept :
  _validate_overlay_data nan_item_data
  = inr [mk_overlay NaN (lit "Lost") NaN] /\
  ~ valid_overlay (mk_overlay NaN (lit "Lost") NaN) /\
  fle (Fin 0) NaN = false /\ flt (Fin 0) NaN = false.
Proof.
  split; [vm_compute; reflexivity |]. split; [| split; reflexivity].
  intros (H & _). discriminate.
Qed.

(** * Response analysis *)

Section Analysis.

Variable json_loads : pystr -> option json.
Variable re_findall : nat -> pystr -> list pystr.

Let analyze := analyze_transcript json_loads re_findall.
Let extract := _extract_json_from_response json_loads re_findall.

Lemma extract_unparseable (response : pystr) :
  json_loads response = None ->
  first_loads json_loads
    (flat_map (fun i => re_findall i response) [0; 1; 2]%nat) = None ->
  extract response = default_response.
Proof.
  intros H1 H2. unfold extract, _extract_json_from_response.
  rewrite H1, H2. reflexivity.
Qed.

Lemma analyze_unparseable (response : pystr) :
  json_loads response = None ->
  first_loads json_loads
    (flat_map (fun i => re_findall i response) [0; 1; 2]%nat) = None ->
  analyze (inr response) = default_overlays.
Proof.
  intros H1 H2. unfold analyze, analyze_transcript. cbn [bind].
  fold extract. rewrite (extract_unparseable response H1 H2).
  reflexivity.
Qed.

Lemma analyze_raised (e : exn) : analyze (inl e) = fallback_overlays.
Proof. reflexivity. Qed.

Lemma analyze_validation_raised (response : pystr) (e : exn) :
  _validate_overlay_data (extract response) = inl e ->
  analyze (inr response) = fallback_overlays.
Proof.
  intros H. unfold analyze, analyze_transcript. cbn [bind].
  fold extract. rewrite H. reflexivity.
Qed.

Lemma analyze_all_rejected (response : pystr) (fields : list (pystr * json))
    (items : list json) :
  json_loads response = Some (JDict fields) ->
  dict_find (lit "overlays") fields = Some (JList items) ->
  validate_items items = inr [] ->
  analyze (inr response) = [].
Proof.
  intros H1 H2 H3. unfold analyze, analyze_transcript. cbn [bind].
  unfold _extract_json_from_response. rewrite H1.
  unfold _validate_overlay_data, overlays_of. rewrite H2.
  cbn [iterate ret bind]. rewrite H3. reflexivity.
Qed.

End Analysis.

(** C3 (amended): when no JSON can be extracted from the response, or when
    the analysis raises, the result is a single documented default
    overlay; when the response parses and every instruction fails
    validation, the result is the empty list. *)
Theorem default_overlay_when_unparseable
    (json_loads : pystr -> option json)
    (re_findall : nat -> pystr -> list pystr) (response : pystr) :
  (json_loads response = None ->
   first_loads json_loads
     (flat_map (fun i => re_findall i response) [0; 1; 2]%nat) = None ->
   analyze_transcript json_loads re_findall (inr response) = default_overlays) /\
  (forall e, analyze_transcript json_loads re_findall (inl e)
             = fallback_overlays) /\
  (forall e,
     _validate_overlay_data
       (_extract_json_from_response json_loads re_findall response) = inl e ->
     analyze_transcript json_loads re_findall (inr response)
     = fallback_overlays) /\
  (forall fields items,
     json_loads response = Some (JDict fields) ->
     dict_find (lit "overlays") fields = Some (JList items) ->
     validate_items items = inr [] ->
     analyze_transcript json_loads re_findall (inr response) = []).
Proof.
  split; [apply analyze_unparseable |].
  split; [apply analyze_raised |].
  split; [intros e; apply analyze_validation_raised |].
  intros fields items. apply analyze_all_rejected.
Qed.

Lemma default_overlay_when_unparseable_witness :
  analyze_transcript (fun _ => None) (fun _ _ => [])
    (inr (lit "Sorry, I cannot help with that.")) = default_overlays.
Proof.
  apply (default_overlay_when_unparseable (fun _ => None) (fun _ _ => [])
           (lit "Sorry, I cannot help with that.")); reflexivity.
Defined.

(** C3 as stated fails: a response that parses, and whose only
    instruction is rejected by validation, compiles to the empty list. *)
Lemma all_rejected_yields_empty_overlays :
  _validate_overlay_data rejected_data = inr [] /\
  analyze_transcript (fun _ => Some rejected_data) (fun _ _ => [])
    (inr (lit "{...}")) = [].
Proof. split; reflexivity. Qed.

(** * Outro stitching *)

Section Stitching.

Context {world : Type} (env : Environment world).

Variable video_path : pystr.

Let outro : pystr := _resolve_asset_path env (outro_path (outro_cfg (config env))).

Lemma add_outro_missing (s : state world) :
  file_exists env outro (fst s) = false ->
  _add_outro env video_path s
  = (inr video_path,
     (fst s,
      snd s ++ [outro_missing_warning outro;
                Print (lit "   Please check the outro path in config.json")])).
Proof.
  intros H. unfold _add_outro, io_bind, path_exists. fold outro. rewrite H.
  cbn. rewrite <- app_assoc. reflexivity.
Qed.

Lemma add_outro_present (s : state world) :
  file_exists env outro (fst s) = true ->
  _add_outro env video_path s
  = match add_outro_body env video_path outro s with
    | (inl e, s') => (inr video_path, (fst s', snd s' ++ [outro_error e]))
    | ok => ok
    end.
Proof.
  intros H. unfold _add_outro, io_bind, path_exists. fold outro. rewrite H.
  cbn [negb]. unfold try_except.
  destruct (add_outro_body env video_path outro s) as [[e | p] s'];
    reflexivity.
Qed.

(** A failing step makes the whole [try] block fail. *)
Lemma body_fails_at_normalization (s s1 s2 s3 : state world)
    (main_info outro_info : video_info) (e : exn) :
  let s0 := (fst s, snd s ++ [Print (lit "Adding outro...")]) in
  _get_video_info env video_path s0 = (inr main_info, s1) ->
  _get_video_info env outro s1 = (inr outro_info, s2) ->
  subprocess_run env
    (outro_command env outro main_info outro_info
       (path_join env (temp_dir (config env))
          (lit "temp_outro_" ++ stem env video_path ++ lit ".mp4")))
    (fst s2, snd s2 ++ [Print (lit "Converting outro video format...")])
  = (inl e, s3) ->
  add_outro_body env video_path outro s = (inl e, s3).
Proof.
  cbv zeta. intros H1 H2 H3.
  unfold add_outro_body, io_bind, print. cbn [fst snd].
  rewrite H1, H2. cbn [fst snd]. rewrite H3. reflexivity.
Qed.

Lemma body_fails_at_concatenation (s s1 s2 s3 s4 : state world)
    (main_info outro_info : video_info) (e : exn) :
  let s0 := (fst s, snd s ++ [Print (lit "Adding outro...")]) in
  let temp_outro :=
    path_join env (temp_dir (config env))
      (lit "temp_outro_" ++ stem env video_path ++ lit ".mp4") in
  _get_video_info env video_path s0 = (inr main_info, s1) ->
  _get_video_info env outro s1 = (inr outro_info, s2) ->
  subprocess_run env
    (outro_command env outro main_info outro_info temp_outro)
    (fst s2, snd s2 ++ [Print (lit "Converting outro video format...")])
  = (inr tt, s3) ->
  subprocess_run env
    (concat_command env video_path temp_outro
       (sibling env video_path (stem env video_path ++ lit "_with_outro.mp4")))
    (fst s3, snd s3 ++ [Print (lit "Concatenating videos...")])
  = (inl e, s4) ->
  add_outro_body env video_path outro s = (inl e, s4).
Proof.
  cbv zeta. intros H1 H2 H3 H4.
  unfold add_outro_body, io_bind, print. cbn [fst snd].
  rewrite H1, H2. cbn [fst snd]. rewrite H3. cbn [fst snd].
  rewrite H4. reflexivity.
Qed.

End Stitching.

(** C7: the stitcher never raises.  When the outro asset is missing it
    logs a warning and returns the path it was given; when any step of the
    normalization or concatenation fails it logs the error and returns the
    path it was given. *)
Theorem add_outro_never_raises {world : Type} (env : Environment world)
    (video_path : pystr) (s : state world) :
  let outro := _resolve_asset_path env (outro_path (outro_cfg (config env))) in
  exists p s',
    _add_outro env video_path s = (inr p, s') /\
    (file_exists env outro (fst s) = false ->
     p = video_path /\ In (outro_missing_warning outro) (snd s')) /\
    (forall e s1,
       file_exists env outro (fst s) = true ->
       add_outro_body env video_path outro s = (inl e, s1) ->
       p = video_path /\ In (outro_error e) (snd s')).
Proof.
  cbv zeta.
  set (outro := _resolve_asset_path env (outro_path (outro_cfg (config env)))).
  destruct (file_exists env outro (fst s)) eqn:Ex.
  - rewrite (add_outro_present env video_path s Ex). fold outro.
    destruct (add_outro_body env video_path outro s) as [[e | p] s1] eqn:Eb.
    + do 2 eexists. split; [reflexivity |]. split; [discriminate |].
      intros e' s1' _ H. injection H as <- <-.
      split; [reflexivity |]. cbn [snd]. apply in_or_app. right. left. reflexivity.
    + do 2 eexists. split; [reflexivity |]. split; [discriminate |].
      intros e' s1' _ H. discriminate.
  - rewrite (add_outro_missing env video_path s Ex). fold outro.
    do 2 eexists. split; [reflexivity |]. split.
    + intros _. split; [reflexivity |]. cbn [snd]. apply in_or_app. right.
      left. reflexivity.
    + intros e s1 H. discriminate.
Qed.

Lemma add_outro_never_raises_witness :
  exists s',
    _add_outro (sample_env false true) (lit "output_clips/clip.mp4") (tt, [])
    = (inr (lit "output_clips/clip.mp4"), s') /\
    In (outro_missing_warning (lit "assets/outro.mp4")) (snd s').
Proof.
  destruct (add_outro_never_raises (sample_env false true)
              (lit "output_clips/clip.mp4") (tt, []))
    as (p & s' & Hrun & Hmissing & _).
  destruct (Hmissing eq_refl) as (-> & Hlog).
  exists s'. split; [exact Hrun | exact Hlog].
Defined.

(** * Filter-graph assembly *)

Lemma overlay_filters_none (cfg : OverlayConfig) (overlays : list overlay)
    (video_duration : float) :
  compiled_windows overlays video_duration = [] ->
  overlay_filters cfg overlays video_duration = inr [].
Proof.
  induction overlays as [| o rest IH]; cbn [compiled_windows flat_map overlay_filters];
    [reflexivity |].
  intros H. apply app_eq_nil in H. destruct H as [Ho Hrest].
  destruct (overlay_window (timestamp o) (duration o) video_duration)
    as [[start_time end_time] |]; [discriminate |].
  apply IH. exact Hrest.
Qed.

Lemma overlay_filter_none (cfg : OverlayConfig) (overlays : list overlay)
    (video_duration : float) :
  compiled_windows overlays video_duration = [] ->
  _create_overlay_filter cfg overlays video_duration = inr [].
Proof.
  intros H. unfold _create_overlay_filter.
  destruct overlays as [| o rest]; [reflexivity |].
  rewrite (overlay_filters_none cfg _ _ H). reflexivity.
Qed.

(** C1 (amended): when no optional stage applies (no logo stage and an
    empty compiled overlay list) the plan holds exactly one stage, the
    crop (with its scale) labelled [processed]; the invocation passes it
    with -filter_complex, maps [processed] and the original audio 0:a, and
    re-encodes with the configured codecs.  No stream copy is requested. *)
Theorem no_optional_stage_keeps_crop_stage {world : Type}
    (env : Environment world) (video_path output_path : pystr)
    (info : video_info) (crop_w crop_h crop_x crop_y : Z)
    (overlays : list overlay) (s : state world)
    (target_width target_height : pystr) (rest : list pystr) (tw th : Z) :
  logo_enabled (logo_cfg (config env)) = false \/
  file_exists env (_resolve_asset_path env (logo_path (logo_cfg (config env))))
    (fst s) = false ->
  compiled_windows overlays (vi_duration info) = [] ->
  split_on 0x78 (output_resolution (video_cfg (config env)))
  = target_width :: target_height :: rest ->
  int_of_str env target_width = inr tw ->
  int_of_str env target_height = inr th ->
  let stage :=
    lit "[0:v]crop=" ++ str_of_Z crop_w ++ lit ":" ++ str_of_Z crop_h
    ++ lit ":" ++ str_of_Z crop_x ++ lit ":" ++ str_of_Z crop_y
    ++ (if negb (crop_w =? tw) || negb (crop_h =? th)
        then lit ",scale=" ++ target_width ++ lit ":" ++ target_height
        else [])
    ++ lit "[processed]" in
  render_command env video_path info (crop_w, crop_h, crop_x, crop_y)
    output_path overlays s
  = (inr ([lit "ffmpeg"; lit "-y"; lit "-i"; video_path;
           lit "-filter_complex"; stage;
           lit "-map"; lit "[processed]"; lit "-map"; lit "0:a"]
          ++ output_parameters env output_path,
          [stage]),
     s).
Proof.
  intros Hlogo Hov Hres Htw Hth. cbv zeta.
  assert (Hplan :
    filter_plan env (crop_w, crop_h, crop_x, crop_y) []
      (_create_overlay_filter (overlays_cfg (config env)) overlays
         (vi_duration info))
    = inr ([lit "[0:v]crop=" ++ str_of_Z crop_w ++ lit ":" ++ str_of_Z crop_h
            ++ lit ":" ++ str_of_Z crop_x ++ lit ":" ++ str_of_Z crop_y
            ++ (if negb (crop_w =? tw) || negb (crop_h =? th)
                then lit ",scale=" ++ target_width ++ lit ":" ++ target_height
                else [])
            ++ lit "[processed]"],
           lit "[processed]")).
  { unfold filter_plan. rewrite Hres. cbn [index nth_error ret bind].
    rewrite Htw. cbn [bind].
    rewrite (overlay_filter_none _ _ _ Hov).
    destruct (crop_w =? tw); cbn [negb orb bind ret].
    - rewrite Hth. cbn [bind ret nonempty].
      destruct (negb (crop_h =? th)); rewrite <- !app_assoc; reflexivity.
    - cbn [nonempty]. rewrite <- !app_assoc. reflexivity. }
  unfold render_command, render_plan, io_bind, io_lift, io_ret, path_exists.
  destruct Hlogo as [Hoff | Hmissing].
  - rewrite Hoff. rewrite Hplan. reflexivity.
  - destruct (logo_enabled (logo_cfg (config env))).
    + rewrite Hmissing. rewrite Hplan. reflexivity.
    + rewrite Hplan. reflexivity.
Qed.

Lemma no_optional_stage_keeps_crop_stage_witness :
  exists stage,
    render_command (sample_env false true) (lit "clip.mp4") sample_info
      (607, 1080, 656, 0) (lit "output_clips/out.mp4")
      [mk_overlay (Fin 100) (lit "Hello") (Fin 3)] (tt, [])
    = (inr ([lit "ffmpeg"; lit "-y"; lit "-i"; lit "clip.mp4";
             lit "-filter_complex"; stage;
             lit "-map"; lit "[processed]"; lit "-map"; lit "0:a"]
            ++ output_parameters (sample_env false true)
                 (lit "output_clips/out.mp4"),
            [stage]),
       (tt, [])).
Proof.
  eexists.
  apply (no_optional_stage_keeps_crop_stage (sample_env false true)
           (lit "clip.mp4") (lit "output_clips/out.mp4") sample_info
           607 1080 656 0 [mk_overlay (Fin 100) (lit "Hello") (Fin 3)]
           (tt, []) (lit "1080") (lit "1920") [] 1080 1920).
  - left. reflexivity.
  - reflexivity.
  - reflexivity.
  - reflexivity.
  - reflexivity.
Defined.

(** C1 as stated fails: with the logo disabled and the only overlay
    dropped (timestamp 100 on a 60 s video), the plan is not empty and the
    invocation carries -filter_complex and no stream copy. *)
Lemma no_stream_copy_without_optional_stage :
  logo_enabled (logo_cfg (config (sample_env false true))) = false /\
  compiled_windows [mk_overlay (Fin 100) (lit "Hello") (Fin 3)] (Fin 60) = [] /\
  exists cmd filters,
    render_command (sample_env false true) (lit "clip.mp4") sample_info
      (607, 1080, 656, 0) (lit "output_clips/out.mp4")
      [mk_overlay (Fin 100) (lit "Hello") (Fin 3)] (tt, [])
    = (inr (cmd, filters), (tt, [])) /\
    filters <> [] /\
    existsb (pystr_eqb (lit "-filter_complex")) cmd = true /\
    existsb (pystr_eqb (lit "copy")) cmd = false.
Proof.
  split; [reflexivity |]. split; [reflexivity |].
  do 2 eexists. split; [vm_compute; reflexivity |].
  split; [discriminate |]. split; vm_compute; reflexivity.
Qed.

(** * Caption wrapping *)

Section Words.

Lemma join_cons (sep p : pystr) (rest : list pystr) :
  rest <> [] -> join sep (p :: rest) = p ++ sep ++ join sep rest.
Proof. destruct rest; [congruence | reflexivity]. Qed.

Lemma join_snoc (sep w : pystr) (ws : list pystr) :
  ws <> [] -> join sep (ws ++ [w]) = join sep ws ++ sep ++ w.
Proof.
  induction ws as [| p rest IH]; [congruence |]. intros _.
  destruct rest as [| q rest'].
  - reflexivity.
  - change ((p :: q :: rest') ++ [w]) with (p :: (q :: rest') ++ [w]).
    rewrite join_cons by (destruct rest'; discriminate).
    rewrite IH by discriminate.
    rewrite (join_cons sep p (q :: rest')) by discriminate.
    rewrite <- !app_assoc. reflexivity.
Qed.

Lemma text_len_app (a b : pystr) : text_len (a ++ b) = text_len a + text_len b.
Proof.
  unfold text_len, strip_emoji, len. rewrite filter_app, length_app. lia.
Qed.

Lemma text_len_nonneg (a : pystr) : 0 <= text_len a.
Proof. unfold text_len, len. lia. Qed.

Lemma text_len_join_snoc (w : pystr) (ws : list pystr) :
  ws <> [] ->
  text_len (join space (ws ++ [w])) = text_len (join space ws) + 1 + text_len w.
Proof.
  intros H. rewrite join_snoc by exact H. rewrite !text_len_app.
  change (text_len space) with 1. lia.
Qed.

(** The stripped length of a joined line grows with the line. *)
Lemma text_len_join_prefix (a b : list pystr) :
  text_len (join space a) <= text_len (join space (a ++ b)).
Proof.
  induction b as [| w b IH] using rev_ind.
  - rewrite app_nil_r. lia.
  - rewrite app_assoc.
    destruct (a ++ b) as [| p r] eqn:E.
    + apply app_eq_nil in E. destruct E as [-> _]. cbn [app join].
      change (text_len []) with 0. apply text_len_nonneg.
    + rewrite text_len_join_snoc by discriminate.
      pose proof (text_len_nonneg w). lia.
Qed.

Lemma is_word_nonempty (w : pystr) : is_word w = true -> w <> [].
Proof. destruct w; [discriminate | discriminate]. Qed.

Lemma join_nonempty (ws : list pystr) :
  Forall (fun w => is_word w = true) ws ->
  nonempty (join space ws) = match ws with [] => false | _ => true end.
Proof.
  intros H. destruct ws as [| w rest]; [reflexivity |].
  inversion H as [| ? ? Hw _]; subst.
  destruct w as [| c w']; [discriminate |].
  destruct rest; reflexivity.
Qed.

End Words.

Section Splitting.

Lemma split_aux_run (w cur rest : pystr) :
  no_space w = true ->
  split_ws_aux cur (w ++ rest) = split_ws_aux (rev w ++ cur) rest.
Proof.
  revert cur. induction w as [| c w IH]; intros cur Hw; [reflexivity |].
  cbn in Hw. apply andb_true_iff in Hw. destruct Hw as [Hc Hw].
  apply negb_true_iff in Hc.
  cbn [app split_ws_aux]. rewrite Hc. rewrite IH by exact Hw.
  cbn [rev]. rewrite <- app_assoc. reflexivity.
Qed.

Lemma is_word_no_space (w : pystr) : is_word w = true -> no_space w = true.
Proof. unfold is_word. intros H. apply andb_true_iff in H. apply H. Qed.

Lemma rev_word_nonempty (w : pystr) :
  is_word w = true -> nonempty (rev w) = true.
Proof.
  intros H. destruct w as [| c w]; [discriminate |].
  cbn [rev]. destruct (rev w); reflexivity.
Qed.

Lemma split_word (w : pystr) : is_word w = true -> split_ws w = [w].
Proof.
  intros H. unfold split_ws.
  rewrite <- (app_nil_r w) at 1.
  rewrite split_aux_run by (apply is_word_no_space; exact H).
  cbn [split_ws_aux]. rewrite app_nil_r.
  rewrite (rev_word_nonempty w H), rev_involutive. reflexivity.
Qed.

Lemma split_word_sep (w rest : pystr) (c : N) :
  is_word w = true -> isspace c = true ->
  split_ws (w ++ c :: rest) = w :: split_ws rest.
Proof.
  intros H Hc. unfold split_ws.
  rewrite split_aux_run by (apply is_word_no_space; exact H).
  cbn [split_ws_aux]. rewrite Hc, app_nil_r.
  rewrite (rev_word_nonempty w H), rev_involutive. reflexivity.
Qed.

(** Splitting a joined line, followed by more text, gives its words
    back. *)
Lemma split_join_sep (ws : list pystr) (rest : pystr) (c : N) :
  Forall (fun w => is_word w = true) ws -> ws <> [] -> isspace c = true ->
  split_ws (join space ws ++ c :: rest) = ws ++ split_ws rest.
Proof.
  intros Hws. induction Hws as [| w ws Hw Hws IH]; [congruence |].
  intros _ Hc. destruct ws as [| w' ws'].
  - cbn [join app]. apply split_word_sep; assumption.
  - rewrite join_cons by discriminate.
    rewrite <- !app_assoc. cbn [space app].
    rewrite split_word_sep by (exact Hw || reflexivity).
    cbn [app]. f_equal. apply IH; [discriminate | exact Hc].
Qed.

Lemma split_join (ws : list pystr) :
  Forall (fun w => is_word w = true) ws -> split_ws (join space ws) = ws.
Proof.
  intros Hws. induction Hws as [| w ws Hw Hws IH]; [reflexivity |].
  destruct ws as [| w' ws'].
  - cbn [join]. apply split_word. exact Hw.
  - rewrite join_cons by discriminate. cbn [space app].
    rewrite split_word_sep by (exact Hw || reflexivity).
    f_equal. exact IH.
Qed.

(** What [split] returns are words. *)
Lemma split_aux_words (s cur : pystr) :
  no_space cur = true ->
  Forall (fun w => is_word w = true) (split_ws_aux cur s).
Proof.
  revert cur. induction s as [| c s IH]; intros cur Hcur; cbn [split_ws_aux].
  - destruct cur as [| x cur']; [constructor |].
    cbn [nonempty]. constructor; [| constructor].
    unfold is_word. apply andb_true_iff. split.
    + cbn [rev]. destruct (rev cur'); reflexivity.
    + unfold no_space in *. rewrite forallb_forall in *.
      intros y Hy. apply Hcur. apply in_rev. exact Hy.
  - destruct (isspace c) eqn:Ec.
    + apply Forall_app. split; [| apply IH; reflexivity].
      destruct cur as [| x cur']; [constructor |].
      cbn [nonempty]. constructor; [| constructor].
      unfold is_word. apply andb_true_iff. split.
      * cbn [rev]. destruct (rev cur'); reflexivity.
      * unfold no_space in *. rewrite forallb_forall in *.
        intros y Hy. apply Hcur. apply in_rev. exact Hy.
    + apply IH. cbn. rewrite Ec. exact Hcur.
Qed.

Lemma split_words (s : pystr) :
  Forall (fun w => is_word w = true) (split_ws s).
Proof. apply split_aux_words. reflexivity. Qed.

(** A word holds no line break, and so neither does a joined line. *)
Lemma word_no_newline (w : pystr) :
  no_space w = true -> count_occ N.eq_dec w 0x0A%N = 0%nat.
Proof.
  induction w as [| c w IH]; [reflexivity |].
  cbn [no_space forallb]. intros H. apply andb_true_iff in H.
  destruct H as [Hc Hw]. cbn [count_occ].
  destruct (N.eq_dec c 10) as [-> | _]; [discriminate | apply IH; exact Hw].
Qed.

Lemma join_no_newline (ws : list pystr) :
  Forall (fun w => is_word w = true) ws ->
  count_occ N.eq_dec (join space ws) 0x0A%N = 0%nat.
Proof.
  intros Hws. induction Hws as [| w ws Hw Hws IH]; [reflexivity |].
  destruct ws as [| w' ws'].
  - cbn [join]. apply word_no_newline, is_word_no_space, Hw.
  - rewrite join_cons by discriminate. rewrite !count_occ_app, IH.
    rewrite (word_no_newline w) by (apply is_word_no_space, Hw). reflexivity.
Qed.

End Splitting.

Section Grouping.

Variable max_chars : Z.

Lemma group_step_inv (seen : list pystr) (st : list (list pystr) * list pystr)
    (w : pystr) :
  group_inv max_chars seen st ->
  group_inv max_chars (seen ++ [w]) (group_step max_chars st w).
Proof.
  destruct st as [groups cur]. unfold group_inv. cbn [fst snd].
  intros (Hcat & Hne & Hfit & Hcur & Hlong).
  unfold group_step.
  set (potential := match cur with
                    | [] => text_len w
                    | _ => text_len (join space cur) + 1 + text_len w
                    end).
  assert (Hpot : potential = text_len (join space (cur ++ [w]))).
  { unfold potential. destruct cur as [| p r]; [reflexivity |].
    rewrite text_len_join_snoc by discriminate. reflexivity. }
  assert (Hge : text_len w <= potential).
  { unfold potential. destruct cur; [lia |].
    pose proof (text_len_nonneg (join space (p :: cur))). lia. }
  destruct (Z.leb_spec potential max_chars) as [Hle | Hgt]; cbn [fst snd].
  - (* the word joins the current line *)
    split; [rewrite app_assoc, Hcat; reflexivity |].
    split; [exact Hne |]. split; [exact Hfit |].
    split; [right; left; lia |].
    intros w' Hin Hw'. apply in_app_or in Hin. destruct Hin as [Hin | [<- | []]].
    + destruct (Hlong w' Hin Hw') as [H | ->]; [left; exact H | exfalso].
      unfold potential in Hle. pose proof (text_len_nonneg w).
      cbn [join] in Hle. lia.
    + exfalso. lia.
  - (* the word starts a new line *)
    destruct cur as [| p r].
    + rewrite app_nil_r in Hcat.
      split; [rewrite Hcat; reflexivity |].
      split; [exact Hne |]. split; [exact Hfit |].
      split; [right; right; exists w; reflexivity |].
      intros w' Hin Hw'. apply in_app_or in Hin. destruct Hin as [Hin | [<- | []]].
      * destruct (Hlong w' Hin Hw') as [H | H]; [left; exact H | discriminate].
      * right. reflexivity.
    + split.
      { rewrite concat_app. cbn [List.concat]. rewrite app_nil_r, Hcat. reflexivity. }
      split; [apply Forall_app; split; [exact Hne | constructor; [discriminate | constructor]] |].
      split.
      { apply Forall_app. split; [exact Hfit |]. constructor; [| constructor].
        destruct Hcur as [H | H]; [discriminate | exact H]. }
      split; [right; right; exists w; reflexivity |].
      intros w' Hin Hw'. apply in_app_or in Hin. destruct Hin as [Hin | [<- | []]].
      * left. apply in_or_app.
        destruct (Hlong w' Hin Hw') as [H | H]; [left; exact H |].
        right. left. exact H.
      * right. reflexivity.
Qed.

Lemma group_fold_inv (words seen : list pystr)
    (st : list (list pystr) * list pystr) :
  group_inv max_chars seen st ->
  group_inv max_chars (seen ++ words) (fold_left (group_step max_chars) words st).
Proof.
  revert seen st. induction words as [| w words IH]; intros seen st H.
  - rewrite app_nil_r. exact H.
  - cbn [fold_left].
    replace (seen ++ w :: words) with ((seen ++ [w]) ++ words)
      by (rewrite <- app_assoc; reflexivity).
    apply IH. apply group_step_inv. exact H.
Qed.

Lemma group_inv_init : group_inv max_chars [] ([], []).
Proof.
  unfold group_inv. cbn [fst snd List.concat app].
  split; [reflexivity |]. split; [constructor |]. split; [constructor |].
  split; [left; reflexivity |]. intros w [].
Qed.

(** The lines partition the words, a long word is a line of its own, and
    any other line fits. *)
Lemma wrap_groups_spec (words : list pystr) :
  let groups := wrap_groups words max_chars in
  List.concat groups = words /\
  Forall (fun g => g <> []) groups /\
  Forall (fits max_chars) groups /\
  (forall w, In w words -> max_chars < text_len w -> In [w] groups).
Proof.
  cbv zeta. unfold wrap_groups.
  pose proof (group_fold_inv words [] ([], []) group_inv_init) as H.
  cbn [app] in H.
  destruct (fold_left (group_step max_chars) words ([], [])) as [groups cur].
  unfold group_inv in H. cbn [fst snd] in H.
  destruct H as (Hcat & Hne & Hfit & Hcur & Hlong).
  unfold close_groups. cbn [fst snd].
  destruct cur as [| p r].
  - rewrite app_nil_r in Hcat. repeat split; try assumption.
    intros w Hin Hw. destruct (Hlong w Hin Hw) as [H | H]; [exact H | discriminate].
  - split; [rewrite concat_app; cbn [List.concat]; rewrite app_nil_r; exact Hcat |].
    split; [apply Forall_app; split; [exact Hne | constructor; [discriminate | constructor]] |].
    split.
    + apply Forall_app. split; [exact Hfit |]. constructor; [| constructor].
      destruct Hcur as [H | H]; [discriminate | exact H].
    + intros w Hin Hw. apply in_or_app.
      destruct (Hlong w Hin Hw) as [H | H]; [left; exact H |].
      right. left. exact H.
Qed.

(** The loop on strings and the loop on words agree. *)
Lemma wrap_step_groups (groups : list (list pystr)) (cur : list pystr)
    (w : pystr) :
  Forall (fun w => is_word w = true) cur ->
  wrap_step max_chars (map (join space) groups, join space cur) w
  = (map (join space) (fst (group_step max_chars (groups, cur) w)),
     join space (snd (group_step max_chars (groups, cur) w))).
Proof.
  intros Hcur. unfold wrap_step, group_step.
  rewrite (join_nonempty cur Hcur). fold (text_len w).
  fold (text_len (join space cur)).
  destruct cur as [| p r].
  - cbn [join nonempty app].
    destruct (text_len w <=? max_chars); reflexivity.
  - destruct (text_len (join space (p :: r)) + 1 + text_len w <=? max_chars);
      cbn [fst snd].
    + rewrite join_snoc by discriminate. reflexivity.
    + rewrite map_app. reflexivity.
Qed.

Lemma wrap_fold_groups (words : list pystr) (groups : list (list pystr))
    (cur : list pystr) :
  Forall (fun w => is_word w = true) words ->
  Forall (fun w => is_word w = true) cur ->
  fold_left (wrap_step max_chars) words (map (join space) groups, join space cur)
  = (map (join space) (fst (fold_left (group_step max_chars) words (groups, cur))),
     join space (snd (fold_left (group_step max_chars) words (groups, cur)))).
Proof.
  revert groups cur. induction words as [| w words IH]; intros groups cur Hws Hcur.
  - reflexivity.
  - inversion Hws as [| ? ? Hw Hws']; subst. cbn [fold_left].
    rewrite (wrap_step_groups groups cur w Hcur).
    destruct (group_step max_chars (groups, cur) w) as [groups' cur'] eqn:E.
    cbn [fst snd]. apply IH; [exact Hws' |].
    unfold group_step in E.
    destruct (match cur with
              | [] => text_len w
              | _ :: _ => text_len (join space cur) + 1 + text_len w
              end <=? max_chars); injection E as <- <-.
    + apply Forall_app. split; [exact Hcur | constructor; [exact Hw | constructor]].
    + constructor; [exact Hw | constructor].
Qed.

Lemma wrap_lines_groups (text : pystr) :
  wrap_lines text max_chars
  = map (join space) (wrap_groups (split_ws text) max_chars).
Proof.
  unfold wrap_lines, wrap_groups. cbv zeta.
  pose proof (wrap_fold_groups (split_ws text) [] [] (split_words text)
                (Forall_nil _)) as H.
  cbn [map join] in H.
  destruct (fold_left (wrap_step max_chars) (split_ws text) _)
    as [lines current_line] eqn:E.
  injection H as -> ->. clear E.
  pose proof (group_fold_inv (split_ws text) [] ([], []) group_inv_init) as Hinv.
  destruct (fold_left (group_step max_chars) (split_ws text) ([], []))
    as [groups cur].
  cbn [fst snd] in *. unfold close_groups. cbn [fst snd].
  assert (Hcur : Forall (fun w => is_word w = true) cur).
  { destruct Hinv as (Hcat & _). cbn [fst snd app] in Hcat.
    pose proof (split_words text) as Hw. rewrite <- Hcat in Hw.
    apply Forall_app in Hw. apply Hw. }
  rewrite (join_nonempty cur Hcur).
  destruct cur; [reflexivity |]. rewrite map_app. reflexivity.
Qed.

End Grouping.

(** C9: wrapping never splits a word.  The wrapped lines are whole words
    joined by single spaces, in the order of the text, and a word whose
    stripped length exceeds the budget is a line by itself (a line longer
    than the budget). *)
Theorem long_word_gets_own_line (text : pystr) (max_chars : Z) (w : pystr) :
  In w (split_ws text) -> max_chars < text_len w ->
  exists groups,
    wrap_lines text max_chars = map (join space) groups /\
    List.concat groups = split_ws text /\
    In [w] groups /\
    In w (wrap_lines text max_chars).
Proof.
  intros Hin Hlong.
  destruct (wrap_groups_spec max_chars (split_ws text)) as (Hcat & _ & _ & Hown).
  exists (wrap_groups (split_ws text) max_chars).
  split; [apply wrap_lines_groups |]. split; [exact Hcat |].
  split; [apply Hown; assumption |].
  rewrite wrap_lines_groups.
  change w with (join space [w]). apply in_map. apply Hown; assumption.
Qed.

Lemma long_word_gets_own_line_witness :
  exists groups,
    wrap_lines (lit "Tap the supercalifragilisticexpialidocious button") 20
    = map (join space) groups /\
    List.concat groups
    = split_ws (lit "Tap the supercalifragilisticexpialidocious button") /\
    In [lit "supercalifragilisticexpialidocious"] groups /\
    In (lit "supercalifragilisticexpialidocious")
       (wrap_lines (lit "Tap the supercalifragilisticexpialidocious button") 20).
Proof.
  apply (long_word_gets_own_line
           (lit "Tap the supercalifragilisticexpialidocious button") 20
           (lit "supercalifragilisticexpialidocious")).
  - vm_compute. right. right. left. reflexivity.
  - reflexivity.
Defined.

Section Trimming.

Variable max_chars : Z.
Hypothesis Hbudget : 3 <= max_chars.

Lemma join_app (sep : pystr) (a b : list pystr) :
  a <> [] -> b <> [] -> join sep (a ++ b) = join sep a ++ sep ++ join sep b.
Proof.
  intros Ha Hb. induction a as [| p a IH]; [congruence |].
  destruct a as [| q a'].
  - cbn [app]. rewrite join_cons by exact Hb. reflexivity.
  - change ((p :: q :: a') ++ b) with (p :: (q :: a') ++ b).
    rewrite join_cons by discriminate. rewrite IH by discriminate.
    rewrite (join_cons sep p (q :: a')) by discriminate.
    rewrite <- !app_assoc. reflexivity.
Qed.

Lemma pop_words_spec (rev_words : list pystr) :
  exists kept dropped,
    pop_words max_chars rev_words = inr kept /\
    rev rev_words = kept ++ dropped /\
    text_len (join space kept) <= max_chars - 3.
Proof.
  induction rev_words as [| x rest IH].
  - exists [], []. cbn [pop_words rev join].
    change (len (strip_emoji [])) with 0.
    destruct (Z.gtb_spec 0 (max_chars - 3)) as [H | H]; [lia |].
    split; [reflexivity |]. split; [reflexivity |].
    change (text_len []) with 0. lia.
  - cbn [pop_words]. fold (text_len (join space (rev (x :: rest)))).
    destruct (Z.gtb_spec (text_len (join space (rev (x :: rest)))) (max_chars - 3))
      as [H | H].
    + destruct IH as (kept & dropped & Hpop & Hrev & Hlen).
      exists kept, (dropped ++ [x]). split; [exact Hpop |].
      split; [| exact Hlen].
      cbn [rev]. rewrite Hrev, app_assoc. reflexivity.
    + exists (rev (x :: rest)), []. split; [reflexivity |].
      split; [rewrite app_nil_r; reflexivity | exact H].
Qed.

(** The second line after the cut: a prefix of its words, then the
    ellipsis, within the budget. *)
Lemma trim_last_line_spec (g : list pystr) :
  Forall (fun w => is_word w = true) g ->
  exists kept dropped,
    trim_last_line max_chars (join space g) = inr (join space kept ++ ellipsis) /\
    g = kept ++ dropped /\
    text_len (join space kept ++ ellipsis) <= max_chars.
Proof.
  intros Hg. unfold trim_last_line. fold (text_len (join space g)).
  destruct (Z.gtb_spec (text_len (join space g)) (max_chars - 3)) as [H | H].
  - rewrite (split_join g Hg).
    destruct (pop_words_spec (rev g)) as (kept & dropped & Hpop & Hrev & Hlen).
    rewrite rev_involutive in Hrev.
    exists kept, dropped. rewrite Hpop. cbn [bind ret].
    split; [reflexivity |]. split; [exact Hrev |].
    rewrite text_len_app. change (text_len ellipsis) with 3. lia.
  - exists g, []. split; [reflexivity |].
    split; [rewrite app_nil_r; reflexivity |].
    rewrite text_len_app. change (text_len ellipsis) with 3. lia.
Qed.

End Trimming.

Section WrapResult.

Variable max_chars : Z.

(** A text that fits is kept on one line. *)
Lemma fold_fits (words cur : list pystr) :
  text_len (join space (cur ++ words)) <= max_chars ->
  fold_left (group_step max_chars) words ([], cur) = ([], cur ++ words).
Proof.
  revert cur. induction words as [| w words IH]; intros cur H.
  - rewrite app_nil_r. reflexivity.
  - cbn [fold_left]. unfold group_step at 2.
    assert (Hpot : match cur with
                   | [] => text_len w
                   | _ :: _ => text_len (join space cur) + 1 + text_len w
                   end = text_len (join space (cur ++ [w]))).
    { destruct cur as [| p r]; [reflexivity |].
      rewrite text_len_join_snoc by discriminate. reflexivity. }
    rewrite Hpot.
    replace (cur ++ w :: words) with ((cur ++ [w]) ++ words) in *
      by (rewrite <- app_assoc; reflexivity).
    pose proof (text_len_join_prefix (cur ++ [w]) words) as Hpre.
    destruct (Z.leb_spec (text_len (join space (cur ++ [w]))) max_chars)
      as [Hle | Hgt]; [| lia].
    apply IH. exact H.
Qed.

Lemma wrap_groups_fits (words : list pystr) :
  text_len (join space words) <= max_chars ->
  wrap_groups words max_chars = match words with [] => [] | _ => [words] end.
Proof.
  intros H. unfold wrap_groups. rewrite (fold_fits words []) by exact H.
  destruct words; reflexivity.
Qed.

Lemma text_len_join_app (a b : list pystr) :
  a <> [] -> b <> [] ->
  text_len (join space (a ++ b))
  = text_len (join space a) + 1 + text_len (join space b).
Proof.
  intros Ha Hb. rewrite join_app by assumption. rewrite !text_len_app.
  change (text_len space) with 1. lia.
Qed.

(** Words that fit the budget fill at most [2 * budget + 1] characters in
    two lines. *)
Lemma wrap_groups_many (words : list pystr) :
  0 <= max_chars ->
  Forall (fun w => text_len w <= max_chars) words ->
  2 * max_chars + 1 < text_len (join space words) ->
  (2 < List.length (wrap_groups words max_chars))%nat.
Proof.
  intros Hmax Hwords Hlong.
  destruct (wrap_groups_spec max_chars words) as (Hcat & Hne & Hfit & _).
  set (groups := wrap_groups words max_chars) in *.
  assert (Hall : Forall (fun g => text_len (join space g) <= max_chars) groups).
  { rewrite Forall_forall in *. intros g Hg.
    destruct (Hfit g Hg) as [H | (w & ->)]; [exact H |].
    cbn [join]. apply Hwords. rewrite <- Hcat. apply in_concat.
    exists [w]. split; [exact Hg | left; reflexivity]. }
  destruct groups as [| g1 [| g2 [| g3 rest]]]; cbn [List.length]; try lia;
    exfalso; cbn [List.concat] in Hcat; rewrite <- Hcat in Hlong.
  - change (text_len (join space [])) with 0 in Hlong. lia.
  - rewrite app_nil_r in Hlong. inversion Hall; subst. lia.
  - rewrite app_nil_r in Hlong.
    inversion Hall as [| ? ? H1 Hall']; subst.
    inversion Hall' as [| ? ? H2 _]; subst.
    inversion Hne as [| ? ? N1 Hne']; subst.
    inversion Hne' as [| ? ? N2 _]; subst.
    rewrite text_len_join_app in Hlong by assumption. lia.
Qed.

Lemma Forall_concat_words (groups : list (list pystr)) :
  Forall (fun w => is_word w = true) (List.concat groups) ->
  Forall (Forall (fun w => is_word w = true)) groups.
Proof.
  induction groups as [| g groups IH]; cbn [List.concat]; intros H;
    [constructor |].
  apply Forall_app in H. destruct H as [Hg Hrest].
  constructor; [exact Hg | apply IH; exact Hrest].
Qed.

Lemma line_count_one (s : pystr) :
  count_occ N.eq_dec s 0x0A%N = 0%nat -> line_count s = 1.
Proof. unfold line_count. intros ->. reflexivity. Qed.

Lemma line_count_two (a b : pystr) :
  count_occ N.eq_dec a 0x0A%N = 0%nat ->
  count_occ N.eq_dec b 0x0A%N = 0%nat ->
  line_count (a ++ newline ++ b) = 2.
Proof.
  unfold line_count. intros Ha Hb. rewrite !count_occ_app, Ha, Hb. reflexivity.
Qed.

(** At most two wrapped lines: nothing is cut. *)
Lemma wrap_short (text : pystr) :
  (List.length (wrap_lines text max_chars) <= 2)%nat ->
  exists out,
    _wrap_text_for_vertical_video text max_chars = inr out /\
    out = join newline (wrap_lines text max_chars) /\
    split_ws out = split_ws text /\
    1 <= line_count out <= 2.
Proof.
  intros Hlen.
  unfold _wrap_text_for_vertical_video, final_lines.
  destruct (Z.ltb_spec 2 (Z.of_nat (List.length (wrap_lines text max_chars))))
    as [H | _]; [lia |].
  cbn [bind ret]. eexists. split; [reflexivity |]. split; [reflexivity |].
  rewrite wrap_lines_groups in *.
  destruct (wrap_groups_spec max_chars (split_ws text)) as (Hcat & Hne & _ & _).
  pose proof (split_words text) as Hwords. rewrite <- Hcat in Hwords.
  apply Forall_concat_words in Hwords.
  remember (wrap_groups (split_ws text) max_chars) as groups eqn:Eg.
  clear Eg. rewrite <- Hcat.
  destruct groups as [| g1 [| g2 [| g3 rest]]];
    cbn [List.length map] in *; try lia.
  - split; [reflexivity |]. cbn. lia.
  - inversion Hwords as [| ? ? H1 _]; subst.
    cbn [join List.concat]. rewrite app_nil_r.
    split; [apply split_join; exact H1 |].
    rewrite line_count_one by (apply join_no_newline; exact H1). lia.
  - inversion Hwords as [| ? ? H1 Hw']; subst.
    inversion Hw' as [| ? ? H2 _]; subst.
    inversion Hne as [| ? ? N1 _]; subst.
    cbn [join List.concat]. rewrite app_nil_r. split.
    + change (join space g1 ++ newline ++ join space g2)
        with (join space g1 ++ 0x0A%N :: join space g2).
      rewrite split_join_sep by (assumption || reflexivity).
      rewrite (split_join g2 H2). reflexivity.
    + rewrite line_count_two by (apply join_no_newline; assumption). lia.
Qed.

(** More than two wrapped lines: the first is kept, the second ends with
    the ellipsis and fits the budget. *)
Lemma wrap_long (text : pystr) :
  3 <= max_chars ->
  (2 < List.length (wrap_lines text max_chars))%nat ->
  exists first second kept dropped,
    nth_error (wrap_lines text max_chars) 0 = Some first /\
    nth_error (wrap_lines text max_chars) 1 = Some second /\
    split_ws second = kept ++ dropped /\
    _wrap_text_for_vertical_video text max_chars
    = inr (first ++ newline ++ join space kept ++ ellipsis) /\
    text_len (join space kept ++ ellipsis) <= max_chars /\
    line_count (first ++ newline ++ join space kept ++ ellipsis) = 2.
Proof.
  intros Hbudget Hlen.
  unfold _wrap_text_for_vertical_video, final_lines.
  destruct (Z.ltb_spec 2 (Z.of_nat (List.length (wrap_lines text max_chars))))
    as [_ | H]; [| lia].
  rewrite wrap_lines_groups in *.
  destruct (wrap_groups_spec max_chars (split_ws text)) as (Hcat & _ & _ & _).
  pose proof (split_words text) as Hwords. rewrite <- Hcat in Hwords.
  apply Forall_concat_words in Hwords.
  destruct (wrap_groups (split_ws text) max_chars) as [| g1 [| g2 rest]];
    cbn [List.length map] in *; try lia.
  inversion Hwords as [| ? ? H1 Hw']; subst.
  inversion Hw' as [| ? ? H2 _]; subst.
  destruct (trim_last_line_spec max_chars Hbudget g2 H2)
    as (kept & dropped & Htrim & Hsplit & Hfit).
  exists (join space g1), (join space g2), kept, dropped.
  cbn [firstn nth_error]. rewrite Htrim. cbn [bind ret join].
  split; [reflexivity |]. split; [reflexivity |].
  split; [rewrite (split_join g2 H2); exact Hsplit |].
  split; [reflexivity |]. split; [exact Hfit |].
  apply line_count_two; [apply join_no_newline; exact H1 |].
  rewrite count_occ_app.
  assert (Hk : Forall (fun w => is_word w = true) kept).
  { rewrite Hsplit in H2. apply Forall_app in H2. apply H2. }
  rewrite (join_no_newline kept Hk). reflexivity.
Qed.

End WrapResult.

(** The words of a list fit a budget when the boolean test says so. *)
Lemma words_fit_dec (l : list pystr) (m : Z) :
  forallb (fun w => text_len w <=? m) l = true ->
  Forall (fun w => text_len w <= m) l.
Proof.
  intros H. apply Forall_forall. intros w Hw.
  rewrite forallb_forall in H. apply Z.leb_le. exact (H w Hw).
Qed.

(** C5 (amended): for every caption text and every budget of at least 3
    characters the wrap returns one or two lines.  When the stripped
    length of the text, its words separated by single spaces, is within
    the budget, the result is that one line.  When the text wraps in at
    most two lines, no word and no glyph is dropped.  When it needs more,
    the first line is kept, and the second is cut to a prefix of its words
    followed by an ellipsis, within the budget; what lies beyond is
    dropped, glyphs included.  A text whose words each fit the budget and
    whose stripped length exceeds twice the budget plus one needs more than
    two lines; in particular Scenario D (two leading glyphs, 45 plain
    characters, budget 20) wraps to two lines, the second ending with the
    ellipsis and the glyphs intact. *)
Theorem wrap_caption_lines (text : pystr) (max_chars : Z) :
  3 <= max_chars ->
  (exists out,
     _wrap_text_for_vertical_video text max_chars = inr out /\
     1 <= line_count out <= 2 /\
     (text_len (join space (split_ws text)) <= max_chars ->
      out = join space (split_ws text) /\ line_count out = 1) /\
     ((List.length (wrap_lines text max_chars) <= 2)%nat ->
      split_ws out = split_ws text) /\
     ((2 < List.length (wrap_lines text max_chars))%nat ->
      exists first second kept dropped,
        nth_error (wrap_lines text max_chars) 0 = Some first /\
        nth_error (wrap_lines text max_chars) 1 = Some second /\
        split_ws second = kept ++ dropped /\
        out = first ++ newline ++ join space kept ++ ellipsis /\
        text_len (join space kept ++ ellipsis) <= max_chars /\
        line_count out = 2) /\
     (Forall (fun w => text_len w <= max_chars) (split_ws text) ->
      2 * max_chars + 1 < text_len (join space (split_ws text)) ->
      (2 < List.length (wrap_lines text max_chars))%nat)) /\
  _wrap_text_for_vertical_video scenario_d_text 20 = inr scenario_d_wrapped.
Proof.
  intros Hbudget. split; [| reflexivity].
  assert (Hmany :
    Forall (fun w => text_len w <= max_chars) (split_ws text) ->
    2 * max_chars + 1 < text_len (join space (split_ws text)) ->
    (2 < List.length (wrap_lines text max_chars))%nat).
  { intros H1 H2. rewrite wrap_lines_groups, length_map.
    apply wrap_groups_many; [lia | exact H1 | exact H2]. }
  assert (Hone :
    text_len (join space (split_ws text)) <= max_chars ->
    wrap_lines text max_chars
    = match split_ws text with [] => [] | _ => [join space (split_ws text)] end).
  { intros H. rewrite wrap_lines_groups, (wrap_groups_fits max_chars _ H).
    destruct (split_ws text); reflexivity. }
  destruct (le_lt_dec (List.length (wrap_lines text max_chars)) 2) as [Hshort | Hlong].
  - destruct (wrap_short max_chars text Hshort) as (out & Hrun & Hout & Hsplit & Hcount).
    exists out. split; [exact Hrun |]. split; [exact Hcount |].
    split; [| split; [intros _; exact Hsplit | split; [intros H; lia | exact Hmany]]].
    intros Hfit. rewrite (Hone Hfit) in Hout.
    assert (Heq : out = join space (split_ws text)).
    { rewrite Hout. destruct (split_ws text); reflexivity. }
    split; [exact Heq |]. rewrite Heq.
    apply line_count_one, join_no_newline, split_words.
  - destruct (wrap_long max_chars text Hbudget Hlong)
      as (first & second & kept & dropped & H0 & H1 & Hsp & Hrun & Hfit & Hcount).
    eexists. split; [exact Hrun |]. split; [rewrite Hcount; lia |].
    split.
    { intros Hfits. rewrite (Hone Hfits) in Hlong.
      destruct (split_ws text); cbn in Hlong; lia. }
    split; [intros H; lia |].
    split; [| exact Hmany].
    intros _. exists first, second, kept, dropped.
    repeat (split; [assumption || reflexivity |]). exact Hcount.
Qed.

Lemma wrap_caption_lines_witness :
  (exists out,
     _wrap_text_for_vertical_video scenario_d_text 20 = inr out /\
     1 <= line_count out <= 2 /\
     exists first second kept dropped,
       nth_error (wrap_lines scenario_d_text 20) 0 = Some first /\
       nth_error (wrap_lines scenario_d_text 20) 1 = Some second /\
       split_ws second = kept ++ dropped /\
       out = first ++ newline ++ join space kept ++ ellipsis /\
       text_len (join space kept ++ ellipsis) <= 20 /\
       line_count out = 2) /\
  _wrap_text_for_vertical_video scenario_d_text 20 = inr scenario_d_wrapped.
Proof.
  destruct (wrap_caption_lines scenario_d_text 20 ltac:(lia))
    as ((out & Hrun & Hcount & _ & _ & Hlong & Hmany) & Hd).
  split; [| exact Hd].
  exists out. split; [exact Hrun |]. split; [exact Hcount |].
  apply Hlong. apply Hmany.
  - apply words_fit_dec. vm_compute. reflexivity.
  - reflexivity.
Defined.

(** C5 as stated fails.  A glyph on the third wrapped line is dropped with
    it; a text of stripped length 20 around an ideographic space wraps to
    two lines; two leading glyphs with one unbroken word of 45 plain
    characters wrap to one line without an ellipsis; and at a budget of 2
    the cut raises instead of returning two lines. *)
Lemma wrap_drops_glyphs_beyond_two_lines :
  (existsb (N.eqb money_bag_glyph) trailing_glyph_text = true /\
   _wrap_text_for_vertical_video trailing_glyph_text 20
   = inr (lit "Save money every" ++ newline ++ lit "month with this...") /\
   existsb (N.eqb money_bag_glyph)
     (lit "Save money every" ++ newline ++ lit "month with this...") = false) /\
  (text_len ideographic_space_text <= 20 /\
   exists out, _wrap_text_for_vertical_video ideographic_space_text 20 = inr out /\
               line_count out = 2) /\
  (text_len unbroken_text = 45 /\
   _wrap_text_for_vertical_video unbroken_text 20 = inr unbroken_text /\
   line_count unbroken_text = 1) /\
  _wrap_text_for_vertical_video (lit "a b c") 2 = inl IndexError.
Proof.
  split; [split; [reflexivity | split; reflexivity] |].
  split.
  { split; [vm_compute; discriminate |].
    eexists. split; [vm_compute; reflexivity | reflexivity]. }
  split; [split; [reflexivity | split; reflexivity] |].
  reflexivity.
Qed.

(** * Further properties of the geometry planner *)

(** X1: when width/height does not exceed 9/16 the planner crops top and
    bottom: cropWidth = width, cropHeight = width * 16/9 rounded down,
    xOffset = 0 and yOffset = (height - cropHeight) / 2 rounded down. *)
Theorem crop_top_bottom_when_too_tall (width height : Z) :
  frame_dimension width -> frame_dimension height ->
  (inject_Z width / inject_Z height <= 9 # 16)%Q ->
  _calculate_crop_params width height
  = inr (width, Qfloor (inject_Z width * (16 # 9)), 0,
         (height - Qfloor (inject_Z width * (16 # 9))) / 2).
Proof.
  intros Hw Hh Hratio.
  assert (Hfloor : Qfloor (inject_Z width * (16 # 9)) = 16 * width / 9).
  { rewrite (Qfloor_comp _ (16 * width # 9)); [reflexivity |].
    rewrite (Qmake_Qdiv (16 * width) 9), inject_Z_mult. field. }
  rewrite Hfloor. apply crop_tall; [exact Hw | exact Hh |].
  destruct Hh as [Hh0 _].
  assert (HhQ : (0 < inject_Z height)%Q) by (apply inject_Z_pos; exact Hh0).
  apply (proj2 (Qmult_le_r _ _ _ HhQ)) in Hratio.
  assert (Hcancel : (inject_Z width / inject_Z height * inject_Z height
                     == inject_Z width)%Q) by (field; lra).
  assert (HQ : (inject_Z (16 * width) <= inject_Z (9 * height))%Q).
  { rewrite !inject_Z_mult.
    change (inject_Z 9) with 9%Q. change (inject_Z 16) with 16%Q. lra. }
  rewrite <- Zle_Qle in HQ. exact HQ.
Qed.

Lemma crop_top_bottom_when_too_tall_witness :
  _calculate_crop_params 1080 2400
  = inr (1080, Qfloor (inject_Z 1080 * (16 # 9)), 0,
         (2400 - Qfloor (inject_Z 1080 * (16 # 9))) / 2).
Proof.
  apply (crop_top_bottom_when_too_tall 1080 2400).
  - unfold frame_dimension. lia.
  - unfold frame_dimension. lia.
  - discriminate.
Defined.

(** X2: a source that already has the 9:16 ratio is not cropped: the
    window is the full frame. *)
Theorem crop_is_identity_at_target_ratio (width height : Z) :
  frame_dimension width -> frame_dimension height ->
  16 * width = 9 * height ->
  _calculate_crop_params width height = inr (width, height, 0, 0).
Proof.
  intros Hw Hh Heq.
  rewrite (crop_tall width height Hw Hh ltac:(lia)).
  assert (Hch : 16 * width / 9 = height).
  { rewrite Heq, Z.mul_comm. apply Z.div_mul. lia. }
  rewrite Hch, Z.sub_diag. reflexivity.
Qed.

Lemma crop_is_identity_at_target_ratio_witness :
  _calculate_crop_params 1080 1920 = inr (1080, 1920, 0, 0).
Proof.
  apply (crop_is_identity_at_target_ratio 1080 1920);
    unfold frame_dimension; lia.
Defined.

Lemma crop_cases (width height : Z) :
  frame_dimension width -> frame_dimension height ->
  (9 * height < 16 * width /\
   _calculate_crop_params width height
   = inr (9 * height / 16, height, (width - 9 * height / 16) / 2, 0)) \/
  (16 * width <= 9 * height /\
   _calculate_crop_params width height
   = inr (width, 16 * width / 9, 0, (height - 16 * width / 9) / 2)).
Proof.
  intros Hw Hh.
  destruct (Z_lt_ge_dec (9 * height) (16 * width)) as [Hwide | Htall].
  - left. split; [exact Hwide | apply crop_wide; assumption].
  - right. split; [lia | apply crop_tall; [assumption | assumption | lia]].
Qed.

(** X3: the crop window has the 9:16 ratio up to the integer rounding of
    one side: 16 * cropWidth and 9 * cropHeight differ by less than 16. *)
Theorem crop_window_has_target_ratio (width height : Z) :
  frame_dimension width -> frame_dimension height ->
  exists crop_width crop_height x_offset y_offset,
    _calculate_crop_params width height
    = inr (crop_width, crop_height, x_offset, y_offset) /\
    Z.abs (16 * crop_width - 9 * crop_height) < 16.
Proof.
  intros Hw Hh.
  destruct (crop_cases width height Hw Hh) as [[Hc ->] | [Hc ->]];
    do 4 eexists; (split; [reflexivity |]).
  - pose proof (Z.div_mod (9 * height) 16 ltac:(lia)).
    pose proof (Z.mod_pos_bound (9 * height) 16 ltac:(lia)). lia.
  - pose proof (Z.div_mod (16 * width) 9 ltac:(lia)).
    pose proof (Z.mod_pos_bound (16 * width) 9 ltac:(lia)). lia.
Qed.

Lemma crop_window_has_target_ratio_witness :
  exists crop_width crop_height x_offset y_offset,
    _calculate_crop_params 1280 720
    = inr (crop_width, crop_height, x_offset, y_offset) /\
    Z.abs (16 * crop_width - 9 * crop_height) < 16.
Proof.
  apply (crop_window_has_target_ratio 1280 720); unfold frame_dimension; lia.
Defined.

(** X4: the crop window is centred: the margin left after the window is
    the offset before it, or one pixel more. *)
Theorem crop_window_is_centred (width height : Z) :
  frame_dimension width -> frame_dimension height ->
  exists crop_width crop_height x_offset y_offset,
    _calculate_crop_params width height
    = inr (crop_width, crop_height, x_offset, y_offset) /\
    0 <= (width - crop_width - x_offset) - x_offset <= 1 /\
    0 <= (height - crop_height - y_offset) - y_offset <= 1.
Proof.
  intros Hw Hh.
  destruct (crop_cases width height Hw Hh) as [[Hc ->] | [Hc ->]];
    do 4 eexists; (split; [reflexivity |]).
  - set (cw := 9 * height / 16).
    pose proof (Z.div_mod (width - cw) 2 ltac:(lia)).
    pose proof (Z.mod_pos_bound (width - cw) 2 ltac:(lia)). lia.
  - set (ch := 16 * width / 9).
    pose proof (Z.div_mod (height - ch) 2 ltac:(lia)).
    pose proof (Z.mod_pos_bound (height - ch) 2 ltac:(lia)). lia.
Qed.

Lemma crop_window_is_centred_witness :
  exists crop_width crop_height x_offset y_offset,
    _calculate_crop_params 1920 1080
    = inr (crop_width, crop_height, x_offset, y_offset) /\
    0 <= (1920 - crop_width - x_offset) - x_offset <= 1 /\
    0 <= (1080 - crop_height - y_offset) - y_offset <= 1.
Proof.
  apply (crop_window_is_centred 1920 1080); unfold frame_dimension; lia.
Defined.

(** X5: a frame at least two pixels high gets a crop window with positive
    width and height; a height of zero raises ZeroDivisionError, and a
    wide frame one pixel high gets a window of width 0. *)
Theorem crop_window_is_not_empty (width height : Z) :
  frame_dimension width -> frame_dimension height ->
  (2 <= height ->
   exists crop_width crop_height x_offset y_offset,
     _calculate_crop_params width height
     = inr (crop_width, crop_height, x_offset, y_offset) /\
     0 < crop_width /\ 0 < crop_height) /\
  _calculate_crop_params width 0 = inl ZeroDivisionError /\
  _calculate_crop_params width 1 = inr (0, 1, width / 2, 0).
Proof.
  intros Hw Hh. split; [| split].
  - intros H2.
    destruct (crop_cases width height Hw Hh) as [[Hc ->] | [Hc ->]];
      do 4 eexists; (split; [reflexivity |]).
    + destruct Hh. split; [| lia].
      apply Z.div_str_pos. lia.
    + destruct Hw. split; [lia |]. apply Z.div_str_pos. lia.
  - reflexivity.
  - rewrite (crop_wide width 1 Hw); [| unfold frame_dimension; lia
                                     | destruct Hw; lia].
    change (9 * 1 / 16) with 0. rewrite Z.sub_0_r. reflexivity.
Qed.

Lemma crop_window_is_not_empty_witness :
  (2 <= 1080 ->
   exists crop_width crop_height x_offset y_offset,
     _calculate_crop_params 1920 1080
     = inr (crop_width, crop_height, x_offset, y_offset) /\
     0 < crop_width /\ 0 < crop_height) /\
  _calculate_crop_params 1920 0 = inl ZeroDivisionError /\
  _calculate_crop_params 1920 1 = inr (0, 1, 1920 / 2, 0).
Proof.
  apply (crop_window_is_not_empty 1920 1080); unfold frame_dimension; lia.
Defined.

(** * Further properties of the caption wrapping *)

Section WrapMore.

Variable max_chars : Z.

Lemma split_all_space (s : pystr) :
  forallb isspace s = true -> split_ws s = [].
Proof.
  unfold split_ws. induction s as [| c s IH]; [reflexivity |].
  cbn [forallb split_ws_aux]. intros H. apply andb_true_iff in H.
  destruct H as [Hc Hs]. rewrite Hc. cbn [nonempty app]. apply IH. exact Hs.
Qed.

(** More than two wrapped lines, on the words. *)
Lemma wrap_long_groups (text : pystr) :
  3 <= max_chars ->
  (2 < List.length (wrap_lines text max_chars))%nat ->
  exists g1 kept dropped rest,
    wrap_groups (split_ws text) max_chars = g1 :: (kept ++ dropped) :: rest /\
    _wrap_text_for_vertical_video text max_chars
    = inr (join space g1 ++ newline ++ join space kept ++ ellipsis) /\
    text_len (join space kept ++ ellipsis) <= max_chars.
Proof.
  intros Hbudget Hlen.
  unfold _wrap_text_for_vertical_video, final_lines.
  destruct (Z.ltb_spec 2 (Z.of_nat (List.length (wrap_lines text max_chars))))
    as [_ | H]; [| lia].
  rewrite wrap_lines_groups in *.
  destruct (wrap_groups_spec max_chars (split_ws text)) as (Hcat & _ & _ & _).
  pose proof (split_words text) as Hwords. rewrite <- Hcat in Hwords.
  apply Forall_concat_words in Hwords.
  destruct (wrap_groups (split_ws text) max_chars) as [| g1 [| g2 rest]];
    cbn [List.length map] in *; try lia.
  inversion Hwords as [| ? ? H1 Hw']; subst.
  inversion Hw' as [| ? ? H2 _]; subst.
  destruct (trim_last_line_spec max_chars Hbudget g2 H2)
    as (kept & dropped & Htrim & Hsplit & Hfit).
  exists g1, kept, dropped, rest.
  cbn [firstn]. rewrite Htrim. cbn [bind ret join].
  split; [rewrite Hsplit; reflexivity |]. split; [reflexivity | exact Hfit].
Qed.

End WrapMore.

(** X6: the wrapped caption is made of the leading words of the text, in
    their order: either all of them, or a prefix of them followed by the
    ellipsis.  Nothing is reordered, altered or invented. *)
Theorem wrap_keeps_leading_words (text : pystr) (max_chars : Z) :
  3 <= max_chars ->
  exists out kept dropped,
    _wrap_text_for_vertical_video text max_chars = inr out /\
    split_ws text = kept ++ dropped /\
    ((dropped = [] /\ split_ws out = kept) \/
     (exists body, out = body ++ ellipsis /\ split_ws body = kept)).
Proof.
  intros Hbudget.
  destruct (le_lt_dec (List.length (wrap_lines text max_chars)) 2)
    as [Hshort | Hlong].
  - destruct (wrap_short max_chars text Hshort) as (out & Hrun & _ & Hsplit & _).
    exists out, (split_ws text), []. split; [exact Hrun |].
    split; [rewrite app_nil_r; reflexivity |]. left. split; [reflexivity | exact Hsplit].
  - destruct (wrap_long_groups max_chars text Hbudget Hlong)
      as (g1 & kept & dropped & rest & Hg & Hrun & _).
    destruct (wrap_groups_spec max_chars (split_ws text)) as (Hcat & Hne & _ & _).
    pose proof (split_words text) as Hwords. rewrite <- Hcat in Hwords.
    apply Forall_concat_words in Hwords.
    rewrite Hg in Hcat, Hne, Hwords.
    inversion Hwords as [| ? ? H1 Hw']; subst.
    inversion Hw' as [| ? ? H2 _]; subst.
    inversion Hne as [| ? ? N1 _]; subst.
    apply Forall_app in H2. destruct H2 as [Hk _].
    exists (join space g1 ++ newline ++ join space kept ++ ellipsis),
           (g1 ++ kept), (dropped ++ List.concat rest).
    split; [exact Hrun |]. split.
    + rewrite <- Hcat. cbn [List.concat]. rewrite <- !app_assoc. reflexivity.
    + right. exists (join space g1 ++ newline ++ join space kept).
      split; [rewrite <- !app_assoc; reflexivity |].
      change (join space g1 ++ newline ++ join space kept)
        with (join space g1 ++ 0x0A%N :: join space kept).
      rewrite split_join_sep by (assumption || reflexivity).
      rewrite (split_join kept Hk). reflexivity.
Qed.

Lemma wrap_keeps_leading_words_witness :
  exists out kept dropped,
    _wrap_text_for_vertical_video trailing_glyph_text 20 = inr out /\
    split_ws trailing_glyph_text = kept ++ dropped /\
    ((dropped = [] /\ split_ws out = kept) \/
     (exists body, out = body ++ ellipsis /\ split_ws body = kept)).
Proof. apply (wrap_keeps_leading_words trailing_glyph_text 20). lia. Defined.

Section WrapLines.

Variable max_chars : Z.

Lemma split_on_aux_none (c : N) (s cur : pystr) :
  count_occ N.eq_dec s c = 0%nat -> split_on_aux c cur s = [rev cur ++ s].
Proof.
  revert cur. induction s as [| x s IH]; intros cur H; cbn [split_on_aux].
  - rewrite app_nil_r. reflexivity.
  - cbn [count_occ] in H. destruct (N.eq_dec x c) as [-> | Hne]; [discriminate |].
    apply N.eqb_neq in Hne. rewrite Hne. rewrite IH by exact H.
    cbn [rev]. rewrite <- app_assoc. reflexivity.
Qed.

Lemma split_on_aux_first (c : N) (a b cur : pystr) :
  count_occ N.eq_dec a c = 0%nat ->
  split_on_aux c cur (a ++ c :: b) = (rev cur ++ a) :: split_on_aux c [] b.
Proof.
  revert cur. induction a as [| x a IH]; intros cur H; cbn [app split_on_aux].
  - rewrite N.eqb_refl, app_nil_r. reflexivity.
  - cbn [count_occ] in H. destruct (N.eq_dec x c) as [-> | Hne]; [discriminate |].
    apply N.eqb_neq in Hne. rewrite Hne. rewrite IH by exact H.
    cbn [rev]. rewrite <- app_assoc. reflexivity.
Qed.

Lemma lines_of_one (a : pystr) :
  count_occ N.eq_dec a 0x0A%N = 0%nat -> split_on 0x0A a = [a].
Proof. intros H. unfold split_on. rewrite split_on_aux_none by exact H. reflexivity. Qed.

Lemma lines_of_two (a b : pystr) :
  count_occ N.eq_dec a 0x0A%N = 0%nat -> count_occ N.eq_dec b 0x0A%N = 0%nat ->
  split_on 0x0A (a ++ newline ++ b) = [a; b].
Proof.
  intros Ha Hb. unfold split_on. cbn [newline app].
  rewrite split_on_aux_first by exact Ha.
  rewrite split_on_aux_none by exact Hb. reflexivity.
Qed.

(** When every word fits, every line of words fits. *)
Lemma groups_all_fit (words : list pystr) :
  Forall (fun w => text_len w <= max_chars) words ->
  Forall (fun g => text_len (join space g) <= max_chars)
    (wrap_groups words max_chars).
Proof.
  intros Hwords.
  destruct (wrap_groups_spec max_chars words) as (Hcat & _ & Hfit & _).
  rewrite Forall_forall in *. intros g Hg.
  destruct (Hfit g Hg) as [H | (w & ->)]; [exact H |].
  cbn [join]. apply Hwords. rewrite <- Hcat. apply in_concat.
  exists [w]. split; [exact Hg | left; reflexivity].
Qed.

Lemma pop_words_raises (rev_words : list pystr) :
  max_chars < 3 -> pop_words max_chars rev_words = inl IndexError.
Proof.
  intros Hmax. induction rev_words as [| x rest IH]; cbn [pop_words].
  - change (len (strip_emoji (join space (rev [])))) with 0.
    destruct (Z.gtb_spec 0 (max_chars - 3)); [reflexivity | lia].
  - fold (text_len (join space (rev (x :: rest)))).
    pose proof (text_len_nonneg (join space (rev (x :: rest)))).
    destruct (Z.gtb_spec (text_len (join space (rev (x :: rest)))) (max_chars - 3));
      [exact IH | lia].
Qed.

End WrapLines.

(** X7: when every word of the text fits the budget, every line of the
    wrapped caption fits it too, the ellipsis included. *)
Theorem wrapped_lines_fit_budget (text : pystr) (max_chars : Z) :
  3 <= max_chars ->
  Forall (fun w => text_len w <= max_chars) (split_ws text) ->
  exists out,
    _wrap_text_for_vertical_video text max_chars = inr out /\
    Forall (fun line => text_len line <= max_chars) (split_on 0x0A out).
Proof.
  intros Hbudget Hwords.
  pose proof (groups_all_fit max_chars (split_ws text) Hwords) as Hfit.
  destruct (wrap_groups_spec max_chars (split_ws text)) as (Hcat & _ & _ & _).
  pose proof (split_words text) as Hw. rewrite <- Hcat in Hw.
  apply Forall_concat_words in Hw.
  destruct (le_lt_dec (List.length (wrap_lines text max_chars)) 2)
    as [Hshort | Hlong].
  - destruct (wrap_short max_chars text Hshort) as (out & Hrun & Hout & _ & _).
    exists out. split; [exact Hrun |]. rewrite Hout.
    rewrite wrap_lines_groups in *.
    destruct (wrap_groups (split_ws text) max_chars) as [| g1 [| g2 [| g3 rest]]];
      cbn [List.length map join] in *; try lia.
    + cbn. constructor; [| constructor]. change (text_len []) with 0. lia.
    + inversion Hw; subst. inversion Hfit; subst.
      rewrite lines_of_one by (apply join_no_newline; assumption).
      constructor; [assumption | constructor].
    + inversion Hw as [| ? ? W1 Hw']; subst. inversion Hw' as [| ? ? W2 _]; subst.
      inversion Hfit as [| ? ? F1 Hf']; subst. inversion Hf' as [| ? ? F2 _]; subst.
      rewrite lines_of_two by (apply join_no_newline; assumption).
      repeat constructor; assumption.
  - destruct (wrap_long_groups max_chars text Hbudget Hlong)
      as (g1 & kept & dropped & rest & Hg & Hrun & Hsecond).
    rewrite Hg in Hw, Hfit.
    inversion Hw as [| ? ? W1 Hw']; subst. inversion Hw' as [| ? ? W2 _]; subst.
    inversion Hfit as [| ? ? F1 _]; subst.
    apply Forall_app in W2. destruct W2 as [Wk _].
    eexists. split; [exact Hrun |].
    rewrite lines_of_two.
    + repeat constructor; assumption.
    + apply join_no_newline. exact W1.
    + rewrite count_occ_app, (join_no_newline kept Wk). reflexivity.
Qed.

Lemma wrapped_lines_fit_budget_witness :
  exists out,
    _wrap_text_for_vertical_video scenario_d_text 20 = inr out /\
    Forall (fun line => text_len line <= 20) (split_on 0x0A out).
Proof.
  apply (wrapped_lines_fit_budget scenario_d_text 20).
  - lia.
  - apply words_fit_dec. vm_compute. reflexivity.
Defined.

(** X8: below a budget of 3 the wrap raises IndexError exactly when the
    text needs more than two lines: the loop that pops words off the last
    line empties it and pops once more. *)
Theorem wrap_raises_below_three (text : pystr) (max_chars : Z) :
  max_chars < 3 ->
  (_wrap_text_for_vertical_video text max_chars = inl IndexError <->
   (2 < List.length (wrap_lines text max_chars))%nat).
Proof.
  intros Hmax. split.
  - intros Hraise.
    destruct (le_lt_dec (List.length (wrap_lines text max_chars)) 2)
      as [Hshort | Hlong]; [| exact Hlong].
    destruct (wrap_short max_chars text Hshort) as (out & Hrun & _).
    rewrite Hrun in Hraise. discriminate.
  - intros Hlong.
    unfold _wrap_text_for_vertical_video, final_lines.
    destruct (Z.ltb_spec 2 (Z.of_nat (List.length (wrap_lines text max_chars))))
      as [_ | H]; [| lia].
    destruct (wrap_lines text max_chars) as [| l1 [| l2 rest]];
      cbn [List.length] in Hlong; try lia.
    cbn [firstn]. unfold trim_last_line. fold (text_len l2).
    pose proof (text_len_nonneg l2).
    destruct (Z.gtb_spec (text_len l2) (max_chars - 3)); [| lia].
    rewrite pop_words_raises by exact Hmax. reflexivity.
Qed.

Lemma wrap_raises_below_three_witness :
  _wrap_text_for_vertical_video (lit "a b c") 2 = inl IndexError <->
  (2 < List.length (wrap_lines (lit "a b c") 2))%nat.
Proof. apply (wrap_raises_below_three (lit "a b c") 2). lia. Defined.

(** X9: an empty or all-whitespace text wraps to the empty string, at
    every budget. *)
Theorem wrap_of_blank_text (text : pystr) (max_chars : Z) :
  forallb isspace text = true ->
  _wrap_text_for_vertical_video text max_chars = inr [].
Proof.
  intros H. unfold _wrap_text_for_vertical_video, final_lines, wrap_lines.
  rewrite (split_all_space text H). reflexivity.
Qed.

Lemma wrap_of_blank_text_witness :
  _wrap_text_for_vertical_video (lit "   ") 20 = inr [].
Proof. apply (wrap_of_blank_text (lit "   ") 20). reflexivity. Defined.

(** * Further properties of the overlay timeline *)

Section WindowOrder.

Local Open Scope Q_scope.

Lemma round_ge_nonneg (x f : Q) :
  representable f -> 0 <= f -> f <= x -> f <= round x.
Proof.
  intros Hf Hf0 Hle.
  destruct (Qlt_le_dec 0 f) as [Hpos | Hzero].
  - apply round_ge_repr; assumption.
  - assert (Hfz : f == 0) by lra.
    destruct (Qlt_le_dec 0 x) as [Hx | Hx].
    + rewrite (round_of_pos x Hx). pose proof (round_pos_nonneg x Hx). lra.
    + assert (Hxz : x == 0) by lra.
      rewrite (round_comp x 0 Hxz). cbn. lra.
Qed.

Lemma fle_of_Q (x f : Q) :
  representable f -> 0 <= f -> f <= x -> fle (Fin f) (of_Q x) = true.
Proof.
  intros Hf Hf0 Hle.
  pose proof (round_ge_nonneg x f Hf Hf0 Hle) as Hr.
  pose proof (pow2_pos emax) as Hmax.
  destruct (of_Q_cases x) as [[-> _] | [[_ H] | [-> _]]].
  - reflexivity.
  - exfalso. lra.
  - cbn. apply Qle_bool_iff. exact Hr.
Qed.

Lemma representable_zero : representable 0.
Proof. split; reflexivity. Qed.

End WindowOrder.

(** X10: every instruction that starts before the end of the video gets a
    window with 0 <= start <= end, whatever the sign of its timestamp. *)
Theorem overlay_window_is_ordered (t d D : Q) :
  representable t -> (0 < d)%Q -> (t < D)%Q ->
  exists start_time end_time,
    overlay_window (Fin t) (Fin d) (Fin D) = Some (start_time, end_time) /\
    fle (Fin 0) start_time = true /\ fle start_time end_time = true.
Proof.
  intros Ht Hd HtD. unfold overlay_window.
  replace (fge (Fin t) (Fin D)) with false.
  2:{ unfold fge, fle. symmetry. apply not_true_is_false. intros H.
      apply Qle_bool_iff in H. lra. }
  do 2 eexists. split; [reflexivity |].
  (* the start time is a float s with 0 <= s and t <= s *)
  assert (Hs : exists s, (if fgt (Fin t) (Fin 0) then Fin t else Fin 0) = Fin s /\
                         representable s /\ (0 <= s)%Q /\ (t <= s)%Q).
  { unfold fgt, flt. destruct (Qle_bool t 0) eqn:E; cbn [negb].
    - apply Qle_bool_iff in E. exists 0%Q.
      split; [reflexivity |]. split; [apply representable_zero |]. split; lra.
    - exists t. split; [reflexivity |]. split; [exact Ht |].
      assert (~ (t <= 0)%Q) by (intros H; apply Qle_bool_iff in H; congruence).
      split; lra. }
  destruct Hs as (s & -> & Hsrep & Hs0 & Hts).
  split; [cbn; apply Qle_bool_iff; exact Hs0 |].
  destruct (fgt (fadd (Fin t) (Fin d)) (Fin D)).
  - (* clamped duration *)
    unfold fsub, fopp. cbn [fadd].
    pose proof (pow2_pos emax) as Hmax.
    destruct (of_Q_cases (D + - t)) as [[-> _] | [[_ H] | [-> _]]].
    + reflexivity.
    + exfalso.
      assert (Hpos : (0 < D + - t)%Q) by lra.
      rewrite (round_of_pos _ Hpos) in H.
      pose proof (round_pos_nonneg _ Hpos). lra.
    + cbn [fadd]. apply fle_of_Q; [exact Hsrep | exact Hs0 |].
      assert (Hpos : (0 < D + - t)%Q) by lra.
      rewrite (round_of_pos _ Hpos).
      pose proof (round_pos_nonneg _ Hpos). lra.
  - cbn [fadd]. apply fle_of_Q; [exact Hsrep | exact Hs0 | lra].
Qed.

Lemma overlay_window_is_ordered_witness :
  exists start_time end_time,
    overlay_window (Fin (-1)) (Fin 3) (Fin 1) = Some (start_time, end_time) /\
    fle (Fin 0) start_time = true /\ fle start_time end_time = true.
Proof.
  apply (overlay_window_is_ordered (-1) 3 1).
  - split; reflexivity.
  - reflexivity.
  - reflexivity.
Defined.

Section Escaping.

Lemma guarded_weaken (c : N) (b : bool) (s : pystr) :
  guarded c false s = true -> guarded c b s = true.
Proof.
  destruct s as [| x rest]; [reflexivity |]. cbn [guarded].
  destruct (x =? c)%N; [discriminate |]. destruct b; exact (fun H => H).
Qed.

Lemma replace_guards (c : N) (b : bool) (s : pystr) :
  c <> backslash ->
  guarded c b (replace_char c [backslash; c] s) = true.
Proof.
  intros Hc. revert b. induction s as [| x rest IH]; intros b; [reflexivity |].
  unfold replace_char in *. cbn [flat_map].
  destruct (N.eqb_spec x c) as [-> | Hx].
  - cbn [app guarded].
    replace (backslash =? c)%N with false
      by (symmetry; apply N.eqb_neq; congruence).
    rewrite !N.eqb_refl.
    replace (c =? backslash)%N with false by (symmetry; apply N.eqb_neq, Hc).
    cbn [andb]. apply IH.
  - cbn [app guarded].
    replace (x =? c)%N with false by (symmetry; apply N.eqb_neq, Hx).
    cbn [andb]. apply IH.
Qed.

Lemma replace_keeps_guard (c d x : N) (b : bool) (s : pystr) :
  d <> c -> d <> backslash -> x <> c -> c <> backslash ->
  guarded c b s = true ->
  guarded c b (replace_char d [backslash; x] s) = true.
Proof.
  intros Hdc Hdb Hxc Hcb. revert b.
  induction s as [| y rest IH]; intros b H; [reflexivity |].
  unfold replace_char in *. cbn [flat_map]. cbn [guarded] in H.
  apply andb_true_iff in H. destruct H as [Hy Hrest].
  destruct (N.eqb_spec y d) as [-> | Hyd].
  - cbn [app guarded].
    replace (d =? backslash)%N with false in Hrest
      by (symmetry; apply N.eqb_neq, Hdb).
    replace (x =? c)%N with false by (symmetry; apply N.eqb_neq, Hxc).
    replace (backslash =? c)%N with false
      by (symmetry; apply N.eqb_neq; congruence).
    cbn [andb]. apply guarded_weaken, IH. exact Hrest.
  - cbn [app guarded]. rewrite Hy. cbn [andb]. apply IH. exact Hrest.
Qed.

Lemma replace_removes (d : N) (new s : pystr) :
  count_occ N.eq_dec new d = 0%nat ->
  count_occ N.eq_dec (replace_char d new s) d = 0%nat.
Proof.
  intros Hnew. induction s as [| y rest IH]; [reflexivity |].
  unfold replace_char in *. cbn [flat_map]. rewrite count_occ_app, IH.
  destruct (N.eqb_spec y d) as [-> | Hyd].
  - rewrite Hnew. reflexivity.
  - cbn [count_occ]. destruct (N.eq_dec y d); [congruence | reflexivity].
Qed.

End Escaping.

(** X11: the escaped caption holds no raw line break, and each colon,
    quote and double quote in it directly follows a backslash. *)
Theorem escaped_text_is_guarded (wrapped_text : pystr) :
  count_occ N.eq_dec (escape_text wrapped_text) 0x0A%N = 0%nat /\
  guarded colon false (escape_text wrapped_text) = true /\
  guarded quote false (escape_text wrapped_text) = true /\
  guarded dquote false (escape_text wrapped_text) = true.
Proof.
  unfold escape_text. split; [apply replace_removes; reflexivity |].
  split; [| split].
  - apply replace_keeps_guard; try discriminate.
    apply replace_keeps_guard; try discriminate.
    apply replace_keeps_guard; try discriminate.
    apply replace_guards. discriminate.
  - apply replace_keeps_guard; try discriminate.
    apply replace_keeps_guard; try discriminate.
    apply replace_guards. discriminate.
  - apply replace_keeps_guard; try discriminate.
    apply replace_guards. discriminate.
Qed.

Section OverlayStages.

Variable cfg : OverlayConfig.
Hypothesis Hfont : 0 < font_size cfg < 2 ^ 53.

Lemma wrap_returns (text : pystr) (max_chars : Z) :
  3 <= max_chars -> exists out, _wrap_text_for_vertical_video text max_chars = inr out.
Proof.
  intros Hbudget.
  destruct (le_lt_dec (List.length (wrap_lines text max_chars)) 2)
    as [Hshort | Hlong].
  - destruct (wrap_short max_chars text Hshort) as (out & Hrun & _).
    exists out. exact Hrun.
  - destruct (wrap_long_groups max_chars text Hbudget Hlong)
      as (g1 & kept & dropped & rest & _ & Hrun & _).
    eexists. exact Hrun.
Qed.

Lemma is_prefix_app (p s : pystr) : is_prefix p (p ++ s) = true.
Proof.
  induction p as [| c p IH]; [reflexivity |].
  cbn [app is_prefix]. rewrite N.eqb_refl. exact IH.
Qed.

(** The reduced font size of a multi-line caption is computed without
    error. *)
Lemma multiline_font_size :
  exists n, (f <- of_int (font_size cfg) ;;
             to_int (fmul f (of_Q (85 # 100))))%result = inr n.
Proof.
  destruct (of_int_exact (font_size cfg) Hfont) as (r & -> & Hr).
  cbn [bind].
  assert (Hc : exists c, of_Q (85 # 100) = Fin c /\ (0 < c)%Q /\ (c <= 1)%Q).
  { eexists. split; [vm_compute; reflexivity |]. split; [reflexivity | discriminate]. }
  destruct Hc as (c & -> & Hc0 & Hc1). cbn [fmul].
  assert (HrQ : (0 < r)%Q /\ (r <= 9007199254740992)%Q).
  { rewrite Hr. split; [apply inject_Z_pos; lia |].
    change 9007199254740992%Q with (inject_Z (2 ^ 53)).
    rewrite <- Zle_Qle. lia. }
  destruct HrQ as [Hr0 Hr1].
  pose proof pow2_53_le_max as Hmax.
  rewrite of_Q_pos.
  - eexists. reflexivity.
  - apply Qmult_lt_0_compat; assumption.
  - apply Qle_trans with (r * 1)%Q; [| lra].
    apply Qmult_le_l; assumption.
Qed.

Lemma drawtext_spec (text : pystr) (start_time end_time : float) :
  exists wrapped tail,
    _wrap_text_for_vertical_video text default_max_chars = inr wrapped /\
    drawtext cfg text start_time end_time
    = inr (lit "drawtext=text='" ++ escape_text wrapped ++ lit "'" ++ tail).
Proof.
  destruct (wrap_returns text default_max_chars ltac:(unfold default_max_chars; lia))
    as (wrapped & Hwrap).
  exists wrapped. unfold drawtext. rewrite Hwrap. cbn [bind].
  fold (escape_text wrapped).
  destruct (existsb (N.eqb 10) wrapped).
  - destruct multiline_font_size as (n & ->). cbn [bind ret].
    destruct (fgt (fade_duration cfg) (Fin 0));
      eexists; (split; [reflexivity |]); rewrite <- ?app_assoc; reflexivity.
  - cbn [bind ret].
    destruct (fgt (fade_duration cfg) (Fin 0));
      eexists; (split; [reflexivity |]); rewrite <- ?app_assoc; reflexivity.
Qed.

Lemma overlay_filters_spec (overlays : list overlay) (video_duration : float) :
  exists filters,
    overlay_filters cfg overlays video_duration = inr filters /\
    List.length filters = List.length (compiled_windows overlays video_duration) /\
    Forall (fun f => is_prefix (lit "drawtext=text='") f = true) filters.
Proof.
  induction overlays as [| o rest IH].
  - exists []. split; [reflexivity |]. split; [reflexivity | constructor].
  - destruct IH as (fs & Hfs & Hlen & Hall).
    cbn [overlay_filters compiled_windows flat_map].
    destruct (overlay_window (timestamp o) (duration o) video_duration)
      as [[start_time end_time] |].
    + destruct (drawtext_spec (text o) start_time end_time)
        as (wrapped & tail & _ & ->).
      rewrite Hfs. cbn [bind ret].
      eexists. split; [reflexivity |]. split.
      * cbn [List.length app]. f_equal. exact Hlen.
      * constructor; [apply is_prefix_app | exact Hall].
    + exists fs. split; [exact Hfs |]. split; [exact Hlen | exact Hall].
Qed.

End OverlayStages.

(** X12: with a font size between 1 and 2^53 the overlay filter is always
    built: it joins with commas exactly one drawtext stage per instruction
    that starts before the end of the video, and it is the empty string
    exactly when no instruction does. *)
Theorem overlay_filter_has_one_stage_per_window (cfg : OverlayConfig)
    (overlays : list overlay) (video_duration : float) :
  0 < font_size cfg < 2 ^ 53 ->
  exists filters,
    _create_overlay_filter cfg overlays video_duration
    = inr (join (lit ",") filters) /\
    List.length filters = List.length (compiled_windows overlays video_duration) /\
    Forall (fun f => is_prefix (lit "drawtext=text='") f = true) filters /\
    (join (lit ",") filters = [] <->
     compiled_windows overlays video_duration = []).
Proof.
  intros Hfont.
  destruct (overlay_filters_spec cfg Hfont overlays video_duration)
    as (filters & Hfs & Hlen & Hall).
  exists filters. split.
  - unfold _create_overlay_filter. destruct overlays as [| o rest].
    + cbn in Hfs. injection Hfs as <-. reflexivity.
    + rewrite Hfs. reflexivity.
  - split; [exact Hlen |]. split; [exact Hall |]. split.
    + intros Hnil. destruct filters as [| f fs].
      * destruct (compiled_windows overlays video_duration); [reflexivity | discriminate].
      * exfalso. inversion Hall as [| ? ? Hf _]; subst.
        destruct f as [| c f']; [discriminate |].
        destruct fs; discriminate.
    + intros Hnone. rewrite Hnone in Hlen.
      destruct filters; [reflexivity | discriminate].
Qed.

Lemma overlay_filter_has_one_stage_per_window_witness :
  exists filters,
    _create_overlay_filter (overlays_cfg sample_config)
      [mk_overlay (Fin 5) (lit "Hello") (Fin 3);
       mk_overlay (Fin 100) (lit "Late") (Fin 3)] (Fin 60)
    = inr (join (lit ",") filters) /\
    List.length filters
    = List.length
        (compiled_windows
           [mk_overlay (Fin 5) (lit "Hello") (Fin 3);
            mk_overlay (Fin 100) (lit "Late") (Fin 3)] (Fin 60)) /\
    Forall (fun f => is_prefix (lit "drawtext=text='") f = true) filters /\
    (join (lit ",") filters = [] <->
     compiled_windows
       [mk_overlay (Fin 5) (lit "Hello") (Fin 3);
        mk_overlay (Fin 100) (lit "Late") (Fin 3)] (Fin 60) = []).
Proof.
  apply (overlay_filter_has_one_stage_per_window (overlays_cfg sample_config)).
  cbn. lia.
Defined.

(** * Further properties of the overlay validation *)

Section ValidationMore.



Lemma validate_items_origin (items : list json) (l : list overlay) :
  validate_items items = inr l ->
  (List.length l <= List.length items)%nat /\
  forall o, In o l ->
            exists item, In item items /\ validate_item item = inr (Some o).
Proof.
  revert l. induction items as [| i rest IH]; intros l; cbn [validate_items].
  - intros H. injection H as <-. split; [cbn; lia | intros o []].
  - destruct (validate_item i) as [e | r] eqn:Ei; cbn [bind];
      [intros H; discriminate |].
    destruct (validate_items rest) as [e | l'] eqn:Er; cbn [bind];
      [intros H; discriminate |].
    intros H. injection H as <-.
    destruct (IH l' eq_refl) as (Hlen & Horigin).
    destruct r as [o' |].
    + split; [cbn [List.length]; lia |].
      intros o [<- | Hin].
      * exists i. split; [left; reflexivity | exact Ei].
      * destruct (Horigin o Hin) as (item & Hitem & Hv).
        exists item. split; [right; exact Hitem | exact Hv].
    + split; [cbn [List.length]; lia |].
      intros o Hin. destruct (Horigin o Hin) as (item & Hitem & Hv).
      exists item. split; [right; exact Hitem | exact Hv].
Qed.

Lemma fallback_overlays_valid : Forall valid_overlay fallback_overlays.
Proof.
  constructor; [| constructor]. unfold valid_overlay. cbn [timestamp duration text].
  split; [reflexivity |]. split; [reflexivity |].
  split; [discriminate |]. split; [reflexivity |]. vm_compute. discriminate.
Qed.

Lemma valid_is_kept (o : overlay) : valid_overlay o -> kept_overlay o.
Proof.
  intros (Ht & Hd & Hrest). split; [left; exact Ht |]. split; [left; exact Hd |].
  exact Hrest.
Qed.

End ValidationMore.



(** X14: validation invents nothing: the validated list is no longer than
    the list of instructions, and each of its overlays is what the
    per-item check returns for one of the instructions. *)
Theorem validated_overlays_come_from_items (data : json) (l : list overlay) :
  _validate_overlay_data data = inr l ->
  exists items,
    overlays_of data = inr items /\
    (List.length l <= List.length items)%nat /\
    forall o, In o l ->
              exists item, In item items /\ validate_item item = inr (Some o).
Proof.
  intros Hv.
  destruct (validate_overlay_data_spec data l Hv)
    as (items & validated & Hitems & Hval & ->).
  destruct (validate_items_origin items validated Hval) as (Hlen & Horigin).
  exists items. split; [exact Hitems |]. split.
  - rewrite <- (Permutation_length (sort_perm validated)). exact Hlen.
  - intros o Hin. apply Horigin.
    apply (Permutation_in o (Permutation_sym (sort_perm validated))). exact Hin.
Qed.

Lemma validated_overlays_come_from_items_witness :
  exists l items,
    _validate_overlay_data (JDict sample_data) = inr l /\
    overlays_of (JDict sample_data) = inr items /\
    (List.length l <= List.length items)%nat /\
    forall o, In o l ->
              exists item, In item items /\ validate_item item = inr (Some o).
Proof.
  assert (Hrun : exists l, _validate_overlay_data (JDict sample_data) = inr l).
  { eexists. vm_compute. reflexivity. }
  destruct Hrun as (l & Hl).
  destruct (validated_overlays_come_from_items (JDict sample_data) l Hl)
    as (items & H1 & H2 & H3).
  exists l, items. repeat split; assumption.
Defined.

(** X15: when no timestamp is NaN the sort is stable: overlays that share
    a timestamp keep the order in which the instructions came. *)
Theorem sort_keeps_order_of_equal_timestamps (l : list overlay) (key : float) :
  Forall ordered_ts l ->
  filter (at_timestamp key) (sort_by_timestamp l)
  = filter (at_timestamp key) l.
Proof. intros Hord. apply (sort_spec l Hord). Qed.

Lemma sort_keeps_order_of_equal_timestamps_witness :
  filter (at_timestamp (Fin 5))
    (sort_by_timestamp
       [mk_overlay (Fin 5) (lit "first") (Fin 3);
        mk_overlay (Fin 2) (lit "early") (Fin 3);
        mk_overlay (Fin 5) (lit "second") (Fin 3)])
  = filter (at_timestamp (Fin 5))
      [mk_overlay (Fin 5) (lit "first") (Fin 3);
       mk_overlay (Fin 2) (lit "early") (Fin 3);
       mk_overlay (Fin 5) (lit "second") (Fin 3)].
Proof.
  apply (sort_keeps_order_of_equal_timestamps _ (Fin 5)).
  repeat constructor; discriminate.
Defined.

(** X16: whatever the model answers, and whether or not the call or the
    validation raises, every overlay the analysis returns has a stripped,
    non-empty text of at most 100 characters, a timestamp that is not
    negative and a duration that is not zero or less (each is the value
    checked, or NaN); and the list is sorted by timestamp when none of its
    timestamps is NaN. *)
Theorem analysis_returns_kept_overlays
    (json_loads : pystr -> option json)
    (re_findall : nat -> pystr -> list pystr) (llm : result pystr) :
  Forall kept_overlay (analyze_transcript json_loads re_findall llm) /\
  (Forall ordered_ts (analyze_transcript json_loads re_findall llm) ->
   StronglySorted ts_le (analyze_transcript json_loads re_findall llm)).
Proof.
  assert (Hfall : Forall kept_overlay fallback_overlays /\
                  StronglySorted ts_le fallback_overlays).
  { split; [| repeat constructor].
    apply (Forall_impl _ valid_is_kept), fallback_overlays_valid. }
  unfold analyze_transcript.
  destruct llm as [e | response]; cbn [bind].
  - split; [apply Hfall | intros _; apply Hfall].
  - destruct (_validate_overlay_data
                (_extract_json_from_response json_loads re_findall response))
      as [e | l] eqn:Hv.
    + split; [apply Hfall | intros _; apply Hfall].
    + destruct (validate_overlay_data_spec _ l Hv)
        as (items & validated & _ & Hval & ->).
      destruct (validate_items_kept items validated Hval) as (Hkept & _).
      split.
      * apply (Permutation_Forall (sort_perm validated)). exact Hkept.
      * intros Hord. rewrite <- sort_idempotent. apply sort_sorted. exact Hord.
Qed.

Lemma analysis_returns_kept_overlays_witness :
  StronglySorted ts_le
    (analyze_transcript (fun _ => Some (JDict sample_data)) (fun _ _ => [])
       (inr (lit "{}"))).
Proof.
  apply (analysis_returns_kept_overlays
           (fun _ => Some (JDict sample_data)) (fun _ _ => []) (inr (lit "{}"))).
  vm_compute. repeat constructor; discriminate.
Defined.

(** X17: when no timestamp among the instructions is NaN (and every
    integer converts to a float), validation returns the validated
    instructions sorted ascending by timestamp, whatever their order. *)
Theorem validated_overlays_sorted_without_nan (fields : list (pystr * json))
    (items : list json) :
  dict_find (lit "overlays") fields = Some (JList items) ->
  forallb item_in_range items = true ->
  forallb ts_not_nan items = true ->
  exists validated compiled,
    validate_items items = inr validated /\
    _validate_overlay_data (JDict fields) = inr compiled /\
    Permutation validated compiled /\
    StronglySorted ts_le compiled.
Proof.
  intros Hfind Hrange Hnan.
  destruct (validate_items_total items Hrange) as (validated & Hv).
  exists validated, (sort_by_timestamp validated).
  split; [exact Hv |]. split; [| split].
  - unfold _validate_overlay_data, overlays_of. rewrite Hfind.
    cbn [iterate ret bind]. rewrite Hv. reflexivity.
  - apply sort_perm.
  - apply sort_sorted.
    destruct (validate_items_kept items validated Hv) as (_ & Hord & _).
    exact (Hord Hnan).
Qed.

Lemma validated_overlays_sorted_without_nan_witness :
  exists validated compiled,
    validate_items sample_items = inr validated /\
    _validate_overlay_data (JDict sample_data) = inr compiled /\
    Permutation validated compiled /\
    StronglySorted ts_le compiled.
Proof.
  apply (validated_overlays_sorted_without_nan sample_data sample_items);
    reflexivity.
Defined.

(** X18: every overlay of the validated list has a stripped, non-empty
    text of at most 100 characters, a timestamp that is non-negative or
    NaN and a duration that is positive or NaN; when no timestamp and no
    duration among the instructions is NaN, the timestamp is non-negative
    and the duration positive.  An instruction that passes the timestamp
    and text checks but has a missing or non-positive duration is kept,
    with duration 3.0. *)
Theorem validated_overlays_valid_without_nan (data : json) (l : list overlay) :
  _validate_overlay_data data = inr l ->
  Forall kept_overlay l /\
  (forall items,
     overlays_of data = inr items -> forallb item_not_nan items = true ->
     Forall valid_overlay l) /\
  (forall fields items item,
     data = JDict fields ->
     dict_find (lit "overlays") fields = Some (JList items) ->
     In (JDict item) items ->
     item_usable item = true -> duration_unusable item = true ->
     exists o, validate_item (JDict item) = inr (Some o) /\
               In o l /\ duration o = Fin 3).
Proof.
  intros Hv.
  destruct (validate_overlay_data_spec data l Hv)
    as (items' & validated & Hitems & Hval & ->).
  destruct (validate_items_kept items' validated Hval) as (Hkept & _ & Hvalid).
  split; [| split].
  - apply (Permutation_Forall (sort_perm validated)). exact Hkept.
  - intros items Hitems2 Hnan. rewrite Hitems in Hitems2.
    injection Hitems2 as <-.
    apply (Permutation_Forall (sort_perm validated)). exact (Hvalid Hnan).
  - intros fields items item -> Hfind Hin Husable Hdur.
    destruct (validate_item_default_duration item Husable Hdur) as (o & Ho & Hd).
    exists o. split; [exact Ho |]. split; [| exact Hd].
    apply (Permutation_in o (sort_perm validated)).
    apply (validate_items_In items' validated (JDict item)); [exact Hval | | exact Ho].
    unfold overlays_of in Hitems. rewrite Hfind in Hitems.
    injection Hitems as <-. exact Hin.
Qed.

Lemma validated_overlays_valid_without_nan_witness :
  exists l,
    _validate_overlay_data (JDict sample_data) = inr l /\
    Forall valid_overlay l /\
    exists o, validate_item (JDict sample_item) = inr (Some o) /\
              In o l /\ duration o = Fin 3.
Proof.
  assert (Hrun : exists l, _validate_overlay_data (JDict sample_data) = inr l).
  { eexists. vm_compute. reflexivity. }
  destruct Hrun as (l & Hl). exists l. split; [exact Hl |].
  destruct (validated_overlays_valid_without_nan (JDict sample_data) l Hl)
    as (_ & Hall & Hkeep).
  split; [apply (Hall sample_items); reflexivity |].
  apply (Hkeep sample_data sample_items sample_item); try reflexivity.
  left. reflexivity.
Defined.

(** X19: the response itself is parsed first, then the pattern matches in
    the order of the patterns; the first text that parses is the result,
    and later matches are not looked at. *)
Theorem extraction_takes_first_parse
    (json_loads : pystr -> option json)
    (re_findall : nat -> pystr -> list pystr) (response : pystr) :
  (forall v, json_loads response = Some v ->
             _extract_json_from_response json_loads re_findall response = v) /\
  (forall before c after v,
     json_loads response = None ->
     flat_map (fun i => re_findall i response) [0; 1; 2]%nat
     = before ++ c :: after ->
     Forall (fun b => json_loads b = None) before ->
     json_loads c = Some v ->
     _extract_json_from_response json_loads re_findall response = v).
Proof.
  unfold _extract_json_from_response. split.
  - intros v ->. reflexivity.
  - intros before c after v -> -> Hbefore Hc.
    assert (H : first_loads json_loads (before ++ c :: after) = Some v).
    { induction Hbefore as [| b before Hb _ IH]; cbn [app first_loads].
      - rewrite Hc. reflexivity.
      - rewrite Hb. exact IH. }
    rewrite H. reflexivity.
Qed.

Lemma extraction_takes_first_parse_witness :
  _extract_json_from_response
    (fun s => if pystr_eqb s (lit "{}") then Some (JDict []) else None)
    (fun i _ => if Nat.eqb i 2 then [lit "{oops}"; lit "{}"; lit "{}"] else [])
    (lit "Here you go: {oops} {} {}")
  = JDict [].
Proof.
  apply (proj2 (extraction_takes_first_parse
                  (fun s => if pystr_eqb s (lit "{}") then Some (JDict []) else None)
                  (fun i _ => if Nat.eqb i 2 then [lit "{oops}"; lit "{}"; lit "{}"]
                              else [])
                  (lit "Here you go: {oops} {} {}"))
           [lit "{oops}"] (lit "{}") [lit "{}"] (JDict [])).
  - reflexivity.
  - reflexivity.
  - repeat constructor.
  - reflexivity.
Defined.

Lemma count_occ_firstn_zero (c : N) (n : nat) (s : pystr) :
  count_occ N.eq_dec s c = 0%nat -> count_occ N.eq_dec (firstn n s) c = 0%nat.
Proof.
  revert n. induction s as [| x s IH]; intros n H; [destruct n; reflexivity |].
  destruct n as [| n]; [reflexivity |].
  cbn [firstn count_occ] in *.
  destruct (N.eq_dec x c); [discriminate | apply IH; exact H].
Qed.

(** X20: unless it falls back to the fixed caption, the generated caption
    holds no asterisk and is at most 2200 characters long. *)
Theorem generated_caption_is_clean (json_loads : pystr -> option json)
    (fallback_caption : pystr) (llm : result pystr) :
  generate_caption json_loads fallback_caption llm = fallback_caption \/
  (count_occ N.eq_dec (generate_caption json_loads fallback_caption llm)
     asterisk = 0%nat /\
   len (generate_caption json_loads fallback_caption llm) <= 2200).
Proof.
  unfold generate_caption.
  destruct llm as [e | response]; cbn [bind]; [left; reflexivity |].
  set (stripped := strip response).
  set (chosen := if starts_with 123 stripped && ends_with 125 stripped
                 then match json_loads stripped with
                      | Some (JDict fields) =>
                          match dict_get fields (lit "caption") (JStr stripped) with
                          | JStr s => ret s
                          | _ => raise AttributeError
                          end
                      | Some _ => raise AttributeError
                      | None => ret stripped
                      end
                 else ret stripped).
  destruct chosen as [e | caption]; cbn [bind ret]; [left; reflexivity |].
  right.
  set (clean := replace_char asterisk [] (replace (lit "**") [] caption)).
  assert (Hclean : count_occ N.eq_dec clean asterisk = 0%nat)
    by (apply replace_removes; reflexivity).
  destruct (Z.gtb_spec (len clean) 2200) as [Hlong | Hshort].
  - split.
    + rewrite count_occ_app, count_occ_firstn_zero by exact Hclean. reflexivity.
    + unfold len in *. rewrite length_app, length_firstn.
      change (List.length ellipsis) with 3%nat. lia.
  - split; [exact Hclean | exact Hshort].
Qed.

(** * Configuration access *)

Section ConfigAccess.

Lemma pystr_eqb_eq (a b : pystr) : pystr_eqb a b = true <-> a = b.
Proof.
  unfold pystr_eqb. destruct (list_eq_dec N.eq_dec a b); split; congruence.
Qed.

Lemma pystr_eqb_refl (a : pystr) : pystr_eqb a a = true.
Proof. apply pystr_eqb_eq. reflexivity. Qed.

Lemma pystr_eqb_neq (a b : pystr) : a <> b -> pystr_eqb a b = false.
Proof.
  intros H. destruct (pystr_eqb a b) eqn:E; [| reflexivity].
  apply pystr_eqb_eq in E. contradiction.
Qed.

Lemma dict_find_set_same (key : pystr) (v : json) (fields : list (pystr * json)) :
  dict_find key (dict_set key v fields) = Some v.
Proof.
  induction fields as [| [k x] rest IH]; cbn [dict_set dict_find].
  - rewrite pystr_eqb_refl. reflexivity.
  - destruct (pystr_eqb k key) eqn:E; cbn [dict_find]; rewrite E;
      [reflexivity | exact IH].
Qed.

Lemma dict_find_set_other (key key' : pystr) (v : json)
    (fields : list (pystr * json)) :
  key' <> key ->
  dict_find key' (dict_set key v fields) = dict_find key' fields.
Proof.
  intros Hne. induction fields as [| [k x] rest IH]; cbn [dict_set dict_find].
  - rewrite pystr_eqb_neq by congruence. reflexivity.
  - destruct (pystr_eqb k key) eqn:E; cbn [dict_find].
    + apply pystr_eqb_eq in E. subst k.
      rewrite pystr_eqb_neq by congruence. reflexivity.
    + destruct (pystr_eqb k key'); [reflexivity | exact IH].
Qed.

(** What a successful update produces. *)
Lemma config_update_spec (cfg cfg' : json) (section key : pystr) (value : json) :
  config_update cfg section key value = inr cfg' ->
  exists sections members,
    cfg = JDict sections /\
    (dict_find section sections = Some (JDict members) \/
     dict_find section sections = None /\ members = []) /\
    cfg' = JDict (dict_set section (JDict (dict_set key value members))
                    (match dict_find section sections with
                     | None => dict_set section (JDict []) sections
                     | Some _ => sections
                     end)).
Proof.
  unfold config_update. destruct cfg as [| | | | | | sections]; try discriminate.
  cbv zeta. destruct (dict_find section sections) as [v |] eqn:Ef.
  - rewrite Ef. destruct v as [| | | | | | members]; try discriminate.
    intros H. injection H as <-. exists sections, members.
    split; [reflexivity |]. split; [left; exact Ef |].
    rewrite Ef. reflexivity.
  - rewrite dict_find_set_same. intros H. injection H as <-.
    exists sections, []. split; [reflexivity |].
    split; [right; split; [exact Ef | reflexivity] |].
    rewrite Ef. reflexivity.
Qed.

End ConfigAccess.

(** X21: a value stored with [update] is what [get] returns for the same
    section and key, whatever the default. *)
Theorem config_get_after_update (cfg cfg' : json) (section key : pystr)
    (value default : json) :
  config_update cfg section key value = inr cfg' ->
  config_get cfg' section (Some key) default = value.
Proof.
  intros Hup.
  destruct (config_update_spec cfg cfg' section key value Hup)
    as (sections & members & -> & _ & ->).
  unfold config_get, config_get_body.
  rewrite dict_find_set_same. unfold dict_get.
  rewrite dict_find_set_same. reflexivity.
Qed.

Lemma config_get_after_update_witness :
  config_get
    (JDict [(lit "video", JDict [(lit "crf", JInt 18)]);
            (lit "logo", JDict [(lit "enabled", JBool true)])])
    (lit "logo") (Some (lit "enabled")) JNull
  = JBool true.
Proof.
  apply (config_get_after_update
           (JDict [(lit "video", JDict [(lit "crf", JInt 18)])])
           _ (lit "logo") (lit "enabled") (JBool true) JNull).
  reflexivity.
Defined.

(** X22: [update] changes nothing else: [get] for any other section or
    key returns what it returned before. *)
Theorem config_update_keeps_other_keys (cfg cfg' : json)
    (section key section' key' : pystr) (value default : json) :
  config_update cfg section key value = inr cfg' ->
  section' <> section \/ key' <> key ->
  config_get cfg' section' (Some key') default
  = config_get cfg section' (Some key') default.
Proof.
  intros Hup Hother.
  destruct (config_update_spec cfg cfg' section key value Hup)
    as (sections & members & -> & Hsec & ->).
  unfold config_get, config_get_body.
  destruct (list_eq_dec N.eq_dec section' section) as [-> | Hs].
  - destruct Hother as [H | Hk]; [congruence |].
    rewrite dict_find_set_same. unfold dict_get.
    rewrite (dict_find_set_other key key') by exact Hk.
    destruct Hsec as [-> | [-> ->]]; reflexivity.
  - rewrite (dict_find_set_other section section') by exact Hs.
    destruct (dict_find section sections); [reflexivity |].
    rewrite (dict_find_set_other section section') by exact Hs. reflexivity.
Qed.

Lemma config_update_keeps_other_keys_witness :
  config_get
    (JDict [(lit "video", JDict [(lit "crf", JInt 18)]);
            (lit "logo", JDict [(lit "enabled", JBool true)])])
    (lit "video") (Some (lit "crf")) JNull
  = config_get (JDict [(lit "video", JDict [(lit "crf", JInt 18)])])
      (lit "video") (Some (lit "crf")) JNull.
Proof.
  apply (config_update_keeps_other_keys
           (JDict [(lit "video", JDict [(lit "crf", JInt 18)])])
           _ (lit "logo") (lit "enabled") (lit "video") (lit "crf")
           (JBool true) JNull).
  - reflexivity.
  - left. discriminate.
Defined.

(** * The filter graph *)

Section FilterGraph.

Context {world : Type} (env : Environment world).

Lemma is_suffix_app (p s : pystr) : is_suffix p (s ++ p) = true.
Proof. unfold is_suffix. rewrite rev_app_distr. apply is_prefix_app. Qed.

Lemma is_prefix_app_assoc (p s t : pystr) :
  is_prefix p s = true -> is_prefix p (s ++ t) = true.
Proof.
  revert s. induction p as [| c p IH]; intros s; [reflexivity |].
  destruct s as [| x s]; [discriminate |]. cbn [app is_prefix].
  intros H. apply andb_true_iff in H. destruct H as [-> H]. apply IH. exact H.
Qed.

(** The logo stage, once its input is renamed, reads [[cropped]]. *)
Lemma logo_stage_reads_cropped (rest : pystr) :
  is_prefix (lit "[cropped]")
    (replace (lit "[0:v]") (lit "[cropped]") (lit "[0:v]" ++ rest)) = true.
Proof. reflexivity. Qed.

Lemma logo_filter_shape (w h : Z) (s s' : state world) (f : pystr) :
  _create_logo_filter env w h s = (inr f, s') ->
  f = [] \/ exists rest, f = lit "[0:v]" ++ rest.
Proof.
  unfold _create_logo_filter, io_bind, io_ret, io_lift, path_exists, print.
  destruct (negb (logo_enabled (logo_cfg (config env)))).
  { intros H. injection H as <- _. left. reflexivity. }
  destruct (negb (file_exists env _ (fst s))).
  { intros H. injection H as <- _. left. reflexivity. }
  destruct (float_of_str env _) as [e | sp]; cbn [bind]; [discriminate |].
  destruct (of_int (Z.min w h)) as [e | m]; cbn [bind]; [discriminate |].
  destruct (fdiv (fmul m sp) (Fin 100)) as [e | q]; cbn [bind]; [discriminate |].
  destruct (to_int q) as [e | size]; cbn [bind ret]; [discriminate |].
  intros H. injection H as <- _. right. eexists. reflexivity.
Qed.

Ltac split_plan H :=
  match type of H with
  | ret (?a, ?b) = inr (?f, ?v) =>
      assert (a = f /\ b = v) as [<- <-] by (unfold ret in H; split; congruence); clear H
  end.

Lemma filter_plan_chain (crop : Z * Z * Z * Z) (logo_filter : pystr)
    (overlay_filter : result pystr) (filters : list pystr)
    (video_output : pystr) :
  logo_filter = [] \/ (exists rest, logo_filter = lit "[0:v]" ++ rest) ->
  filter_plan env crop logo_filter overlay_filter = inr (filters, video_output) ->
  (exists first, nth_error filters 0 = Some first /\
                 is_prefix (lit "[0:v]crop=") first = true) /\
  (exists final, last filters [] = final /\ filters <> [] /\
                 is_suffix video_output final = true) /\
  chained filters.
Proof.
  intros Hlogo. unfold filter_plan.
  destruct crop as [[[crop_w crop_h] crop_x] crop_y].
  destruct (index _ 0) as [e | tw_s]; cbn [bind]; [discriminate |].
  destruct (index _ 1) as [e | th_s]; cbn [bind]; [discriminate |].
  destruct (int_of_str env tw_s) as [e | tw]; cbn [bind]; [discriminate |].
  destruct (if negb (crop_w =? tw) then ret true
            else (th <- int_of_str env th_s;; ret (negb (crop_h =? th)))%result)
    as [e | differs]; cbn [bind]; [discriminate |].
  destruct overlay_filter as [e | ov]; cbn [bind ret].
  { destruct (nonempty logo_filter); discriminate. }
  set (base := lit "[0:v]crop=" ++ str_of_Z crop_w ++ lit ":" ++ str_of_Z crop_h
               ++ lit ":" ++ str_of_Z crop_x ++ lit ":" ++ str_of_Z crop_y).
  set (scale := if differs then lit ",scale=" ++ tw_s ++ lit ":" ++ th_s else []).
  assert (Hbase : forall tail, is_prefix (lit "[0:v]crop=") ((base ++ scale) ++ tail) = true).
  { intros tail. unfold base. rewrite <- !app_assoc. apply is_prefix_app. }
  assert (Hsuf3 : forall a b p : pystr, is_suffix p (a ++ b ++ p) = true).
  { intros a b p. rewrite app_assoc. apply is_suffix_app. }
  destruct Hlogo as [-> | (rest & ->)].
  - cbn [nonempty].
    destruct (nonempty ov); intros H; split_plan H.
    + split; [eexists; split; [reflexivity | apply Hbase] |].
      split.
      * eexists. split; [reflexivity |]. split; [discriminate |].
        rewrite last_last. apply Hsuf3.
      * change (feeds ((base ++ scale) ++ lit "[processed]")
                  (lit "[processed]" ++ ov ++ lit "[final]") /\ True).
        split; [| exact I].
        exists (lit "[processed]"). split; [reflexivity |].
        split; [apply is_suffix_app | apply is_prefix_app].
    + split; [eexists; split; [reflexivity | apply Hbase] |].
      split; [| exact I].
      eexists. split; [reflexivity |]. split; [discriminate |].
      cbn [last]. apply is_suffix_app.
  - change (nonempty (lit "[0:v]" ++ rest)) with true. cbv iota.
    destruct (nonempty ov); intros H; split_plan H.
    + split; [eexists; split; [reflexivity | apply Hbase] |].
      split.
      * eexists. split; [reflexivity |]. split; [discriminate |].
        rewrite last_last. apply Hsuf3.
      * set (logo_stage := replace _ _ _ ++ lit "[with_logo]").
        change (feeds ((base ++ scale) ++ lit "[cropped]") logo_stage /\
                feeds logo_stage (lit "[with_logo]" ++ ov ++ lit "[final]") /\
                True).
        split; [| split; [| exact I]].
        -- exists (lit "[cropped]"). split; [reflexivity |].
           split; [apply is_suffix_app |].
           apply is_prefix_app_assoc. apply logo_stage_reads_cropped.
        -- exists (lit "[with_logo]"). split; [reflexivity |].
           split; [apply is_suffix_app | apply is_prefix_app].
    + split; [eexists; split; [reflexivity | apply Hbase] |].
      split.
      * eexists. split; [reflexivity |]. split; [discriminate |].
        cbn [last]. apply is_suffix_app.
      * cbn [chained]. split; [| exact I].
        exists (lit "[cropped]"). split; [reflexivity |].
        split; [apply is_suffix_app |].
        apply is_prefix_app_assoc. apply logo_stage_reads_cropped.
Qed.

Lemma logo_filter_world (w h : Z)
    (s s' : state world) (r : result pystr) :
  _create_logo_filter env w h s = (r, s') -> fst s' = fst s.
Proof.
  unfold _create_logo_filter, io_bind, io_ret, io_lift, path_exists, print.
  destruct (negb (logo_enabled (logo_cfg (config env)))).
  { intros H. injection H as _ <-. reflexivity. }
  destruct (negb (file_exists env _ (fst s))).
  { intros H. injection H as _ <-. reflexivity. }
  intros H. injection H as _ <-. reflexivity.
Qed.

End FilterGraph.

Section RenderPlan.

Context {world : Type} (env : Environment world).

(** Building the command reads the file system and prints; it does nothing
    else outside the processor. *)
Lemma render_plan_world (video_path : pystr) (info : video_info)
    (crop : Z * Z * Z * Z) (output_path : pystr) (overlays : list overlay)
    (s s' : state world) (r : result (list pystr * list pystr * pystr)) :
  render_plan env video_path info crop output_path overlays s = (r, s') ->
  fst s' = fst s.
Proof.
  unfold render_plan.
  destruct crop as [[[crop_w crop_h] crop_x] crop_y].
  unfold io_bind at 1.
  set (logo_part := if logo_enabled (logo_cfg (config env)) then _ else _).
  assert (Hw : forall r1 s1, logo_part s = (r1, s1) -> fst s1 = fst s).
  { intros r1 s1. unfold logo_part.
    destruct (logo_enabled (logo_cfg (config env))).
    - unfold io_bind at 1, path_exists, io_ret.
      destruct (file_exists env _ (fst s)).
      + unfold io_bind.
        destruct (_create_logo_filter env crop_w crop_h s) as [[e | f] s2] eqn:Ef;
          intros H; injection H as _ <-;
          exact (logo_filter_world env _ _ _ _ _ Ef).
      + intros H. injection H as _ <-. reflexivity.
    - unfold io_ret. intros H. injection H as _ <-. reflexivity. }
  destruct (logo_part s) as [[e | [cmd0 logo_filter]] s1] eqn:El.
  { intros H. injection H as _ <-. exact (Hw _ _ eq_refl). }
  unfold io_bind, io_lift, io_ret.
  destruct (filter_plan env _ logo_filter _) as [e | [fs video_output]];
    intros H; injection H as _ <-; exact (Hw _ _ eq_refl).
Qed.

(** What a plan that is built holds. *)
Lemma render_plan_spec (video_path : pystr) (info : video_info)
    (crop : Z * Z * Z * Z) (output_path : pystr) (overlays : list overlay)
    (s s' : state world) (cmd filters : list pystr) (logo_filter : pystr) :
  render_plan env video_path info crop output_path overlays s
  = (inr (cmd, filters, logo_filter), s') ->
  (logo_filter = [] \/ exists rest, logo_filter = lit "[0:v]" ++ rest) /\
  exists front video_output,
    filter_plan env crop logo_filter
      (_create_overlay_filter (overlays_cfg (config env)) overlays
         (vi_duration info))
    = inr (filters, video_output) /\
    cmd = front ++ filter_arguments filters video_output
          ++ output_parameters env output_path /\
    firstn 4 front = [lit "ffmpeg"; lit "-y"; lit "-i"; video_path].
Proof.
  unfold render_plan.
  destruct crop as [[[crop_w crop_h] crop_x] crop_y].
  unfold io_bind at 1.
  set (logo_part := if logo_enabled (logo_cfg (config env)) then _ else _).
  assert (Hshape : forall r s1, logo_part s = (inr r, s1) ->
            (snd r = [] \/ exists rest, snd r = lit "[0:v]" ++ rest) /\
            firstn 4 (fst r) = [lit "ffmpeg"; lit "-y"; lit "-i"; video_path]).
  { intros r s1. unfold logo_part.
    destruct (logo_enabled (logo_cfg (config env))).
    - unfold io_bind at 1, path_exists, io_ret.
      destruct (file_exists env _ (fst s)).
      + unfold io_bind.
        destruct (_create_logo_filter env crop_w crop_h s) as [[e | f] s2] eqn:Ef;
          [discriminate |].
        intros H. injection H as <- _. cbn [fst snd].
        split; [exact (logo_filter_shape env _ _ _ _ _ Ef) | reflexivity].
      + intros H. injection H as <- _. split; [left |]; reflexivity.
    - unfold io_ret. intros H. injection H as <- _.
      split; [left |]; reflexivity. }
  destruct (logo_part s) as [[e | [cmd0 logo_filter0]] s1] eqn:El;
    [discriminate |].
  specialize (Hshape _ _ eq_refl). cbn [fst snd] in Hshape.
  destruct Hshape as [Hlogo Hfront].
  unfold io_bind, io_lift, io_ret.
  destruct (filter_plan env _ logo_filter0 _) as [e | [fs video_output]] eqn:Ep;
    [discriminate |].
  intros H. injection H as <- <- <- _.
  split; [exact Hlogo |].
  exists cmd0, video_output. split; [exact Ep |]. split; [reflexivity | exact Hfront].
Qed.

(** The command is the first component of the plan. *)
Lemma render_command_plan (video_path : pystr) (info : video_info)
    (crop : Z * Z * Z * Z) (output_path : pystr) (overlays : list overlay)
    (s : state world) (cmd filters : list pystr) :
  fst (render_command env video_path info crop output_path overlays s)
  = inr (cmd, filters) ->
  exists logo_filter s',
    render_plan env video_path info crop output_path overlays s
    = (inr (cmd, filters, logo_filter), s').
Proof.
  unfold render_command, io_bind, io_ret.
  destruct (render_plan env video_path info crop output_path overlays s)
    as [[e | [[cmd0 filters0] logo_filter]] s'] eqn:E; cbn [fst];
    [discriminate |].
  intros H. injection H as <- <-. exists logo_filter, s'. reflexivity.
Qed.

End RenderPlan.

(** X23: the filter graph of a render is one chain.  Its first stage crops
    the source stream, every later stage reads the labelled stream that the
    stage before it writes, and the label mapped to the output file is the one
    the last stage writes. *)
Theorem render_graph_is_chained {world : Type} (env : Environment world)
    (video_path : pystr) (info : video_info) (crop : Z * Z * Z * Z)
    (output_path : pystr) (overlays : list overlay) (s : state world)
    (cmd filters : list pystr) :
  fst (render_command env video_path info crop output_path overlays s)
  = inr (cmd, filters) ->
  (exists first, nth_error filters 0 = Some first /\
                 is_prefix (lit "[0:v]crop=") first = true) /\
  chained filters /\
  exists front video_output,
    cmd = front
          ++ [lit "-filter_complex"; join (lit ";") filters;
              lit "-map"; video_output; lit "-map"; lit "0:a"]
          ++ output_parameters env output_path /\
    is_suffix video_output (last filters []) = true.
Proof.
  intros Hcmd.
  destruct (render_command_plan env _ _ _ _ _ _ _ _ Hcmd)
    as (logo_filter & s' & Hplan).
  destruct (render_plan_spec env _ _ _ _ _ _ _ _ _ _ Hplan)
    as (Hshape & front & video_output & Ep & -> & _).
  destruct (filter_plan_chain env _ _ _ _ _ Hshape Ep)
    as (Hfirst & (final & Hlast & Hne & Hsuf) & Hchain).
  split; [exact Hfirst |]. split; [exact Hchain |].
  exists front, video_output. split.
  - destruct filters; [congruence |]. reflexivity.
  - rewrite Hlast. exact Hsuf.
Qed.

Lemma render_graph_is_chained_witness :
  exists cmd filters,
    fst (render_command (sample_env true true) (lit "clip.mp4") sample_info
           (607, 1080, 656, 0) (lit "out.mp4")
           [mk_overlay (Fin 5) (lit "Hello") (Fin 3)] (tt, []))
    = inr (cmd, filters) /\
    List.length filters = 2%nat /\
    chained filters.
Proof.
  eexists. eexists.
  assert (H : fst (render_command (sample_env true true) (lit "clip.mp4")
                     sample_info (607, 1080, 656, 0) (lit "out.mp4")
                     [mk_overlay (Fin 5) (lit "Hello") (Fin 3)] (tt, []))
              = inr (_, _)) by (vm_compute; reflexivity).
  split; [exact H |]. split; [reflexivity |].
  exact (proj1 (proj2 (render_graph_is_chained _ _ _ _ _ _ _ _ _ H))).
Defined.

(** * Recorded runs of the processor *)

Section Sequencing.

Context {world : Type}.

Lemma io_bind_cases {A B : Type} (m : io world A) (k : A -> io world B)
    (s s' : state world) (r : result B) :
  io_bind m k s = (r, s') ->
  (exists e, m s = (inl e, s') /\ r = inl e) \/
  (exists a s1, m s = (inr a, s1) /\ k a s1 = (r, s')).
Proof.
  unfold io_bind. destruct (m s) as [[e | a] s1].
  - intros H. injection H as <- <-. left. exists e. split; reflexivity.
  - intros H. right. exists a, s1. split; [reflexivity | exact H].
Qed.

Lemma print_runs (l : log_line) (s s' : state world) (r : result unit) :
  print l s = (r, s') -> r = inr tt /\ s' = (fst s, snd s ++ [l]).
Proof. unfold print. intros H. injection H as <- <-. split; reflexivity. Qed.

End Sequencing.

Section Recorded.

Variable base : Environment unit.
Variable present : pystr -> list event -> bool.
Variable probe : pystr -> list event -> result video_info.
Variable outcome : list pystr -> list event -> result unit.
Variable removable : pystr -> list event -> bool.
Variable clock : list event -> pystr.

Let env : Environment (list event) :=
  recording base present probe outcome removable clock.

Lemma probe_runs (path : pystr) (s s' : state (list event))
    (r : result video_info) :
  _get_video_info env path s = (r, s') ->
  r = probe path (fst s) /\ fst s' = fst s ++ [Probed path].
Proof.
  unfold env. cbn [_get_video_info recording].
  destruct (probe path (fst s)) as [e | info]; intros H; injection H as <- <-;
    split; reflexivity.
Qed.

Lemma command_runs (cmd : list pystr) (s s' : state (list event))
    (r : result unit) :
  subprocess_run env cmd s = (r, s') ->
  fst s' = fst s ++ [Ran cmd] /\ snd s' = snd s /\ r = outcome cmd (fst s).
Proof.
  unfold env. cbn [subprocess_run recording]. intros H. injection H as <- <-.
  split; [reflexivity |]. split; reflexivity.
Qed.

Lemma removal_runs (path : pystr) (s s' : state (list event))
    (r : result unit) :
  os_remove env path s = (r, s') ->
  (r = inr tt /\ fst s' = fst s ++ [Removed path]) \/
  (r = inl OSError /\ s' = s).
Proof.
  unfold env. cbn [os_remove recording].
  destruct (removable path (fst s)); intros H; injection H as <- <-;
    [left | right]; split; reflexivity.
Qed.

End Recorded.

Section RecordedStitch.

Variable base : Environment unit.
Variable present : pystr -> list event -> bool.
Variable probe : pystr -> list event -> result video_info.
Variable outcome : list pystr -> list event -> result unit.
Variable removable : pystr -> list event -> bool.
Variable clock : list event -> pystr.

Let env : Environment (list event) :=
  recording base present probe outcome removable clock.

Variable video_path : pystr.

Let outro : pystr := _resolve_asset_path base (outro_path (outro_cfg (config base))).
Let final_path : pystr :=
  sibling base video_path (stem base video_path ++ lit "_with_outro.mp4").
Let temp_outro : pystr :=
  path_join base (temp_dir (config base))
    (lit "temp_outro_" ++ stem base video_path ++ lit ".mp4").

Ltac bind_step H :=
  let Hm := fresh "Hm" in
  let Hr := fresh "Hr" in
  let e := fresh "e" in
  let a := fresh "a" in
  let s := fresh "s" in
  apply io_bind_cases in H;
  destruct H as [(e & Hm & Hr) | (a & s & Hm & H)].

Ltac bind_named H a s :=
  let Hm := fresh "Hm" in
  let Hr := fresh "Hr" in
  let e := fresh "e" in
  apply io_bind_cases in H;
  destruct H as [(e & Hm & Hr) | (a & s & Hm & H)].

Ltac case_if H :=
  match type of H with
  | context [if ?c then _ else _] => destruct c
  end.

Ltac print_step H :=
  let Hm := fresh "Hm" in
  let Hr := fresh "Hr" in
  let e := fresh "e" in
  let a := fresh "a" in
  let s := fresh "s" in
  apply io_bind_cases in H;
  destruct H as [(e & Hm & Hr) | (a & s & Hm & H)];
  [apply print_runs in Hm; destruct Hm as [Hm _]; discriminate Hm
  | apply print_runs in Hm; destruct Hm as [_ Hm]; subst s; cbn [fst snd] in H].

(** What the [try] block of the stitcher does outside the processor. *)
Lemma add_outro_body_trace (s s' : state (list event)) (r : result pystr) :
  add_outro_body env video_path outro s = (r, s') ->
  exists added,
    fst s' = fst s ++ added /\
    (forall q, In (Removed q) added ->
       q = temp_outro \/
       (q = video_path /\ should_delete_temp_files (config base) = true /\
        r = inr final_path)) /\
    match r with
    | inl _ => True
    | inr p =>
        p = final_path /\
        exists main_info outro_info tail,
          added
          = [Probed video_path; Probed outro;
             Ran (outro_command env outro main_info outro_info temp_outro);
             Ran (concat_command env video_path temp_outro final_path)]
            ++ tail /\
          outcome (outro_command env outro main_info outro_info temp_outro)
            (fst s ++ [Probed video_path; Probed outro]) = inr tt /\
          outcome (concat_command env video_path temp_outro final_path)
            (fst s ++ [Probed video_path; Probed outro;
                       Ran (outro_command env outro main_info outro_info
                              temp_outro)]) = inr tt /\
          forall ev, In ev tail -> exists q, ev = Removed q
    end.
Proof.
  unfold add_outro_body. intros H.
  print_step H.
  bind_named H main_info s0.
  { apply probe_runs in Hm. destruct Hm as [_ Hw]. cbn [fst] in Hw.
    exists [Probed video_path]. split; [exact Hw |]. subst r.
    split; [| exact I]. intros q [Hq | []]. discriminate. }
  apply probe_runs in Hm. destruct Hm as [_ Hw1]. cbn [fst] in Hw1.
  bind_named H outro_info s1.
  { apply probe_runs in Hm. destruct Hm as [_ Hw]. rewrite Hw1 in Hw.
    exists [Probed video_path; Probed outro].
    split; [rewrite Hw, <- app_assoc; reflexivity |]. subst r.
    split; [| exact I]. intros q [Hq | [Hq | []]]; discriminate. }
  apply probe_runs in Hm. destruct Hm as [_ Hw2]. rewrite Hw1 in Hw2.
  rewrite <- app_assoc in Hw2. cbn [app] in Hw2.
  print_step H.
  bind_named H ok3 s2.
  { apply command_runs in Hm. destruct Hm as (Hw & _ & _). cbn [fst] in Hw.
    rewrite Hw2 in Hw. rewrite <- app_assoc in Hw. cbn [app] in Hw.
    eexists. split; [exact Hw |]. subst r.
    split; [| exact I]. intros q [Hq | [Hq | [Hq | []]]]; discriminate. }
  apply command_runs in Hm. destruct Hm as (Hw3 & Hl3 & Hok3).
  cbn [fst snd] in Hw3, Hl3, Hok3. rewrite Hw2 in Hw3, Hok3.
  rewrite <- app_assoc in Hw3. cbn [app] in Hw3.
  destruct ok3. symmetry in Hok3. rename Hok3 into Ez3.
  print_step H.
  bind_named H ok4 s3.
  { apply command_runs in Hm. destruct Hm as (Hw & _ & _). cbn [fst] in Hw.
    rewrite Hw3 in Hw. rewrite <- app_assoc in Hw. cbn [app] in Hw.
    eexists. split; [exact Hw |]. subst r.
    split; [| exact I].
    intros q [Hq | [Hq | [Hq | [Hq | []]]]]; discriminate. }
  apply command_runs in Hm. destruct Hm as (Hw4 & Hl4 & Hok4).
  cbn [fst snd] in Hw4, Hl4, Hok4. rewrite Hw3 in Hw4, Hok4.
  rewrite <- app_assoc in Hw4. cbn [app] in Hw4.
  destruct ok4. symmetry in Hok4. rename Hok4 into Ez4.
  bind_named H temp_left s4; [unfold path_exists in Hm; discriminate |].
  unfold path_exists in Hm. injection Hm as <- <-.
  bind_named H u5 s5.
  { assert (Hs : s' = s3).
    { case_if Hm; [| discriminate].
      apply removal_runs in Hm. destruct Hm as [[Hx _] | [_ Hx]];
        [discriminate | exact Hx]. }
    subst s'. eexists. split; [exact Hw4 |]. subst r.
    split; [| exact I].
    intros q [Hq | [Hq | [Hq | [Hq | []]]]]; discriminate. }
  assert (Ht1 : exists t1, fst s5 = fst s3 ++ t1 /\
                  forall ev, In ev t1 -> ev = Removed temp_outro).
  { case_if Hm.
    - apply removal_runs in Hm. destruct Hm as [[_ Hx] | [Hx _]];
        [| discriminate].
      exists [Removed temp_outro]. split; [exact Hx |].
      intros ev [<- | []]. reflexivity.
    - injection Hm as _ <-. exists []. split; [symmetry; apply app_nil_r |].
      intros ev []. }
  clear Hm. destruct Ht1 as (t1 & Hw5 & Ht1). rewrite Hw4 in Hw5.
  rewrite <- app_assoc in Hw5.
  bind_named H u6 s6.
  { assert (Hs : s' = s5).
    { case_if Hm; [| discriminate].
      apply removal_runs in Hm. destruct Hm as [[Hx _] | [_ Hx]];
        [discriminate | exact Hx]. }
    subst s'. eexists. split; [exact Hw5 |]. subst r.
    split; [| exact I].
    intros q Hq. left. apply in_app_or in Hq. destruct Hq as [Hq | Hq].
    - destruct Hq as [Hq | [Hq | [Hq | [Hq | []]]]]; discriminate.
    - specialize (Ht1 _ Hq). injection Ht1 as ->. reflexivity. }
  assert (Ht2 : exists t2, fst s6 = fst s5 ++ t2 /\
                  forall ev, In ev t2 ->
                    ev = Removed video_path /\
                    should_delete_temp_files (config base) = true).
  { change (config env) with (config base) in Hm.
    destruct (should_delete_temp_files (config base)) eqn:Hdel.
    - apply removal_runs in Hm. destruct Hm as [[_ Hx] | [Hx _]];
        [| discriminate].
      exists [Removed video_path]. split; [exact Hx |].
      intros ev [<- | []]. split; reflexivity.
    - injection Hm as _ <-. exists []. split; [symmetry; apply app_nil_r |].
      intros ev []. }
  clear Hm. destruct Ht2 as (t2 & Hw6 & Ht2). rewrite Hw5 in Hw6.
  rewrite <- !app_assoc in Hw6.
  print_step H.
  unfold io_ret in H. injection H as <- <-. cbn [fst].
  eexists. split; [exact Hw6 |]. split.
  - intros q Hq. apply in_app_or in Hq. destruct Hq as [Hq | Hq].
    + destruct Hq as [Hq | [Hq | [Hq | [Hq | []]]]]; discriminate.
    + apply in_app_or in Hq. destruct Hq as [Hq | Hq].
      * left. specialize (Ht1 _ Hq). injection Ht1 as ->. reflexivity.
      * right. destruct (Ht2 _ Hq) as [Hev Hdel]. injection Hev as ->.
        split; [reflexivity |]. split; [exact Hdel | reflexivity].
  - split; [reflexivity |].
    exists main_info, outro_info, (t1 ++ t2).
    split; [reflexivity |]. split; [exact Ez3 |]. split; [exact Ez4 |].
    intros ev Hev. apply in_app_or in Hev. destruct Hev as [Hev | Hev].
    + exists temp_outro. exact (Ht1 _ Hev).
    + exists video_path. exact (proj1 (Ht2 _ Hev)).
Qed.


(** What the stitcher does outside the processor, and what it returns. *)
Lemma add_outro_trace (s s' : state (list event)) (r : result pystr) :
  _add_outro env video_path s = (r, s') ->
  exists added,
    fst s' = fst s ++ added /\
    (r = inr video_path \/ r = inr final_path) /\
    (forall q, In (Removed q) added ->
       q = temp_outro \/
       (q = video_path /\ should_delete_temp_files (config base) = true /\
        r = inr final_path)) /\
    (r = inr final_path -> final_path <> video_path ->
     exists main_info outro_info tail,
       added
       = [Probed video_path; Probed outro;
          Ran (outro_command env outro main_info outro_info temp_outro);
          Ran (concat_command env video_path temp_outro final_path)]
         ++ tail /\
       outcome (outro_command env outro main_info outro_info temp_outro)
         (fst s ++ [Probed video_path; Probed outro]) = inr tt /\
       outcome (concat_command env video_path temp_outro final_path)
         (fst s ++ [Probed video_path; Probed outro;
                    Ran (outro_command env outro main_info outro_info
                           temp_outro)]) = inr tt /\
       forall ev, In ev tail -> exists q, ev = Removed q).
Proof.
  destruct (file_exists env outro (fst s)) eqn:Ex.
  - change outro
      with (_resolve_asset_path env (outro_path (outro_cfg (config env))))
      in Ex.
    rewrite (add_outro_present env video_path s Ex).
    change (_resolve_asset_path env (outro_path (outro_cfg (config env))))
      with outro.
    destruct (add_outro_body env video_path outro s) as [[e | p] s1] eqn:Eb;
      destruct (add_outro_body_trace s s1 _ Eb) as (added & Hw & Hrem & Hres);
      intros H; injection H as <- <-; cbn [fst].
    + exists added. split; [exact Hw |]. split; [left; reflexivity |]. split.
      * intros q Hq. destruct (Hrem q Hq) as [Hq1 | (_ & _ & Hq1)];
          [left; exact Hq1 | discriminate].
      * intros Hr Hne. injection Hr as Hr. congruence.
    + destruct Hres as (-> & main_info & outro_info & tail & Hadd & E3 & E4 & Ht).
      exists added. split; [exact Hw |]. split; [right; reflexivity |].
      split; [exact Hrem |]. intros _ _.
      exists main_info, outro_info, tail. repeat split; assumption.
  - change outro
      with (_resolve_asset_path env (outro_path (outro_cfg (config env))))
      in Ex.
    rewrite (add_outro_missing env video_path s Ex).
    intros H. injection H as <- <-. cbn [fst].
    exists []. split; [symmetry; apply app_nil_r |].
    split; [left; reflexivity |]. split; [intros q [] |].
    intros Hr Hne. injection Hr as Hr. congruence.
Qed.

End RecordedStitch.

Section RecordedRender.

Variable base : Environment unit.
Variable present : pystr -> list event -> bool.
Variable probe : pystr -> list event -> result video_info.
Variable outcome : list pystr -> list event -> result unit.
Variable removable : pystr -> list event -> bool.
Variable clock : list event -> pystr.

Let env : Environment (list event) :=
  recording base present probe outcome removable clock.

Ltac bind_named H a s :=
  let Hm := fresh "Hm" in
  let Hr := fresh "Hr" in
  let e := fresh "e" in
  apply io_bind_cases in H;
  destruct H as [(e & Hm & Hr) | (a & s & Hm & H)].

Ltac print_step H :=
  let Hm := fresh "Hm" in
  let Hr := fresh "Hr" in
  let e := fresh "e" in
  let a := fresh "a" in
  let s := fresh "s" in
  apply io_bind_cases in H;
  destruct H as [(e & Hm & Hr) | (a & s & Hm & H)];
  [apply print_runs in Hm; destruct Hm as [Hm _]; discriminate Hm
  | apply print_runs in Hm; destruct Hm as [_ Hm]; subst s; cbn [fst snd] in H].

Lemma handler_runs (e : exn) (s1 s' : state (list event)) (r : result pystr) :
  (print (process_error e) ;; io_raise e)%io s1 = (r, s') ->
  r = inl e /\ fst s' = fst s1 /\ last (snd s') (Print []) = process_error e.
Proof.
  unfold io_bind, print, io_raise. intros H. injection H as <- <-. cbn [fst snd].
  split; [reflexivity |]. split; [reflexivity | apply last_last].
Qed.

(** What a run of the processor does outside itself. *)
Lemma process_video_trace (video_path : pystr) (overlays : list overlay)
    (s s' : state (list event)) (r : result pystr) :
  process_video env video_path overlays s = (r, s') ->
  let probed := fst s ++ [Probed video_path] in
  let output_path :=
    path_join base (output_dir (config base))
      (stem base video_path ++ lit "_processed_" ++ clock probed
       ++ lit ".mp4") in
  exists rest,
    fst s' = probed ++ rest /\
    match r with
    | inl e =>
        (rest = [] \/
         exists cmd, rest = [Ran cmd] /\ outcome cmd probed = inl e) /\
        last (snd s') (Print []) = process_error e
    | inr p =>
        exists cmd tail,
          rest = Ran cmd :: tail /\ outcome cmd probed = inr tt /\
          last cmd [] = output_path /\
          firstn 4 cmd = [lit "ffmpeg"; lit "-y"; lit "-i"; video_path] /\
          (outro_enabled (outro_cfg (config base)) = false ->
           tail = [] /\ p = output_path) /\
          (p = output_path \/
           p = sibling base output_path
                 (stem base output_path ++ lit "_with_outro.mp4"))
    end.
Proof.
  cbv zeta. unfold process_video, try_except.
  match goal with
  | |- (match ?b s with _ => _ end) = _ -> _ => set (body := b)
  end.
  set (probed := fst s ++ [Probed video_path]).
  set (output_path :=
         path_join base (output_dir (config base))
           (stem base video_path ++ lit "_processed_" ++ clock probed
            ++ lit ".mp4")).
  assert (Hbody : forall r1 s1, body s = (r1, s1) ->
            exists rest,
              fst s1 = probed ++ rest /\
              match r1 with
              | inl e =>
                  rest = [] \/
                  exists cmd, rest = [Ran cmd] /\ outcome cmd probed = inl e
              | inr p =>
                  exists cmd tail,
                    rest = Ran cmd :: tail /\ outcome cmd probed = inr tt /\
                    last cmd [] = output_path /\
                    firstn 4 cmd = [lit "ffmpeg"; lit "-y"; lit "-i"; video_path] /\
                    (outro_enabled (outro_cfg (config base)) = false ->
                     tail = [] /\ p = output_path) /\
                    (p = output_path \/
                     p = sibling base output_path
                           (stem base output_path ++ lit "_with_outro.mp4"))
              end).
  { intros r1 s1 H. unfold body in H.
    print_step H.
    bind_named H info s2.
    { apply probe_runs in Hm. destruct Hm as [_ Hw]. cbn [fst] in Hw.
      exists []. rewrite app_nil_r. split; [exact Hw |]. subst r1. left.
      reflexivity. }
    apply probe_runs in Hm. destruct Hm as [_ Hw2]. cbn [fst] in Hw2.
    fold probed in Hw2.
    print_step H.
    bind_named H crop s3.
    { unfold io_lift in Hm. injection Hm as _ <-. cbn [fst].
      exists []. rewrite app_nil_r. split; [exact Hw2 |]. subst r1. left.
      reflexivity. }
    unfold io_lift in Hm. injection Hm as _ <-. cbn [fst snd] in H.
    bind_named H stamp s4; [discriminate |].
    cbn [now_stamp env recording] in Hm. injection Hm as <- <-.
    cbn [fst] in H. rewrite Hw2 in H.
    change (path_join env) with (path_join base) in H.
    change (stem env) with (stem base) in H.
    change (config env) with (config base) in H.
    fold output_path in H.
    bind_named H plan s5.
    { apply render_plan_world in Hm. cbn [fst] in Hm.
      exists []. rewrite app_nil_r. split; [exact Hm |].
      subst r1. left. reflexivity. }
    destruct plan as [[cmd filters] logo_filter].
    pose proof (render_plan_world _ _ _ _ _ _ _ _ _ Hm) as Hw5. cbn [fst] in Hw5.
    destruct (render_plan_spec _ _ _ _ _ _ _ _ _ _ _ Hm)
      as (_ & front & video_output & _ & Hcmd & Hfront).
    clear Hm.
    print_step H. print_step H. print_step H.
    bind_named H u6 s6.
    { exfalso. destruct (nonempty logo_filter).
      - apply print_runs in Hm. destruct Hm as [Hm _]. discriminate.
      - discriminate. }
    assert (Hw6 : fst s6 = probed).
    { destruct (nonempty logo_filter).
      - apply print_runs in Hm. destruct Hm as [_ ->]. exact Hw5.
      - injection Hm as _ <-. exact Hw5. }
    clear Hm.
    assert (Hlast : last cmd [] = output_path).
    { rewrite Hcmd, !app_assoc. unfold output_parameters.
      match goal with
      | |- last (?front' ++ ?l) [] = _ =>
          change l with (removelast l ++ [output_path])
      end.
      rewrite app_assoc. apply last_last. }
    assert (Hfirst : firstn 4 cmd = [lit "ffmpeg"; lit "-y"; lit "-i"; video_path]).
    { rewrite Hcmd.
      destruct front as [| f1 [| f2 [| f3 [| f4 front']]]]; try discriminate.
      cbn [firstn app] in *. exact Hfront. }
    bind_named H u7 s7.
    { apply command_runs in Hm. destruct Hm as (Hw & _ & Hexit).
      rewrite Hw6 in Hw, Hexit.
      exists [Ran cmd]. split; [exact Hw |]. subst r1. right.
      exists cmd. split; [reflexivity | symmetry; exact Hexit]. }
    apply command_runs in Hm. destruct Hm as (Hw7 & _ & Hexit).
    rewrite Hw6 in Hw7, Hexit.
    destruct u7. symmetry in Hexit. rename Hexit into Ez.
    print_step H. print_step H.
    destruct (outro_enabled (outro_cfg (config base))) eqn:Eo.
    - destruct (add_outro_trace base present probe outcome removable clock
                  output_path _ _ _ H)
        as (added & Hw & Hres & _ & _).
      cbn [fst] in Hw. rewrite Hw7 in Hw. rewrite <- app_assoc in Hw.
      exists ([Ran cmd] ++ added). split; [exact Hw |].
      destruct Hres as [-> | ->].
      + exists cmd, added. split; [reflexivity |]. split; [exact Ez |].
        split; [exact Hlast |]. split; [exact Hfirst |].
        split; [discriminate | left; reflexivity].
      + exists cmd, added. split; [reflexivity |]. split; [exact Ez |].
        split; [exact Hlast |]. split; [exact Hfirst |].
        split; [discriminate | right; reflexivity].
    - unfold io_ret in H. injection H as <- <-. cbn [fst].
      exists [Ran cmd]. split; [exact Hw7 |].
      exists cmd, []. split; [reflexivity |]. split; [exact Ez |].
      split; [exact Hlast |]. split; [exact Hfirst |].
      split; [intros _; split; reflexivity | left; reflexivity]. }
  destruct (body s) as [[e | p] s1] eqn:E.
  - destruct (Hbody _ _ eq_refl) as (rest & Hw & Hres).
    intros H. apply handler_runs in H. destruct H as (-> & Hw' & Hlog).
    exists rest. split; [rewrite Hw'; exact Hw |]. split; [exact Hres | exact Hlog].
  - destruct (Hbody _ _ eq_refl) as (rest & Hw & Hres).
    intros H. injection H as <- <-. exists rest. split; [exact Hw | exact Hres].
Qed.

End RecordedRender.

Lemma commands_of_removals (tail : list event) :
  (forall ev, In ev tail -> exists q, ev = Removed q) -> commands tail = [].
Proof.
  induction tail as [| ev tail IH]; intros H; [reflexivity |].
  destruct (H ev (or_introl eq_refl)) as (q & ->). cbn [commands flat_map app].
  apply IH. intros ev' Hev. apply H. right. exact Hev.
Qed.

(** X24: the stitcher returns the path it was given or the path of the
    stitched file, and removes nothing but its temporary outro and, when
    the cleanup is on and every step succeeded, the file it was given.
    When it returns the stitched file it has run exactly two commands, the
    normalisation of the outro and then the concatenation, and both
    returned. *)
Theorem stitcher_removes_only_its_own_files (base : Environment unit)
    (present : pystr -> list event -> bool)
    (probe : pystr -> list event -> result video_info)
    (outcome : list pystr -> list event -> result unit)
    (removable : pystr -> list event -> bool)
    (clock : list event -> pystr)
    (video_path : pystr) (s s' : state (list event)) (r : result pystr) :
  let env := recording base present probe outcome removable clock in
  let outro := _resolve_asset_path base (outro_path (outro_cfg (config base))) in
  let final_path :=
    sibling base video_path (stem base video_path ++ lit "_with_outro.mp4") in
  let temp_outro :=
    path_join base (temp_dir (config base))
      (lit "temp_outro_" ++ stem base video_path ++ lit ".mp4") in
  _add_outro env video_path s = (r, s') ->
  exists added,
    fst s' = fst s ++ added /\
    (r = inr video_path \/ r = inr final_path) /\
    (forall q, In (Removed q) added ->
       q = temp_outro \/
       (q = video_path /\ should_delete_temp_files (config base) = true /\
        r = inr final_path)) /\
    (r = inr final_path -> final_path <> video_path ->
     exists main_info outro_info,
       commands added
       = [outro_command env outro main_info outro_info temp_outro;
          concat_command env video_path temp_outro final_path] /\
       outcome (outro_command env outro main_info outro_info temp_outro)
         (fst s ++ [Probed video_path; Probed outro]) = inr tt /\
       outcome (concat_command env video_path temp_outro final_path)
         (fst s ++ [Probed video_path; Probed outro;
                    Ran (outro_command env outro main_info outro_info
                           temp_outro)]) = inr tt).
Proof.
  cbv zeta. intros H.
  destruct (add_outro_trace base present probe outcome removable clock
              video_path s s' r H)
    as (added & Hw & Hres & Hrem & Hfinal).
  exists added. split; [exact Hw |]. split; [exact Hres |].
  split; [exact Hrem |]. intros Hr Hne.
  destruct (Hfinal Hr Hne) as (main_info & outro_info & tail & -> & E3 & E4 & Ht).
  exists main_info, outro_info. split; [| split; assumption].
  unfold commands. rewrite flat_map_app. fold (commands tail).
  rewrite (commands_of_removals tail Ht). reflexivity.
Qed.

Lemma stitcher_removes_only_its_own_files_witness :
  exists r s' added,
    _add_outro
      (recording (sample_env true true) (fun _ _ => true)
         (fun _ _ => inr sample_info) (fun _ _ => inr tt) (fun _ _ => true)
         (fun _ => lit "20240101_120000"))
      (lit "output_clips/clip.mp4") ([], [])
    = (r, s') /\
    fst s' = added /\
    forall q, In (Removed q) added ->
      q = lit "temp/temp_outro_clip.mp4" \/
      (q = lit "output_clips/clip.mp4" /\
       r = inr (lit "output_clips/clip_with_outro.mp4")).
Proof.
  eexists. eexists.
  assert (H : _add_outro
                (recording (sample_env true true) (fun _ _ => true)
                   (fun _ _ => inr sample_info) (fun _ _ => inr tt)
                   (fun _ _ => true) (fun _ => lit "20240101_120000"))
                (lit "output_clips/clip.mp4") ([], [])
              = (_, _)) by (vm_compute; reflexivity).
  destruct (stitcher_removes_only_its_own_files _ _ _ _ _ _ _ _ _ _ H)
    as (added & Hw & _ & Hrem & _).
  exists added. split; [exact H |]. split; [exact Hw |].
  intros q Hq. destruct (Hrem q Hq) as [-> | (-> & _ & Hr)].
  - left. reflexivity.
  - right. split; [reflexivity | exact Hr].
Defined.

(** X25: a run of the processor probes the source once and then runs the
    render command at most once.  A failure before the render, or a render
    that exits with a non-zero status, is raised after the error is
    printed, and nothing else is run or removed.  Once the render has
    succeeded the call returns a path: the rendered file, or the stitched
    file next to it; with the outro turned off it is the rendered file and
    nothing more is done.  The render command reads the source and writes
    the file named after the source and the time of the call. *)
Theorem render_runs_once_and_its_failure_is_fatal (base : Environment unit)
    (present : pystr -> list event -> bool)
    (probe : pystr -> list event -> result video_info)
    (outcome : list pystr -> list event -> result unit)
    (removable : pystr -> list event -> bool)
    (clock : list event -> pystr)
    (video_path : pystr) (overlays : list overlay)
    (s s' : state (list event)) (r : result pystr) :
  process_video (recording base present probe outcome removable clock)
    video_path overlays s = (r, s') ->
  let probed := fst s ++ [Probed video_path] in
  let output_path :=
    path_join base (output_dir (config base))
      (stem base video_path ++ lit "_processed_" ++ clock probed
       ++ lit ".mp4") in
  exists rest,
    fst s' = probed ++ rest /\
    match r with
    | inl e =>
        (rest = [] \/
         exists cmd, rest = [Ran cmd] /\ outcome cmd probed = inl e) /\
        last (snd s') (Print []) = process_error e
    | inr p =>
        exists cmd tail,
          rest = Ran cmd :: tail /\ outcome cmd probed = inr tt /\
          last cmd [] = output_path /\
          firstn 4 cmd = [lit "ffmpeg"; lit "-y"; lit "-i"; video_path] /\
          (outro_enabled (outro_cfg (config base)) = false ->
           tail = [] /\ p = output_path) /\
          (p = output_path \/
           p = sibling base output_path
                 (stem base output_path ++ lit "_with_outro.mp4"))
    end.
Proof.
  intros H.
  exact (process_video_trace base present probe outcome removable clock
           video_path overlays s s' r H).
Qed.

Lemma render_runs_once_and_its_failure_is_fatal_witness :
  exists s' rest,
    process_video
      (recording (sample_env true true) (fun _ _ => true)
         (fun _ _ => inr sample_info) (fun _ _ => inl CalledProcessError)
         (fun _ _ => true)
         (fun _ => lit "20240101_120000"))
      (lit "clip.mp4") [] ([], [])
    = (inl CalledProcessError, s') /\
    fst s' = [Probed (lit "clip.mp4")] ++ rest /\
    exists cmd, rest = [Ran cmd].
Proof.
  eexists.
  assert (H : process_video
                (recording (sample_env true true) (fun _ _ => true)
                   (fun _ _ => inr sample_info)
                   (fun _ _ => inl CalledProcessError)
                   (fun _ _ => true) (fun _ => lit "20240101_120000"))
                (lit "clip.mp4") [] ([], [])
              = (inl CalledProcessError, _)) by (vm_compute; reflexivity).
  destruct (render_runs_once_and_its_failure_is_fatal _ _ _ _ _ _ _ _ _ _ _ H)
    as (rest & Hw & [Hnone | (cmd & Hcmd & _)] & _).
  - exfalso. rewrite Hnone in Hw. vm_compute in Hw. discriminate.
  - exists rest. split; [exact H |]. split; [exact Hw |]. exists cmd. exact Hcmd.
Defined.
